(** * Ursa local graph manager: a shallow embedding of [ursa/local_manager.py]

    The manager keeps a registry of graph actors and a transaction counter.
    Every mutating call advances the counter, forwards a message to the
    actor of the addressed graph and launches detached tasks that write the
    mirrored edges.  The development follows the source file top to bottom:
    Python values, the actor messages, the manager state, the manager methods
    and the two detached procedures, and last the properties. *)

From Stdlib Require Import ZArith Lia.
From stdpp Require Import gmap strings list fin_maps countable.

Local Open Scope Z_scope.
Local Open Scope string_scope.

(** ** Python values *)

(** The fragment of Python objects that the manager's arguments range over:
    graph names, row keys, row payloads, collections of keys and the
    [foreign_keys] dictionary.  [VDict] is an object whose type is exactly
    [dict]; [VOrderedDict] is a [collections.OrderedDict], a mapping whose
    type is a subclass of [dict]. *)
#[warnings="-register-all"]
Inductive value : Type :=
  | VNone
  | VStr (s : string)
  | VInt (z : Z)
  | VTuple (items : list value)
  | VList (items : list value)
  | VSet (items : list value)
  | VDict (items : list (value * value))
  | VOrderedDict (items : list (value * value)).

Module Value.

(** Structural induction that also reaches the elements of collections. *)
Section Induction.
Variable P : value → Prop.
Hypothesis HNone : P VNone.
Hypothesis HStr : ∀ s, P (VStr s).
Hypothesis HInt : ∀ z, P (VInt z).
Hypothesis HTuple : ∀ l, Forall P l → P (VTuple l).
Hypothesis HList : ∀ l, Forall P l → P (VList l).
Hypothesis HSet : ∀ l, Forall P l → P (VSet l).
Hypothesis HDict : ∀ l, Forall (λ kv, P kv.1 ∧ P kv.2) l → P (VDict l).
Hypothesis HOrderedDict :
  ∀ l, Forall (λ kv, P kv.1 ∧ P kv.2) l → P (VOrderedDict l).

Fixpoint deep_ind (v : value) : P v :=
  let all :=
    fix all (l : list value) : Forall P l :=
      match l with
      | [] => Forall_nil P
      | x :: l' => Forall_cons P x l' (deep_ind x) (all l')
      end in
  let allp :=
    fix allp (l : list (value * value)) : Forall (λ kv, P kv.1 ∧ P kv.2) l :=
      match l with
      | [] => Forall_nil _
      | (k, x) :: l' =>
          Forall_cons (λ kv, P kv.1 ∧ P kv.2) (k, x) l'
            (conj (deep_ind k) (deep_ind x)) (allp l')
      end in
  match v with
  | VNone => HNone
  | VStr s => HStr s
  | VInt z => HInt z
  | VTuple l => HTuple l (all l)
  | VList l => HList l (all l)
  | VSet l => HSet l (all l)
  | VDict l => HDict l (allp l)
  | VOrderedDict l => HOrderedDict l (allp l)
  end.
End Induction.

(** Values are countable through an encoding into generic trees; this is
    what lets them index finite maps and populate finite sets. *)
Fixpoint enc (v : value) : gen_tree (string + Z) :=
  match v with
  | VNone => GenNode 0 []
  | VStr s => GenLeaf (inl s)
  | VInt z => GenLeaf (inr z)
  | VTuple l => GenNode 1 (map enc l)
  | VList l => GenNode 2 (map enc l)
  | VSet l => GenNode 3 (map enc l)
  | VDict l =>
      GenNode 4 (map (λ kv, match kv with
                            | (k, x) => GenNode 5 [enc k; enc x]
                            end) l)
  | VOrderedDict l =>
      GenNode 6 (map (λ kv, match kv with
                            | (k, x) => GenNode 5 [enc k; enc x]
                            end) l)
  end.

Fixpoint dec (t : gen_tree (string + Z)) : value :=
  match t with
  | GenLeaf (inl s) => VStr s
  | GenLeaf (inr z) => VInt z
  | GenNode 1 ts => VTuple (map dec ts)
  | GenNode 2 ts => VList (map dec ts)
  | GenNode 3 ts => VSet (map dec ts)
  | GenNode 4 ts =>
      VDict (map (λ t', match t' with
                        | GenNode _ [a; b] => (dec a, dec b)
                        | _ => (VNone, VNone)
                        end) ts)
  | GenNode 6 ts =>
      VOrderedDict (map (λ t', match t' with
                               | GenNode _ [a; b] => (dec a, dec b)
                               | _ => (VNone, VNone)
                               end) ts)
  | GenNode _ _ => VNone
  end.

Lemma dec_enc (v : value) : dec (enc v) = v.
Proof.
  induction v using deep_ind; simpl; try done.
  - f_equal. induction H as [|x l Hx _ IH]; simpl; [done|]. by rewrite Hx, IH.
  - f_equal. induction H as [|x l Hx _ IH]; simpl; [done|]. by rewrite Hx, IH.
  - f_equal. induction H as [|x l Hx _ IH]; simpl; [done|]. by rewrite Hx, IH.
  - f_equal. induction H as [|[k x] l [Hk Hx] _ IH]; simpl in *; [done|].
    by rewrite Hk, Hx, IH.
  - f_equal. induction H as [|[k x] l [Hk Hx] _ IH]; simpl in *; [done|].
    by rewrite Hk, Hx, IH.
Qed.

Lemma enc_inj (v1 v2 : value) : enc v1 = enc v2 → v1 = v2.
Proof. intros E. rewrite <- (dec_enc v1), <- (dec_enc v2). by rewrite E. Qed.

End Value.

#[global] Instance value_eq_dec : EqDecision value.
Proof.
  intros v1 v2.
  destruct (decide (Value.enc v1 = Value.enc v2)) as [E|N].
  - left. exact (Value.enc_inj v1 v2 E).
  - right. intros ->. by apply N.
Defined.

#[global] Instance value_countable : Countable value :=
  inj_countable' Value.enc Value.dec Value.dec_enc.

(** ** Python operations on values *)

Module Py.

(** Exceptions that reach the caller of a manager method.  [KeyNotFound]
    is the failure of a store read addressed to an absent key, and
    [RayActorError] that of waiting for the reply of an actor that does
    not exist. *)
Inductive exn : Type :=
  | ValueError (msg : string)
  | KeyError (key : value)
  | TypeError (msg : string)
  | KeyNotFound (key : value)
  | RayActorError.

(** [hash(v)] succeeds: scalars always, tuples when all their elements do;
    lists, sets and dictionaries never. *)
Fixpoint hashable (v : value) : bool :=
  match v with
  | VNone | VStr _ | VInt _ => true
  | VTuple l => forallb hashable l
  | VList _ | VSet _ | VDict _ | VOrderedDict _ => false
  end.

(** Truth value, as tested by [not graph_id]. *)
Definition truthy (v : value) : bool :=
  match v with
  | VNone => false
  | VStr s => negb (bool_decide (s = ""))
  | VInt z => negb (bool_decide (z = 0))
  | VTuple l | VList l | VSet l => negb (bool_decide (l = []))
  | VDict l | VOrderedDict l => negb (bool_decide (l = []))
  end.

(** [type(v) is dict]: the type itself, not a subclass of it. *)
Definition is_dict (v : value) : bool :=
  match v with VDict _ => true | _ => false end.

(** [isinstance(v, collections.abc.Mapping)]: the object is a mapping. *)
Definition is_mapping (v : value) : bool :=
  match v with VDict _ | VOrderedDict _ => true | _ => false end.

(** Iterating a string yields its characters, each a one-character string. *)
Fixpoint chars (s : string) : list value :=
  match s with
  | EmptyString => []
  | String c s' => VStr (String c EmptyString) :: chars s'
  end.

(** [for x in v]: the elements visited, or [TypeError] when [v] is not
    iterable.  A dictionary iterates over its keys. *)
Definition iter (v : value) : exn + list value :=
  match v with
  | VNone => inl (TypeError "'NoneType' object is not iterable")
  | VInt _ => inl (TypeError "'int' object is not iterable")
  | VStr s => inr (chars s)
  | VTuple l | VList l | VSet l => inr l
  | VDict l | VOrderedDict l => inr (l.*1)
  end.

(** [set(l)] for the elements [l] of an iterable: [TypeError] when one of
    them is unhashable, otherwise the distinct elements. *)
Definition set_of (l : list value) : exn + list value :=
  if forallb hashable l then inr (remove_dups l)
  else inl (TypeError "unhashable type").

(** [d[k]] on the items of a dictionary. *)
Fixpoint getitem (items : list (value * value)) (k : value) : exn + value :=
  match items with
  | [] => inl (KeyError k)
  | (k', x) :: items' => if bool_decide (k' = k) then inr x else getitem items' k
  end.

End Py.

(** ** The graph store *)

(** An actor handle, as returned by [ug.Graph.remote(...)]: the position of
    the actor among the actors created so far. *)
Abbreviation handle := nat.

(** Method calls that can be sent to a graph actor with [.remote(...)],
    arguments in the order of the call sites in the manager. *)
Inductive msg : Type :=
  | Insert (key node local_keys foreign_keys : value) (transaction_id : Z)
  | Delete (key : value) (transaction_id : Z)
  | AddLocalKeys (transaction_id : Z) (key : value) (local_keys : list value)
  | AddForeignKeys (transaction_id : Z) (key other_graph_id : value)
      (foreign_keys : list value)
  | RowExists (key : value)
  | SelectRow (transaction_id : Z) (key : value)
  | SelectLocalKeys (transaction_id : Z) (key : value)
  | SelectForeignKeys (transaction_id : Z) (key : value).

Module Store.

(** Modelled from the spec: the state of a Graph Store ([ursa/graph.py],
    the class behind [ug.Graph]): the rows, the local edge set of each key
    and the foreign edge map of each key, together with the transaction id
    the store was created under. *)
Record Graph : Type := mkGraph {
  creation_transaction_id : Z;
  rows : gmap value value;
  local_edges : gmap value (gset value);
  foreign_edges : gmap value (gmap value (gset value));
}.

(** Modelled from the spec: the constructor of a Graph Store, stamped with
    the current transaction id and otherwise empty. *)
Definition new (transaction_id : Z) : Graph :=
  mkGraph transaction_id ∅ ∅ ∅.

(** Modelled from the spec: how a store reads a keys argument that may be
    a bare scalar or a collection: a bare (hashable) scalar is wrapped into
    a singleton, a collection gives the set of its elements. *)
Definition key_set (v : value) : gset value :=
  if Py.hashable v then {[ v ]}
  else match Py.iter v with
       | inr l => list_to_set l
       | inl _ => ∅
       end.

(** Modelled from the spec: the union of [ks] into the bucket of graph [g]
    of a foreign edge map, the step both [add_foreign_keys] and the merge of
    [insert] are made of. *)
Definition add_bucket (g : value) (ks : gset value)
    (fm : gmap value (gset value)) : gmap value (gset value) :=
  <[ g := default ∅ (fm !! g) ∪ ks ]> fm.

(** Modelled from the spec: store operation [add_local_keys], which unions
    the keys into the key's local edge set (created when absent). *)
Definition add_local_keys (key : value) (ks : list value) (G : Graph) : Graph :=
  mkGraph (creation_transaction_id G) (rows G)
    (<[ key := default ∅ (local_edges G !! key) ∪ list_to_set ks ]> (local_edges G))
    (foreign_edges G).

(** Modelled from the spec: store operation [add_foreign_keys], which
    unions the keys into the bucket of [other_graph_id] in the key's
    foreign edge map (created when absent). *)
Definition add_foreign_keys (key other_graph_id : value) (ks : list value)
    (G : Graph) : Graph :=
  mkGraph (creation_transaction_id G) (rows G) (local_edges G)
    (<[ key := add_bucket other_graph_id (list_to_set ks)
                 (default ∅ (foreign_edges G !! key)) ]> (foreign_edges G)).

(** Modelled from the spec: store operation [insert], which creates or
    overwrites the row, sets the local edge set to [local_keys] and merges
    [foreign_keys] into the foreign edge map. *)
Definition insert (key node local_keys foreign_keys : value) (G : Graph) : Graph :=
  let items := match foreign_keys with
               | VDict l | VOrderedDict l => l
               | _ => []
               end in
  mkGraph (creation_transaction_id G)
    (<[ key := node ]> (rows G))
    (<[ key := key_set local_keys ]> (local_edges G))
    (<[ key := foldl (λ fm kv, add_bucket kv.1 (key_set kv.2) fm)
                 (default ∅ (foreign_edges G !! key)) items ]> (foreign_edges G)).

(** Modelled from the spec: store operation [delete], which removes the
    row of the key and leaves the edges alone. *)
Definition delete (key : value) (G : Graph) : Graph :=
  mkGraph (creation_transaction_id G) (base.delete key (rows G))
    (local_edges G) (foreign_edges G).

(** Modelled from the spec: the effect of a method call on the state of the
    store that receives it.  The transaction id is recorded for bookkeeping
    only; reads leave the state alone. *)
Definition handle_msg (m : msg) (G : Graph) : Graph :=
  match m with
  | Insert key node local_keys foreign_keys _ =>
      insert key node local_keys foreign_keys G
  | Delete key _ => delete key G
  | AddLocalKeys _ key ks => add_local_keys key ks G
  | AddForeignKeys _ key other_graph_id ks =>
      add_foreign_keys key other_graph_id ks G
  | RowExists _ | SelectRow _ _ | SelectLocalKeys _ _
  | SelectForeignKeys _ _ => G
  end.

(** Modelled from the spec: store operation [row_exists]. *)
Definition row_exists (key : value) (G : Graph) : bool :=
  bool_decide (is_Some (rows G !! key)).

(** Modelled from the spec: what a read returns, the entry of one key or
    the whole projection when no key is given ([key=None]). *)
Inductive selection (A : Type) : Type :=
  | One (x : A)
  | All (m : gmap value A).
Arguments One {A} x.
Arguments All {A} m.

(** Modelled from the spec: the store reads [select_row],
    [select_local_keys] and [select_foreign_keys]; each fails with
    [KeyNotFound] when a key is given but absent. *)
Definition select {A : Type} (m : gmap value A) (key : value)
    : Py.exn + selection A :=
  match key with
  | VNone => inr (All m)
  | _ => match m !! key with
         | Some x => inr (One x)
         | None => inl (Py.KeyNotFound key)
         end
  end.

End Store.

(** ** The manager and its runtime *)

(** A detached task launched with [.remote(...)] on one of the two module
    level procedures, with the arguments of the call. *)
Inductive task : Type :=
  | LocalBackEdges (transaction_id : Z) (graph : handle) (key : value)
      (local_keys : value)
  | ForeignBackEdges (transaction_id : Z) (graph : handle) (key : value)
      (graph_id : value) (f_keys : value).

(** The fields of a [Graph_manager] object. *)
Record Graph_manager : Type := mkManager {
  graph_dict : gmap value handle;
  _transaction_id : Z;
}.

(** What the task substrate holds: the state of every actor created so far,
    the detached tasks launched and not yet run, the log of the method calls
    sent to actors, and the graph names for which the warning line was
    printed.

    An actor runs the calls it receives one at a time, in the order they
    arrive, and every read waits for its reply; so a call takes effect on
    the state of the actor when it is sent.  A detached task runs later:
    it stays in the queue until [propagate] runs the queue, and a read made
    in between sees the stores without the mirrored edges. *)
Record runtime : Type := mkRuntime {
  actors : list Store.Graph;
  tasks : list task;
  sent : list (handle * msg);
  stdout : list value;
}.

Record world : Type := mkWorld {
  self : Graph_manager;
  ray : runtime;
}.

(** [Graph_manager()] in a fresh process. *)
Definition init : world :=
  mkWorld (mkManager ∅ 0) (mkRuntime [] [] [] []).

(** Computations that read and update the world and may raise.  The world
    reached when an exception is raised is kept: Python does not undo the
    assignments made before a [raise]. *)
Definition M (A : Type) : Type := world → (Py.exn + A) * world.

Definition ret {A} (x : A) : M A := λ w, (inr x, w).

Definition raise {A} (e : Py.exn) : M A := λ w, (inl e, w).

Definition bind {A B} (m : M A) (k : A → M B) : M B :=
  λ w, match m w with
       | (inr x, w') => k x w'
       | (inl e, w') => (inl e, w')
       end.

Declare Scope py_scope.
Delimit Scope py_scope with py.
Notation "x <- m ;; k" := (bind m (λ x, k))
  (at level 100, m at next level, right associativity) : py_scope.
Notation "m ;; k" := (bind m (λ _, k))
  (at level 100, right associativity) : py_scope.
Local Open Scope py_scope.

(** [if c: raise e] *)
Definition raise_if (c : bool) (e : Py.exn) : M unit :=
  if c then raise e else ret tt.

(** An operation on values that may raise and does not touch the world. *)
Definition lift {A} (r : Py.exn + A) : M A := λ w, (r, w).

(** [try: m  except TypeError: h] *)
Definition try_except_TypeError {A} (m h : M A) : M A :=
  λ w, match m w with
       | (inl (Py.TypeError _), w') => h w'
       | r => r
       end.

(** [for x in l: body(x)] over the elements already produced by the
    iterator; the loop ends at the first exception. *)
Fixpoint for_each {A} (l : list A) (body : A → M unit) : M unit :=
  match l with
  | [] => ret tt
  | x :: l' => body x ;; for_each l' body
  end.

Definition get_transaction_id : M Z :=
  λ w, (inr (_transaction_id (self w)), w).

(** [self._transaction_id += 1] *)
Definition incr_transaction_id : M unit :=
  λ w, (inr tt,
        mkWorld (mkManager (graph_dict (self w)) (_transaction_id (self w) + 1))
                (ray w)).

(** [graph_id in self.graph_dict]; hashing the key comes first. *)
Definition dict_contains (graph_id : value) : M bool :=
  λ w, if Py.hashable graph_id
       then (inr (bool_decide (is_Some (graph_dict (self w) !! graph_id))), w)
       else (inl (Py.TypeError "unhashable type"), w).

(** [self.graph_dict[graph_id]] *)
Definition dict_get (graph_id : value) : M handle :=
  λ w, if Py.hashable graph_id
       then match graph_dict (self w) !! graph_id with
            | Some h => (inr h, w)
            | None => (inl (Py.KeyError graph_id), w)
            end
       else (inl (Py.TypeError "unhashable type"), w).

(** [self.graph_dict[graph_id] = h] *)
Definition dict_set (graph_id : value) (h : handle) : M unit :=
  λ w, if Py.hashable graph_id
       then (inr tt,
             mkWorld (mkManager (<[ graph_id := h ]> (graph_dict (self w)))
                                (_transaction_id (self w)))
                     (ray w))
       else (inl (Py.TypeError "unhashable type"), w).

(** [ug.Graph.remote(transaction_id)]: a new actor, whose handle is returned. *)
Definition Graph_remote (transaction_id : Z) : M handle :=
  λ w, (inr (length (actors (ray w))),
        mkWorld (self w)
          (mkRuntime (actors (ray w) ++ [Store.new transaction_id])
                     (tasks (ray w)) (sent (ray w)) (stdout (ray w)))).

(** [graph.method.remote(args)]: the call is logged and takes effect on the
    state of the actor behind the handle. *)
Definition remote (graph : handle) (m : msg) : M unit :=
  λ w, (inr tt,
        mkWorld (self w)
          (mkRuntime (alter (Store.handle_msg m) graph (actors (ray w)))
                     (tasks (ray w)) (sent (ray w) ++ [(graph, m)])
                     (stdout (ray w)))).

(** [procedure.remote(args)]: the detached task is queued. *)
Definition spawn (t : task) : M unit :=
  λ w, (inr tt,
        mkWorld (self w)
          (mkRuntime (actors (ray w)) (tasks (ray w) ++ [t]) (sent (ray w))
                     (stdout (ray w)))).

(** [print("Warning:", str(graph_id), "is not yet in this Graph Collection.
    Creating...")] *)
Definition print_warning (graph_id : value) : M unit :=
  λ w, (inr tt,
        mkWorld (self w)
          (mkRuntime (actors (ray w)) (tasks (ray w)) (sent (ray w))
                     (stdout (ray w) ++ [graph_id]))).

(** The state of the actor behind a handle, for reads that wait for the
    reply ([ray.get]). *)
Definition actor_state (graph : handle) : M Store.Graph :=
  λ w, match actors (ray w) !! graph with
       | Some G => (inr G, w)
       | None => (inl Py.RayActorError, w)
       end.

(** ** The methods of [Graph_manager] *)

Definition InvalidName : Py.exn := Py.ValueError "Graph must be named something.".
Definition DuplicateName : Py.exn := Py.ValueError "Graph name already exists.".
Definition InvalidArgument : Py.exn :=
  Py.ValueError "Foreign keys must be labeled with a destination graph.".

(** Default values of the optional arguments of [insert]. *)
Definition default_local_keys : value := VSet [].
Definition default_foreign_keys : value := VDict [].

Definition create_graph (graph_id : value) (new_transaction : bool) : M unit :=
  (if new_transaction then incr_transaction_id else ret tt) ;;
  raise_if (negb (Py.truthy graph_id) || bool_decide (graph_id = VStr ""))
    InvalidName ;;
  present <- dict_contains graph_id ;;
  raise_if present DuplicateName ;;
  transaction_id <- get_transaction_id ;;
  graph <- Graph_remote transaction_id ;;
  dict_set graph_id graph.

Definition _create_if_not_exists (graph_id : value) : M unit :=
  present <- dict_contains graph_id ;;
  if present then ret tt
  else print_warning graph_id ;; create_graph graph_id false.

Definition insert (graph_id key node local_keys foreign_keys : value) : M unit :=
  incr_transaction_id ;;
  raise_if (negb (Py.is_dict foreign_keys)) InvalidArgument ;;
  _create_if_not_exists graph_id ;;
  graph <- dict_get graph_id ;;
  transaction_id <- get_transaction_id ;;
  remote graph (Insert key node local_keys foreign_keys transaction_id) ;;
  local_keys <- try_except_TypeError
                  (lift (Py.set_of [local_keys]))
                  (items <- lift (Py.iter local_keys) ;; lift (Py.set_of items)) ;;
  transaction_id <- get_transaction_id ;;
  graph <- dict_get graph_id ;;
  spawn (LocalBackEdges transaction_id graph key (VSet local_keys)) ;;
  other_graph_ids <- lift (Py.iter foreign_keys) ;;
  for_each other_graph_ids (λ other_graph_id,
    _create_if_not_exists other_graph_id ;;
    transaction_id <- get_transaction_id ;;
    other_graph <- dict_get other_graph_id ;;
    f_keys <- lift (match foreign_keys with
                    | VDict items | VOrderedDict items =>
                        Py.getitem items other_graph_id
                    | _ => inl (Py.TypeError "object is not subscriptable")
                    end) ;;
    spawn (ForeignBackEdges transaction_id other_graph key graph_id f_keys)).

Definition delete_row (graph_id key : value) : M unit :=
  incr_transaction_id ;;
  graph <- dict_get graph_id ;;
  transaction_id <- get_transaction_id ;;
  remote graph (Delete key transaction_id).

(** [local_keys] is the tuple of the variadic arguments. *)
Definition add_local_keys (graph_id key : value) (local_keys : list value) : M unit :=
  incr_transaction_id ;;
  graph <- dict_get graph_id ;;
  transaction_id <- get_transaction_id ;;
  remote graph (AddLocalKeys transaction_id key local_keys) ;;
  transaction_id <- get_transaction_id ;;
  graph <- dict_get graph_id ;;
  spawn (LocalBackEdges transaction_id graph key (VTuple local_keys)).

(** [foreign_keys] is the tuple of the variadic arguments. *)
Definition add_foreign_keys (graph_id key other_graph_id : value)
    (foreign_keys : list value) : M unit :=
  incr_transaction_id ;;
  graph <- dict_get graph_id ;;
  transaction_id <- get_transaction_id ;;
  remote graph (AddForeignKeys transaction_id key other_graph_id foreign_keys) ;;
  _create_if_not_exists other_graph_id ;;
  transaction_id <- get_transaction_id ;;
  other_graph <- dict_get other_graph_id ;;
  spawn (ForeignBackEdges transaction_id other_graph key graph_id
           (VTuple foreign_keys)).

(** The result of [node_exists]: the constant [False], or the future of the
    store's presence check together with the boolean it resolves to. *)
Inductive node_exists_result : Type :=
  | PyFalse
  | RowExistsFuture (resolves_to : bool).

Definition node_exists (graph_id key : value) : M node_exists_result :=
  present <- dict_contains graph_id ;;
  if present then
    graph <- dict_get graph_id ;;
    remote graph (RowExists key) ;;
    G <- actor_state graph ;;
    ret (RowExistsFuture (Store.row_exists key G))
  else ret PyFalse.

(** The three reads wait for the reply of the store ([ray.get]) and return
    its first component, which carries the selection. *)
Definition select_row (graph_id key : value) : M (Store.selection value) :=
  graph <- dict_get graph_id ;;
  transaction_id <- get_transaction_id ;;
  remote graph (SelectRow transaction_id key) ;;
  G <- actor_state graph ;;
  lift (Store.select (Store.rows G) key).

Definition select_local_keys (graph_id key : value)
    : M (Store.selection (gset value)) :=
  graph <- dict_get graph_id ;;
  transaction_id <- get_transaction_id ;;
  remote graph (SelectLocalKeys transaction_id key) ;;
  G <- actor_state graph ;;
  lift (Store.select (Store.local_edges G) key).

Definition select_foreign_keys (graph_id key : value)
    : M (Store.selection (gmap value (gset value))) :=
  graph <- dict_get graph_id ;;
  transaction_id <- get_transaction_id ;;
  remote graph (SelectForeignKeys transaction_id key) ;;
  G <- actor_state graph ;;
  lift (Store.select (Store.foreign_edges G) key).

Definition get_graph (graph_id : value) : M handle := dict_get graph_id.

(** ** The detached back-edge procedures *)

Definition _add_local_key_back_edges (transaction_id : Z) (graph : handle)
    (key local_keys : value) : M unit :=
  back_edge_keys <- lift (Py.iter local_keys) ;;
  for_each back_edge_keys (λ back_edge_key,
    remote graph (AddLocalKeys transaction_id back_edge_key [key])).

Definition _add_foreign_key_back_edges (transaction_id : Z) (graph : handle)
    (key graph_id f_keys : value) : M unit :=
  back_edge_keys <- lift (Py.iter f_keys) ;;
  for_each back_edge_keys (λ back_edge_key,
    remote graph (AddForeignKeys transaction_id back_edge_key graph_id [key])).

(** Running one detached task.  Nobody waits for its result, so an exception
    raised inside it is lost and only the world it leaves counts. *)
Definition run_task (t : task) (w : world) : world :=
  match t with
  | LocalBackEdges transaction_id graph key local_keys =>
      (_add_local_key_back_edges transaction_id graph key local_keys w).2
  | ForeignBackEdges transaction_id graph key graph_id f_keys =>
      (_add_foreign_key_back_edges transaction_id graph key graph_id f_keys w).2
  end.

(** The world with an empty task queue. *)
Definition clear_tasks (w : world) : world :=
  mkWorld (self w)
    (mkRuntime (actors (ray w)) [] (sent (ray w)) (stdout (ray w))).

(** Propagation completes: every queued task runs.  The tasks are taken in
    the order of launch; the stores they leave do not depend on that order,
    see [propagate_any_order]. *)
Definition propagate (w : world) : world :=
  foldl (λ w' t, run_task t w') (clear_tasks w) (tasks (ray w)).

(** The world a call leaves behind and its outcome. *)
Definition after {A} (m : M A) (w : world) : world := (m w).2.
Definition outcome {A} (m : M A) (w : world) : Py.exn + A := (m w).1.

(** * The vocabulary of the properties *)

(** Short names for the parts of the world the statements talk about. *)
Definition registry (w : world) : gmap value handle := graph_dict (self w).
Definition transaction_id (w : world) : Z := _transaction_id (self w).
Definition stores (w : world) : list Store.Graph := actors (ray w).

(** Every handle in the registry refers to an existing actor. *)
Definition wf (w : world) : Prop :=
  map_Forall (λ _ h, (h < length (stores w))%nat) (registry w).

(** [LocalEdgeSet(G, key)] and [ForeignEdgeMap(G, key)[H]] of the data
    model, read off the store registered under the graph name; empty when
    the graph or the key is unknown. *)
Definition store_of (w : world) (graph_id : value) : option Store.Graph :=
  h ← registry w !! graph_id; stores w !! h.

Definition LocalEdgeSet (w : world) (graph_id key : value) : gset value :=
  default ∅ (G ← store_of w graph_id; Store.local_edges G !! key).

Definition ForeignEdgeMap (w : world) (graph_id key : value)
    : gmap value (gset value) :=
  default ∅ (G ← store_of w graph_id; Store.foreign_edges G !! key).

Definition ForeignEdgeSet (w : world) (graph_id key other_graph_id : value)
    : gset value :=
  default ∅ (ForeignEdgeMap w graph_id key !! other_graph_id).

(** A graph name the registry accepts: hashable and neither empty nor absent. *)
Definition valid_name (graph_id : value) : bool :=
  Py.hashable graph_id && Py.truthy graph_id.

(** Delivering a list of method calls, in order. *)
Definition deliver (ms : list (handle * msg)) (w : world) : world :=
  mkWorld (self w)
    (mkRuntime
       (foldl (λ l hm, alter (Store.handle_msg hm.2) hm.1 l) (actors (ray w)) ms)
       (tasks (ray w)) (sent (ray w) ++ ms) (stdout (ray w))).

(** The world after a graph has been created under [graph_id]. *)
Definition with_new_graph (graph_id : value) (w : world) : world :=
  mkWorld
    (mkManager (<[ graph_id := length (stores w) ]> (registry w)) (transaction_id w))
    (mkRuntime (stores w ++ [Store.new (transaction_id w)])
               (tasks (ray w)) (sent (ray w)) (stdout (ray w))).

Definition preserves {A} (R : relation world) (m : M A) : Prop :=
  ∀ w, R w (after m w).

(** Relations maintained by the helpers every method shares: creating a
    graph under a free name, queueing a task and printing the warning. *)
Class Stable (R : relation world) : Prop := {
  stable_preorder :: PreOrder R;
  stable_new_graph g w :
    Py.hashable g = true → registry w !! g = None → R w (with_new_graph g w);
  stable_spawn t w : R w (after (spawn t) w);
  stable_print_warning g w : R w (after (print_warning g) w);
}.

Definition same_tid : relation world :=
  λ w w', transaction_id w' = transaction_id w.

(** The manager-level mutating calls, [create_graph] with its default
    [new_transaction=True]. *)
Inductive call : Type :=
  | CreateGraph (graph_id : value)
  | InsertRow (graph_id key node local_keys foreign_keys : value)
  | DeleteRow (graph_id key : value)
  | AddLocalKeysTo (graph_id key : value) (local_keys : list value)
  | AddForeignKeysTo (graph_id key other_graph_id : value)
      (foreign_keys : list value).

Definition run_call (c : call) : M unit :=
  match c with
  | CreateGraph graph_id => create_graph graph_id true
  | InsertRow graph_id key node local_keys foreign_keys =>
      insert graph_id key node local_keys foreign_keys
  | DeleteRow graph_id key => delete_row graph_id key
  | AddLocalKeysTo graph_id key local_keys =>
      add_local_keys graph_id key local_keys
  | AddForeignKeysTo graph_id key other_graph_id foreign_keys =>
      add_foreign_keys graph_id key other_graph_id foreign_keys
  end.

(** What happens between the creation of the manager and a later moment: the
    client makes a call (and goes on whether or not it raised), or the
    substrate runs the queued tasks. *)
Inductive event : Type :=
  | Call (c : call)
  | RunTasks.

Definition run_event (e : event) (w : world) : world :=
  match e with
  | Call c => after (run_call c) w
  | RunTasks => propagate w
  end.

Definition run_events (es : list event) (w : world) : world :=
  foldl (λ w' e, run_event e w') w es.

Definition is_call (e : event) : bool :=
  match e with Call _ => true | RunTasks => false end.

(** Graphs that appear in the registry during a computation are new actors
    stamped with the transaction id current at that time; the stamps of the
    actors that existed before stay as they were. *)
Definition stamped : relation world := λ w w',
  transaction_id w' = transaction_id w ∧
  registry w ⊆ registry w' ∧
  (∀ h G, stores w !! h = Some G →
     ∃ G', stores w' !! h = Some G' ∧
           Store.creation_transaction_id G' = Store.creation_transaction_id G) ∧
  (∀ g h, registry w !! g = None → registry w' !! g = Some h →
     stores w !! h = None ∧
     ∃ G, stores w' !! h = Some G ∧
          Store.creation_transaction_id G = transaction_id w).

Definition raises_only {A} (P : Py.exn → Prop) (m : M A) : Prop :=
  ∀ w e, outcome m w = inl e → P e.

(** Past the check of [foreign_keys], nothing in a manager method raises
    the [ValueError] of that check. *)
Definition not_InvalidArgument (e : Py.exn) : Prop := e ≠ InvalidArgument.

Definition keeps_wf : relation world := λ w w', wf w → wf w'.

Definition queue_grows : relation world := λ w w',
  tasks (ray w) `prefix_of` tasks (ray w').

(** The store holds, for [key], a local edge set that includes [ks]. *)
Definition covers_local (G : Store.Graph) (key : value) (ks : gset value) : Prop :=
  ∃ S, Store.local_edges G !! key = Some S ∧ ks ⊆ S.

(** The store holds, for [key], a foreign edge map whose bucket for graph
    [g] includes [ks]. *)
Definition covers_foreign (G : Store.Graph) (key g : value) (ks : gset value)
    : Prop :=
  ∃ fm S, Store.foreign_edges G !! key = Some fm ∧ fm !! g = Some S ∧ ks ⊆ S.

Definition le_graph : relation Store.Graph := λ G G',
  (∀ key ks, covers_local G key ks → covers_local G' key ks) ∧
  (∀ key g ks, covers_foreign G key g ks → covers_foreign G' key g ks).

(** The calls that the back-edge procedures and the add-edge methods send. *)
Definition additive (m : msg) : bool :=
  match m with
  | AddLocalKeys _ _ _ | AddForeignKeys _ _ _ _ => true
  | _ => false
  end.

(** The same at the level of the world: registered names stay registered
    and every existing store only gains edges. *)
Definition mono : relation world := λ w w',
  registry w ⊆ registry w' ∧
  ∀ h G, stores w !! h = Some G →
    ∃ G', stores w' !! h = Some G' ∧ le_graph G G'.

(** A store, addressed by its handle, covers the given edges. *)
Definition store_covers_local (w : world) (h : handle) (key : value)
    (ks : gset value) : Prop :=
  ∃ G, stores w !! h = Some G ∧ covers_local G key ks.

Definition store_covers_foreign (w : world) (h : handle) (key g : value)
    (ks : gset value) : Prop :=
  ∃ G, stores w !! h = Some G ∧ covers_foreign G key g ks.

(** The body of the loop of [insert] over the graphs named in
    [foreign_keys]. *)
Definition insert_loop_body (graph_id key foreign_keys other_graph_id : value)
    : M unit :=
  (_create_if_not_exists other_graph_id ;;
   transaction_id <- get_transaction_id ;;
   other_graph <- dict_get other_graph_id ;;
   f_keys <- lift (match foreign_keys with
                   | VDict items | VOrderedDict items =>
                       Py.getitem items other_graph_id
                   | _ => inl (Py.TypeError "object is not subscriptable")
                   end) ;;
   spawn (ForeignBackEdges transaction_id other_graph key graph_id f_keys))%py.

(** [local_keys] is a bare hashable value or a collection of hashable
    values, so that [insert] can turn it into a set. *)
Definition normalizable (local_keys : value) : bool :=
  Py.hashable local_keys ||
  match Py.iter local_keys with
  | inr items => forallb Py.hashable items
  | inl _ => false
  end.

(** The graph names a mutating call refers to. *)
Definition graphs_named (c : call) : list value :=
  match c with
  | CreateGraph graph_id => [graph_id]
  | InsertRow graph_id _ _ _ foreign_keys =>
      graph_id :: match foreign_keys with VDict items => items.*1 | _ => [] end
  | DeleteRow graph_id _ => [graph_id]
  | AddLocalKeysTo graph_id _ _ => [graph_id]
  | AddForeignKeysTo graph_id _ other_graph_id _ => [graph_id; other_graph_id]
  end.

(** The method calls a task sends when it runs. *)
Definition task_calls (t : task) : list (handle * msg) :=
  match t with
  | LocalBackEdges transaction_id graph key local_keys =>
      match Py.iter local_keys with
      | inr ks => map (λ k, (graph, AddLocalKeys transaction_id k [key])) ks
      | inl _ => []
      end
  | ForeignBackEdges transaction_id graph key graph_id f_keys =>
      match Py.iter f_keys with
      | inr ks => map (λ k, (graph, AddForeignKeys transaction_id k graph_id [key])) ks
      | inl _ => []
      end
  end.

(** The method calls the queued tasks are going to send, task after task. *)
Definition pending_calls (w : world) : list (handle * msg) :=
  concat (map task_calls (tasks (ray w))).

(** A call whose edges the store already covers leaves the store as it is. *)
Definition redundant (l : list Store.Graph) (hm : handle * msg) : Prop :=
  ∀ G, l !! hm.1 = Some G → Store.handle_msg hm.2 G = G.

(** What a further identical [add_foreign_keys] call finds: the other graph
    still cannot be created, or it is registered and its store holds the
    mirrored edges once the queue has run. *)
Definition other_graph_settled (w : world) (key graph_id other_graph_id : value)
    (foreign_keys : list value) : Prop :=
  Py.hashable other_graph_id = false ∨
  (registry w !! other_graph_id = None ∧ Py.truthy other_graph_id = false) ∨
  (∃ h', Py.hashable other_graph_id = true ∧
         registry w !! other_graph_id = Some h' ∧
         ∀ k, k ∈ foreign_keys →
           store_covers_foreign (propagate w) h' k graph_id {[ key ]}).

(** Two worlds hold the same edges: the same stores, and hence the same
    local edge set and foreign edge map for every key of every graph. *)
Definition same_edges (w w' : world) : Prop :=
  stores w' = stores w ∧
  ∀ g k, LocalEdgeSet w' g k = LocalEdgeSet w g k ∧
         ForeignEdgeMap w' g k = ForeignEdgeMap w g k.

(** The registry names the actors one to one: every handle in it refers to
    an actor, no two names share a handle, every actor is registered, and
    there are as many names as actors. *)
Definition registry_bijective (w : world) : Prop :=
  wf w ∧
  (∀ g1 g2 h, registry w !! g1 = Some h → registry w !! g2 = Some h → g1 = g2) ∧
  (∀ h, (h < length (stores w))%nat → ∃ g, registry w !! g = Some h) ∧
  size (registry w) = length (stores w).

Definition keeps_bijective : relation world :=
  λ w w', registry_bijective w → registry_bijective w'.

(** What a read leaves alone: the fields of the manager, the task queue,
    the printed warnings and the number of actors. *)
Definition read_only (w w' : world) : Prop :=
  self w' = self w ∧ tasks (ray w') = tasks (ray w) ∧
  stdout (ray w') = stdout (ray w) ∧ length (stores w') = length (stores w).

(** The [try: set([local_keys])  except TypeError: set(local_keys)] of
    [insert] as a function of its argument: a hashable value is wrapped
    into a singleton, anything else is iterated and its elements collected,
    and that fails when the value is not iterable or holds an unhashable
    element. *)
Definition normalize (local_keys : value) : Py.exn + list value :=
  if Py.hashable local_keys then inr [local_keys]
  else match Py.iter local_keys with
       | inr items => Py.set_of items
       | inl e => inl e
       end.

(** The actor a task sends its calls to. *)
Definition task_graph (t : task) : handle :=
  match t with
  | LocalBackEdges _ graph _ _ => graph
  | ForeignBackEdges _ graph _ _ _ => graph
  end.

(** Between two worlds, only the stores registered under one of [names]
    may have changed, and the tasks queued since are addressed to such
    stores only. *)
Definition confined (names : list value) : relation world := λ w w',
  registry w ⊆ registry w' ∧
  (∀ h G, (∀ g, g ∈ names → registry w' !! g ≠ Some h) →
     stores w !! h = Some G → stores w' !! h = Some G) ∧
  (∀ t, t ∈ tasks (ray w') →
     t ∈ tasks (ray w) ∨
     ∃ g, g ∈ names ∧ registry w' !! g = Some (task_graph t)).

(** Every queued task is addressed to the store of one of [names]. *)
Definition addressed (names : list value) (w : world) : Prop :=
  ∀ t, t ∈ tasks (ray w) →
    ∃ g, g ∈ names ∧ registry w !! g = Some (task_graph t).

(** The graph names the calls of a run refer to. *)
Definition names_of (es : list event) : list value :=
  concat (map (λ e, match e with
                    | Call c => graphs_named c
                    | RunTasks => []
                    end) es).

(** The transaction id a call to a store carries; the presence check
    carries none. *)
Definition msg_transaction_id (m : msg) : option Z :=
  match m with
  | Insert _ _ _ _ t | Delete _ t | AddLocalKeys t _ _
  | AddForeignKeys t _ _ _ | SelectRow t _ | SelectLocalKeys t _
  | SelectForeignKeys t _ => Some t
  | RowExists _ => None
  end.

(** The transaction id a task was launched with. *)
Definition task_transaction_id (k : task) : Z :=
  match k with
  | LocalBackEdges t _ _ _ => t
  | ForeignBackEdges t _ _ _ _ => t
  end.

(** The transaction ids the stores were created under, in the order of
    creation. *)
Definition creation_stamps (w : world) : list Z :=
  map Store.creation_transaction_id (stores w).

(** While the counter stays at [t], every call sent, every task queued and
    every store created carries [t]. *)
Definition stamps_with (t : Z) : relation world := λ w w',
  transaction_id w = t →
  transaction_id w' = t ∧
  ∃ ms ts n,
    sent (ray w') = (sent (ray w) ++ ms)%list ∧
    tasks (ray w') = (tasks (ray w) ++ ts)%list ∧
    creation_stamps w' = (creation_stamps w ++ replicate n t)%list ∧
    Forall (λ hm, msg_transaction_id hm.2 = Some t) ms ∧
    Forall (λ k, task_transaction_id k = t) ts.

(** No transaction id in the log of the calls sent, in the task queue or
    on a store is ahead of the counter. *)
Definition no_future_id (w : world) : Prop :=
  Forall (λ hm, ∀ t, msg_transaction_id hm.2 = Some t →
                     (t ≤ transaction_id w)%Z) (sent (ray w)) ∧
  Forall (λ k, (task_transaction_id k ≤ transaction_id w)%Z) (tasks (ray w)) ∧
  Forall (λ t, (t ≤ transaction_id w)%Z) (creation_stamps w).

(** The warnings printed between two worlds account for the graphs that
    entered the registry: a name is new in the registry exactly when its
    warning was printed and the name is neither empty nor absent. *)
Definition announced : relation world := λ w w',
  registry w ⊆ registry w' ∧
  ∃ out, stdout (ray w') = (stdout (ray w) ++ out)%list ∧
    ∀ g, registry w !! g = None ∧ is_Some (registry w' !! g)
         ↔ g ∈ out ∧ Py.truthy g = true.

(** * Properties *)

#[export] Instance wf_dec (w : world) : Decision (wf w).
Proof. unfold wf. apply _. Defined.

(** ** Reasoning about computations *)

Lemma bind_inr {A B} (m : M A) (k : A → M B) w y w'' :
  bind m k w = (inr y, w'') →
  ∃ x w', m w = (inr x, w') ∧ k x w' = (inr y, w'').
Proof.
  unfold bind. destruct (m w) as [[e|x] w'] eqn:E; [done|]. eauto.
Qed.

Lemma bind_eq {A B} (m : M A) (k : A → M B) w x w' :
  m w = (inr x, w') → bind m k w = k x w'.
Proof. unfold bind. by intros ->. Qed.

Lemma for_each_remote {A} (l : list A) (graph : handle) (f : A → msg) w :
  for_each l (λ x, remote graph (f x)) w
  = (inr tt, deliver (map (λ x, (graph, f x)) l) w).
Proof.
  revert w. induction l as [|x l IH]; intros w; simpl.
  - unfold ret, deliver. simpl. rewrite app_nil_r. by destruct w as [? []].
  - unfold bind at 1. simpl. rewrite IH. unfold deliver. simpl.
    by rewrite <- app_assoc.
Qed.

(** ** The registry: [create_graph] and [_create_if_not_exists] *)

Lemma truthy_not_empty_string (v : value) :
  Py.truthy v = true → bool_decide (v = VStr "") = false.
Proof. intros H. apply bool_decide_eq_false. by intros ->. Qed.

Lemma create_graph_no_transaction (graph_id : value) (w : world) :
  create_graph graph_id false w =
    if negb (Py.truthy graph_id) then (inl InvalidName, w)
    else if negb (Py.hashable graph_id) then (inl (Py.TypeError "unhashable type"), w)
    else if bool_decide (is_Some (registry w !! graph_id)) then (inl DuplicateName, w)
    else (inr tt, with_new_graph graph_id w).
Proof.
  unfold create_graph, bind, ret, raise_if, raise, dict_contains, dict_set,
    get_transaction_id, Graph_remote, with_new_graph, registry, stores,
    transaction_id.
  destruct (Py.truthy graph_id) eqn:Ht; simpl; [|done].
  rewrite (truthy_not_empty_string _ Ht). simpl.
  destruct (Py.hashable graph_id) eqn:Hh; simpl; [|done].
  destruct (bool_decide _) eqn:Hp; simpl; [done|].
  done.
Qed.

Lemma create_graph_new_transaction (graph_id : value) (w : world) :
  create_graph graph_id true w = create_graph graph_id false (after incr_transaction_id w).
Proof. reflexivity. Qed.

Lemma create_if_not_exists_run (graph_id : value) (w : world) :
  _create_if_not_exists graph_id w =
    if negb (Py.hashable graph_id) then (inl (Py.TypeError "unhashable type"), w)
    else if bool_decide (is_Some (registry w !! graph_id)) then (inr tt, w)
    else if negb (Py.truthy graph_id)
         then (inl InvalidName, after (print_warning graph_id) w)
         else (inr tt, with_new_graph graph_id (after (print_warning graph_id) w)).
Proof.
  unfold _create_if_not_exists, bind at 1, dict_contains. fold (registry w).
  destruct (Py.hashable graph_id) eqn:Hh; simpl; [|done].
  destruct (bool_decide _) eqn:Hp; simpl; [done|].
  unfold bind. simpl. fold (after (print_warning graph_id) w).
  rewrite create_graph_no_transaction. rewrite Hh. simpl.
  unfold registry, after. simpl. fold (registry w). by rewrite Hp.
Qed.

(** ** Relations a computation maintains between the worlds before and after *)

Section Preserves.
Context (R : relation world) `{!PreOrder R}.

Lemma preserves_ret {A} (x : A) : preserves R (ret x).
Proof. intros w. unfold after. simpl. reflexivity. Qed.

Lemma preserves_raise {A} (e : Py.exn) : preserves R (@raise A e).
Proof. intros w. unfold after. simpl. reflexivity. Qed.

Lemma preserves_lift {A} (r : Py.exn + A) : preserves R (lift r).
Proof. intros w. unfold after. simpl. reflexivity. Qed.

Lemma preserves_raise_if (c : bool) (e : Py.exn) : preserves R (raise_if c e).
Proof. destruct c; [apply preserves_raise | apply preserves_ret]. Qed.

Lemma preserves_get_transaction_id : preserves R get_transaction_id.
Proof. intros w. unfold after. simpl. reflexivity. Qed.

Lemma preserves_dict_contains (graph_id : value) :
  preserves R (dict_contains graph_id).
Proof.
  intros w. unfold after, dict_contains.
  destruct (Py.hashable graph_id); simpl; reflexivity.
Qed.

Lemma preserves_dict_get (graph_id : value) : preserves R (dict_get graph_id).
Proof.
  intros w. unfold after, dict_get.
  destruct (Py.hashable graph_id); [|simpl; reflexivity].
  destruct (graph_dict (self w) !! graph_id); simpl; reflexivity.
Qed.

Lemma preserves_bind {A B} (m : M A) (k : A → M B) :
  preserves R m → (∀ x, preserves R (k x)) → preserves R (bind m k).
Proof.
  intros Hm Hk w. unfold after, bind.
  specialize (Hm w). unfold after in Hm.
  destruct (m w) as [[e|x] w']; simpl in *; [done|].
  etransitivity; [exact Hm|]. apply Hk.
Qed.

Lemma preserves_try_except_TypeError {A} (m h : M A) :
  preserves R m → preserves R h → preserves R (try_except_TypeError m h).
Proof.
  intros Hm Hh w. unfold after, try_except_TypeError.
  specialize (Hm w). unfold after in Hm.
  destruct (m w) as [[[]|x] w']; simpl in *; try done.
  etransitivity; [exact Hm|]. apply Hh.
Qed.

Lemma preserves_for_each {A} (l : list A) (body : A → M unit) :
  (∀ x, preserves R (body x)) → preserves R (for_each l body).
Proof.
  intros Hbody. induction l as [|x l IH]; simpl.
  - apply preserves_ret.
  - apply preserves_bind; [apply Hbody | intros _; apply IH].
Qed.
End Preserves.

Create HintDb preserves.
#[export] Hint Resolve preserves_ret preserves_raise preserves_lift
  preserves_raise_if preserves_get_transaction_id preserves_dict_contains
  preserves_dict_get preserves_try_except_TypeError : preserves.

(** Solves [preserves R m] for a computation built from binds, loops and
    operations with a lemma in the hint database. *)
Ltac preserves_tac :=
  repeat first
    [ solve [eauto with preserves typeclass_instances]
    | apply preserves_bind; [try apply _ | | intros ?]
    | apply preserves_for_each; [try apply _ | intros ?]
    | apply preserves_try_except_TypeError; [try apply _ | | ]
    | match goal with |- preserves _ (if ?c then _ else _) => destruct c end
    | match goal with |- preserves _ (match ?c with _ => _ end) => destruct c end ].

Section Stable.
Context (R : relation world) `{!Stable R}.

Lemma stable_spawn' t : preserves R (spawn t).
Proof. intros w. apply stable_spawn. Qed.

Lemma stable_create_graph g : preserves R (create_graph g false).
Proof.
  intros w. unfold after. rewrite create_graph_no_transaction.
  destruct (Py.truthy g); simpl; [|reflexivity].
  destruct (Py.hashable g) eqn:Hh; simpl; [|reflexivity].
  destruct (bool_decide _) eqn:Hp; simpl; [reflexivity|].
  apply stable_new_graph; [done|].
  apply bool_decide_eq_false in Hp. by apply eq_None_not_Some.
Qed.

Lemma stable_create_if_not_exists g : preserves R (_create_if_not_exists g).
Proof.
  unfold _create_if_not_exists.
  apply preserves_bind; [apply _ | apply preserves_dict_contains, _ |].
  intros [|]; [apply preserves_ret, _|].
  apply preserves_bind; [apply _ | | intros _; apply stable_create_graph].
  intros w. apply stable_print_warning.
Qed.
End Stable.

#[export] Hint Resolve stable_spawn' stable_create_graph
  stable_create_if_not_exists : preserves.

(** ** The transaction counter *)

#[export] Instance same_tid_preorder : PreOrder same_tid.
Proof.
  split; [by intros w | intros w1 w2 w3 H12 H23].
  unfold same_tid in *. congruence.
Qed.

#[export] Instance same_tid_stable : Stable same_tid.
Proof. by split; [apply _|..]. Qed.

Lemma same_tid_remote h m : preserves same_tid (remote h m).
Proof. by intros w. Qed.

#[export] Hint Resolve same_tid_remote : preserves.

Lemma same_tid_back_edges_local t h k ks :
  preserves same_tid (_add_local_key_back_edges t h k ks).
Proof. unfold _add_local_key_back_edges. preserves_tac. Qed.

Lemma same_tid_back_edges_foreign t h k g ks :
  preserves same_tid (_add_foreign_key_back_edges t h k g ks).
Proof. unfold _add_foreign_key_back_edges. preserves_tac. Qed.

(** Every mutating call is the increment followed by a computation that
    maintains any relation the shared helpers and the method calls on actors
    maintain. *)
Lemma run_call_split (R : relation world) `{!Stable R} (c : call) :
  (∀ h m, preserves R (remote h m)) →
  ∃ rest : M unit,
    run_call c = (incr_transaction_id ;; rest)%py ∧ preserves R rest.
Proof.
  intros Hremote. destruct c; simpl.
  - exists (create_graph graph_id false). split; [reflexivity|]. preserves_tac.
  - eexists. split; [reflexivity|]. preserves_tac.
  - eexists. split; [reflexivity|]. preserves_tac.
  - eexists. split; [reflexivity|]. preserves_tac.
  - eexists. split; [reflexivity|]. preserves_tac.
Qed.

Lemma incr_then {A} (m : M A) (w : world) :
  preserves same_tid m →
  transaction_id (after (incr_transaction_id ;; m) w) = transaction_id w + 1.
Proof.
  intros Hm. unfold after, bind. simpl.
  specialize (Hm (after incr_transaction_id w)). unfold same_tid in Hm.
  unfold after in Hm. simpl in Hm. by rewrite Hm.
Qed.

Lemma transaction_id_run_call (c : call) (w : world) :
  transaction_id (after (run_call c) w) = transaction_id w + 1.
Proof.
  destruct (run_call_split same_tid c same_tid_remote) as (rest & -> & Hrest).
  by apply incr_then.
Qed.

Lemma transaction_id_run_task (t : task) (w : world) :
  transaction_id (run_task t w) = transaction_id w.
Proof.
  destruct t; simpl.
  - apply (same_tid_back_edges_local _ _ _ _ w).
  - apply (same_tid_back_edges_foreign _ _ _ _ _ w).
Qed.

Lemma transaction_id_propagate (w : world) :
  transaction_id (propagate w) = transaction_id w.
Proof.
  unfold propagate.
  change (transaction_id w) with (transaction_id (clear_tasks w)).
  generalize (clear_tasks w). induction (tasks (ray w)) as [|t ts IH]; intros w0.
  - done.
  - simpl. rewrite IH. apply transaction_id_run_task.
Qed.

Lemma transaction_id_run_events (es : list event) (w : world) :
  transaction_id (run_events es w)
  = transaction_id w + Z.of_nat (length (filter is_call es)).
Proof.
  revert w. induction es as [|e es IH]; intros w.
  - simpl. lia.
  - change (run_events (e :: es) w) with (run_events es (run_event e w)).
    rewrite IH. destruct e.
    + rewrite filter_cons_True by done. simpl run_event.
      rewrite transaction_id_run_call, length_cons. lia.
    + rewrite filter_cons_False by (by intros ?). simpl run_event.
      rewrite transaction_id_propagate. lia.
Qed.

Lemma stamped_same_stores (w w' : world) :
  transaction_id w' = transaction_id w → registry w' = registry w →
  stores w' = stores w → stamped w w'.
Proof.
  intros Ht Hr Hs. unfold stamped. rewrite Ht, Hr, Hs.
  split; [done|]. split; [done|]. split; [eauto|congruence].
Qed.

#[export] Instance stamped_preorder : PreOrder stamped.
Proof.
  split.
  - intros w. by apply stamped_same_stores.
  - intros w1 w2 w3 (Ht12 & Hr12 & Hs12 & Hn12) (Ht23 & Hr23 & Hs23 & Hn23).
    split; [congruence|]. split; [by etransitivity|]. split.
    + intros h G HG. destruct (Hs12 h G HG) as (G' & HG' & E').
      destruct (Hs23 h G' HG') as (G'' & HG'' & E''). exists G''.
      split; [done|congruence].
    + intros g h Hg1 Hg3. destruct (registry w2 !! g) as [h'|] eqn:Hg2.
      * assert (h' = h) as ->.
        { eapply lookup_weaken in Hg2; [|exact Hr23]. congruence. }
        destruct (Hn12 g h Hg1 Hg2) as (Hnone & G & HG & E).
        split; [done|]. destruct (Hs23 h G HG) as (G' & HG' & E').
        exists G'. split; [done|congruence].
      * destruct (Hn23 g h Hg2 Hg3) as (Hnone & G & HG & E).
        split; [|exists G; split; [done|congruence]].
        destruct (stores w1 !! h) as [G1|] eqn:H1; [|done].
        destruct (Hs12 h G1 H1) as (G' & HG' & _). congruence.
Qed.

#[export] Instance stamped_stable : Stable stamped.
Proof.
  split; [apply _|..].
  - intros g w Hh Hg. unfold stamped, with_new_graph, registry, stores,
      transaction_id. simpl. fold (registry w) (stores w) (transaction_id w).
    split; [done|]. split; [by apply insert_subseteq|]. split.
    + intros h G HG. exists G. split; [|done].
      apply lookup_app_l_Some. done.
    + intros g' h Hg' Hg''. destruct (decide (g = g')) as [->|Hne].
      * rewrite lookup_insert_eq in Hg''. injection Hg'' as <-. split.
        { by apply lookup_ge_None. }
        exists (Store.new (transaction_id w)). split; [|done].
        rewrite lookup_app_r by done. by rewrite Nat.sub_diag.
      * rewrite lookup_insert_ne in Hg'' by done. congruence.
  - intros t w. by apply stamped_same_stores.
  - intros g w. by apply stamped_same_stores.
Qed.

Lemma creation_transaction_id_handle_msg (m : msg) (G : Store.Graph) :
  Store.creation_transaction_id (Store.handle_msg m G)
  = Store.creation_transaction_id G.
Proof. by destruct m. Qed.

Lemma stamped_remote h m : preserves stamped (remote h m).
Proof.
  intros w. unfold stamped, after, remote, registry, stores, transaction_id.
  simpl. split; [done|]. split; [done|]. split.
  - intros h' G HG. destruct (decide (h = h')) as [->|Hne].
    + exists (Store.handle_msg m G). rewrite list_lookup_alter_eq, HG.
      split; [done|]. apply creation_transaction_id_handle_msg.
    + exists G. by rewrite list_lookup_alter_ne.
  - congruence.
Qed.

Lemma stamped_run_call (c : call) (w : world) (g : value) (h : handle) :
  registry w !! g = None →
  registry (after (run_call c) w) !! g = Some h →
  ∃ G, stores (after (run_call c) w) !! h = Some G ∧
       Store.creation_transaction_id G = transaction_id w + 1.
Proof.
  destruct (run_call_split stamped c stamped_remote) as (rest & -> & Hrest).
  intros Hg Hg'. specialize (Hrest (after incr_transaction_id w)).
  destruct Hrest as (_ & _ & _ & Hnew).
  destruct (Hnew g h Hg Hg') as (_ & G & HG & E). by exists G.
Qed.

(** ** Which exceptions a computation can raise *)

Section RaisesOnly.
Context (P : Py.exn → Prop).

Lemma raises_only_bind {A B} (m : M A) (k : A → M B) :
  raises_only P m → (∀ x, raises_only P (k x)) → raises_only P (bind m k).
Proof.
  intros Hm Hk w e. unfold outcome, bind.
  specialize (Hm w). unfold outcome in Hm.
  destruct (m w) as [[e'|x] w'] eqn:E; simpl in *.
  - intros [= <-]. by apply Hm.
  - apply Hk.
Qed.

Lemma raises_only_for_each {A} (l : list A) (body : A → M unit) :
  (∀ x, raises_only P (body x)) → raises_only P (for_each l body).
Proof.
  intros Hbody. induction l as [|x l IH]; simpl.
  - by intros w e.
  - apply raises_only_bind; [apply Hbody | intros _; apply IH].
Qed.

Lemma raises_only_try_except_TypeError {A} (m h : M A) :
  (∀ w e, outcome m w = inl e → (∃ s, e = Py.TypeError s) ∨ P e) →
  raises_only P h →
  raises_only P (try_except_TypeError m h).
Proof.
  intros Hm Hh w e. unfold outcome, try_except_TypeError.
  specialize (Hm w). unfold outcome in Hm.
  destruct (m w) as [[e'|x] w'] eqn:E; simpl in *; [|done].
  destruct (Hm e' eq_refl) as [[s ->]|HP].
  - apply Hh.
  - destruct e'; simpl; try (by intros [= <-]). apply Hh.
Qed.
End RaisesOnly.

(** Solves [raises_only P m] by walking through the binds and loops of [m]
    and computing the outcome of each operation. *)
Ltac raises_tac :=
  repeat first
    [ apply raises_only_bind; [|intros ?]
    | apply raises_only_for_each; intros ?
    | apply raises_only_try_except_TypeError
    | match goal with |- raises_only _ (if ?c then _ else _) => destruct c end
    | match goal with
      | |- raises_only _ _ =>
          let w := fresh "w" in let e := fresh "e" in
          intros w e;
          unfold outcome, ret, raise, raise_if, lift, get_transaction_id,
            incr_transaction_id, dict_contains, dict_get, dict_set,
            Graph_remote, remote, spawn, print_warning, actor_state,
            Py.set_of, Py.iter;
          repeat case_match; simpl; intros [= <-]; subst;
          solve [done | eauto]
      end ].

Lemma getitem_raises (items : list (value * value)) (k : value) (e : Py.exn) :
  Py.getitem items k = inl e → e = Py.KeyError k.
Proof.
  induction items as [|[k' x] items IH]; simpl; [by intros [= <-]|].
  by case_bool_decide.
Qed.

Lemma getitem_elem_of (items : list (value * value)) (k : value) :
  k ∈ items.*1 → ∃ x, Py.getitem items k = inr x.
Proof.
  induction items as [|[k' x] items IH]; simpl.
  - by intros ?%elem_of_nil.
  - intros [->|Hin]%elem_of_cons; case_bool_decide; eauto; done.
Qed.

Lemma insert_raises (graph_id key node local_keys foreign_keys : value) :
  Py.is_dict foreign_keys = true →
  raises_only not_InvalidArgument
    (insert graph_id key node local_keys foreign_keys).
Proof.
  intros Hd. unfold insert. rewrite Hd. simpl negb.
  unfold not_InvalidArgument. raises_tac.
  - intros w e. unfold outcome, lift, Py.set_of. simpl.
    case_match; intros [= <-]. left. eauto.
  - intros w e. unfold outcome, lift. simpl.
    destruct foreign_keys; try (by intros [= <-]);
      by intros ->%getitem_raises.
Qed.

(** ** Validation errors *)

Lemma create_graph_failure (g : value) (w : world) (e : Py.exn) :
  outcome (create_graph g true) w = inl e →
  after (create_graph g true) w = after incr_transaction_id w.
Proof.
  unfold outcome, after at 1. rewrite create_graph_new_transaction.
  rewrite create_graph_no_transaction.
  by repeat case_match.
Qed.

Lemma insert_not_dict (graph_id key node local_keys foreign_keys : value) w :
  Py.is_dict foreign_keys = false →
  insert graph_id key node local_keys foreign_keys w
  = (inl InvalidArgument, after incr_transaction_id w).
Proof. intros Hd. unfold insert, bind. simpl. by rewrite Hd. Qed.

(** C6: [create_graph(name)] fails with [InvalidName] when the name is empty
    or absent, fails with [DuplicateName] when the name already maps to a
    store, and otherwise registers a new store under the name, so that a
    second call with the same name fails with [DuplicateName]. *)
Theorem create_graph_outcomes (graph_id : value) (w : world) :
  (graph_id = VStr "" ∨ graph_id = VNone →
     outcome (create_graph graph_id true) w = inl InvalidName) ∧
  (valid_name graph_id = true → is_Some (registry w !! graph_id) →
     outcome (create_graph graph_id true) w = inl DuplicateName) ∧
  (valid_name graph_id = true → registry w !! graph_id = None →
     let w' := after (create_graph graph_id true) w in
     outcome (create_graph graph_id true) w = inr tt ∧
     registry w' = <[ graph_id := length (stores w) ]> (registry w) ∧
     stores w' = (stores w ++ [Store.new (transaction_id w + 1)])%list ∧
     outcome (create_graph graph_id true) w' = inl DuplicateName).
Proof.
  unfold valid_name, outcome, after.
  rewrite !create_graph_new_transaction, !create_graph_no_transaction.
  split; [|split].
  - by intros [-> | ->].
  - intros [Hh Ht]%andb_true_iff Hin. rewrite Ht, Hh. simpl.
    change (registry (after incr_transaction_id w)) with (registry w).
    by rewrite bool_decide_eq_true_2.
  - intros [Hh Ht]%andb_true_iff Hnone. rewrite Ht, Hh. simpl.
    change (registry (after incr_transaction_id w)) with (registry w).
    rewrite bool_decide_eq_false_2 by (rewrite Hnone; by intros [? ?]).
    simpl. split; [done|]. split; [done|]. split; [done|].
    rewrite bool_decide_eq_true_2; [done|].
    unfold registry, after, with_new_graph. simpl.
    rewrite lookup_insert_eq. by eexists.
Qed.

Lemma create_graph_outcomes_witness :
  outcome (create_graph (VStr "") true) init = inl InvalidName ∧
  outcome (create_graph (VStr "X") true) (after (create_graph (VStr "X") true) init)
    = inl DuplicateName ∧
  outcome (create_graph (VStr "X") true) init = inr tt.
Proof.
  split; [|split].
  - apply (proj1 (create_graph_outcomes (VStr "") init)). by left.
  - apply (proj1 (proj2 (create_graph_outcomes (VStr "X")
             (after (create_graph (VStr "X") true) init)))).
    + reflexivity.
    + vm_compute. by eexists.
  - apply (proj2 (proj2 (create_graph_outcomes (VStr "X") init)));
      reflexivity.
Defined.

(** C7 as stated does not hold: an [OrderedDict] is a mapping, and [insert]
    raises [InvalidArgument] for it, since the check is on the exact type. *)
Lemma insert_rejects_mapping_that_is_not_dict :
  ¬ (∀ (graph_id key node local_keys foreign_keys : value) (w : world),
       outcome (insert graph_id key node local_keys foreign_keys) w
         = inl InvalidArgument
       ↔ Py.is_mapping foreign_keys = false).
Proof.
  intros H.
  destruct (H (VStr "G") (VStr "K") (VStr "V") (VSet [])
              (VOrderedDict [(VStr "H", VStr "FK")]) init) as [Hto _].
  by specialize (Hto eq_refl).
Qed.

(** C7, amended: [insert] raises [InvalidArgument] exactly when the type of
    [foreign_keys] is not [dict] itself (a mapping of another type is
    rejected as well), and then no store has been touched: the registry,
    the actors, the task queue and the log of sent calls are as before. *)
Theorem insert_invalid_argument
    (graph_id key node local_keys foreign_keys : value) (w : world) :
  (outcome (insert graph_id key node local_keys foreign_keys) w
     = inl InvalidArgument
   ↔ Py.is_dict foreign_keys = false) ∧
  (Py.is_dict foreign_keys = false →
     registry (after (insert graph_id key node local_keys foreign_keys) w)
       = registry w ∧
     ray (after (insert graph_id key node local_keys foreign_keys) w) = ray w).
Proof.
  split; [split|].
  - intros Hout. destruct (Py.is_dict foreign_keys) eqn:Hd; [|done].
    by destruct (insert_raises graph_id key node local_keys foreign_keys
                   Hd w _ Hout).
  - intros Hd. unfold outcome. by rewrite insert_not_dict.
  - intros Hd. unfold after at 1 2. by rewrite insert_not_dict.
Qed.

Lemma insert_invalid_argument_witness :
  outcome (insert (VStr "G") (VStr "Key") (VStr "Value") (VSet [])
             (VStr "Bad input")) init = inl InvalidArgument ∧
  registry (after (insert (VStr "G") (VStr "Key") (VStr "Value") (VSet [])
                     (VStr "Bad input")) init) = registry init.
Proof.
  split.
  - apply (proj1 (insert_invalid_argument (VStr "G") (VStr "Key") (VStr "Value")
             (VSet []) (VStr "Bad input") init)). reflexivity.
  - apply (proj2 (insert_invalid_argument (VStr "G") (VStr "Key") (VStr "Value")
             (VSet []) (VStr "Bad input") init)). reflexivity.
Defined.

(** C8: [node_exists] returns [False] when the graph name is not in the
    registry, and leaves the whole world as it was: no graph is created and
    no store receives a call. *)
Theorem node_exists_unknown_graph (graph_id key : value) (w : world) :
  Py.hashable graph_id = true →
  registry w !! graph_id = None →
  node_exists graph_id key w = (inr PyFalse, w).
Proof.
  intros Hh Hnone. unfold node_exists, bind, dict_contains.
  fold (registry w). rewrite Hh, Hnone.
  rewrite bool_decide_eq_false_2 by (by intros [? ?]). done.
Qed.

Lemma node_exists_unknown_graph_witness :
  node_exists (VStr "Unknown") (VStr "Key") (after (create_graph (VStr "G") true) init)
  = (inr PyFalse, after (create_graph (VStr "G") true) init).
Proof.
  apply (node_exists_unknown_graph (VStr "Unknown") (VStr "Key")
           (after (create_graph (VStr "G") true) init)); reflexivity.
Defined.

(** C10: a [create_graph] that fails with [InvalidName] or [DuplicateName]
    and an [insert] that fails with [InvalidArgument] have still advanced
    the transaction id by one, and have left the registry unchanged. *)
Theorem failed_calls_advance_counter (w : world) :
  (∀ graph_id e,
     outcome (create_graph graph_id true) w = inl e →
     e = InvalidName ∨ e = DuplicateName →
     transaction_id (after (create_graph graph_id true) w) = transaction_id w + 1 ∧
     registry (after (create_graph graph_id true) w) = registry w) ∧
  (∀ graph_id key node local_keys foreign_keys,
     outcome (insert graph_id key node local_keys foreign_keys) w
       = inl InvalidArgument →
     transaction_id (after (insert graph_id key node local_keys foreign_keys) w)
       = transaction_id w + 1 ∧
     registry (after (insert graph_id key node local_keys foreign_keys) w)
       = registry w).
Proof.
  split.
  - intros g e Hout _. by rewrite (create_graph_failure g w e Hout).
  - intros g k n lk fk Hout.
    destruct (Py.is_dict fk) eqn:Hd.
    + by destruct (insert_raises g k n lk fk Hd w _ Hout).
    + unfold after at 1 2. by rewrite insert_not_dict.
Qed.

Lemma failed_calls_advance_counter_witness :
  (transaction_id (after (create_graph (VStr "") true) init) = 1 ∧
   registry (after (create_graph (VStr "") true) init) = registry init) ∧
  (transaction_id (after (insert (VStr "G") (VStr "Key") (VStr "Value")
                            (VSet []) (VStr "Bad input")) init) = 1 ∧
   registry (after (insert (VStr "G") (VStr "Key") (VStr "Value")
                      (VSet []) (VStr "Bad input")) init) = registry init).
Proof.
  split.
  - apply (proj1 (failed_calls_advance_counter init) (VStr "") InvalidName).
    + reflexivity.
    + by left.
  - apply (proj2 (failed_calls_advance_counter init) (VStr "G") (VStr "Key")
             (VStr "Value") (VSet []) (VStr "Bad input")).
    reflexivity.
Defined.

(** C4: every manager-level mutating call advances the transaction id by
    exactly one, whatever its outcome; a graph that enters the registry
    during the call is stamped with the transaction id of that call; and
    over any sequence of calls and task runs the transaction id never
    decreases, growing by the number of calls made. *)
Theorem transaction_id_monotone (c : call) (w : world) :
  transaction_id (after (run_call c) w) = transaction_id w + 1 ∧
  (∀ g h, registry w !! g = None → registry (after (run_call c) w) !! g = Some h →
     ∃ G, stores (after (run_call c) w) !! h = Some G ∧
          Store.creation_transaction_id G = transaction_id (after (run_call c) w)) ∧
  (∀ es, transaction_id (run_events es w)
         = transaction_id w + Z.of_nat (length (filter is_call es))) ∧
  (∀ es es', (transaction_id (run_events es w)
              ≤ transaction_id (run_events (es ++ es')%list w))%Z).
Proof.
  split; [apply transaction_id_run_call|]. split; [|split].
  - intros g h Hg Hg'. rewrite transaction_id_run_call.
    by apply stamped_run_call with g.
  - intros es. apply transaction_id_run_events.
  - intros es es'. rewrite !transaction_id_run_events, list.filter_app, length_app.
    lia.
Qed.

Lemma transaction_id_monotone_witness :
  ∃ G, stores (after (run_call (InsertRow (VStr "G") (VStr "K3") (VStr "V3")
                                 (VSet []) (VDict [(VStr "H", VStr "FK")])))
                 init) !! 1%nat = Some G ∧
       Store.creation_transaction_id G = 1.
Proof.
  apply (proj1 (proj2 (transaction_id_monotone
           (InsertRow (VStr "G") (VStr "K3") (VStr "V3") (VSet [])
              (VDict [(VStr "H", VStr "FK")])) init)) (VStr "H") 1%nat);
    reflexivity.
Defined.

(** ** The back-edge procedures *)

Lemma back_edges_local_run transaction_id graph key collection ks w :
  Py.iter collection = inr ks →
  _add_local_key_back_edges transaction_id graph key collection w
  = (inr tt, deliver (map (λ k, (graph, AddLocalKeys transaction_id k [key])) ks) w).
Proof.
  intros Hit. unfold _add_local_key_back_edges, bind at 1, lift. rewrite Hit.
  apply for_each_remote.
Qed.

Lemma back_edges_foreign_run transaction_id graph key graph_id collection ks w :
  Py.iter collection = inr ks →
  _add_foreign_key_back_edges transaction_id graph key graph_id collection w
  = (inr tt,
     deliver (map (λ k, (graph, AddForeignKeys transaction_id k graph_id [key])) ks) w).
Proof.
  intros Hit. unfold _add_foreign_key_back_edges, bind at 1, lift. rewrite Hit.
  apply for_each_remote.
Qed.

Lemma dict_get_Some (g : value) (h : handle) (w : world) :
  Py.hashable g = true → registry w !! g = Some h → dict_get g w = (inr h, w).
Proof. intros Hh Hg. unfold dict_get, registry in *. by rewrite Hh, Hg. Qed.

Lemma add_local_keys_run graph_id key local_keys graph w :
  Py.hashable graph_id = true →
  registry w !! graph_id = Some graph →
  add_local_keys graph_id key local_keys w
  = (inr tt,
     after (spawn (LocalBackEdges (transaction_id w + 1) graph key (VTuple local_keys)))
       (after (remote graph (AddLocalKeys (transaction_id w + 1) key local_keys))
          (after incr_transaction_id w))).
Proof.
  intros Hh Hg. unfold add_local_keys, bind, dict_get, registry in *.
  rewrite Hh. simpl. rewrite Hg. simpl. by rewrite Hg.
Qed.

Lemma add_foreign_keys_run graph_id key other_graph_id foreign_keys graph w :
  Py.hashable graph_id = true →
  registry w !! graph_id = Some graph →
  add_foreign_keys graph_id key other_graph_id foreign_keys w
  = (other_graph <- (_create_if_not_exists other_graph_id ;;
                     dict_get other_graph_id) ;;
     spawn (ForeignBackEdges (transaction_id w + 1) other_graph key graph_id
              (VTuple foreign_keys)))%py
      (after (remote graph
                (AddForeignKeys (transaction_id w + 1) key other_graph_id foreign_keys))
         (after incr_transaction_id w)).
Proof.
  intros Hh Hg. unfold add_foreign_keys.
  rewrite (bind_eq _ _ w tt (after incr_transaction_id w)) by reflexivity.
  cbv beta.
  rewrite (bind_eq _ _ _ graph _
             (dict_get_Some graph_id graph (after incr_transaction_id w) Hh Hg)).
  cbv beta.
  rewrite (bind_eq _ _ _ (transaction_id w + 1) (after incr_transaction_id w))
    by reflexivity. cbv beta.
  rewrite (bind_eq _ _ _ tt
             (after (remote graph (AddForeignKeys (transaction_id w + 1) key
                                     other_graph_id foreign_keys))
                (after incr_transaction_id w))) by reflexivity. cbv beta.
  set (w1 := after (remote _ _) _). unfold bind.
  pose proof (stable_create_if_not_exists same_tid other_graph_id w1) as Ht.
  unfold same_tid, after in Ht.
  destruct (_create_if_not_exists other_graph_id w1) as [[e|[]] w2]; [done|].
  simpl in *. unfold transaction_id in Ht. rewrite Ht.
  by destruct (dict_get other_graph_id w2) as [[e|h'] w3].
Qed.

(** C5: for each key [k] of the collection it is given, the local back-edge
    procedure sends [add_local_keys(k, key)] to the store it is given, and
    the foreign one sends [add_foreign_keys(k, graph_id, key)]; the calls
    carry the transaction id passed in and the manager's counter stays as it
    is.  The manager passes the transaction id of the originating call,
    together with the store of the originating graph (local) or of the other
    graph (foreign). *)
Theorem back_edge_procedures (tid : Z) (graph : handle)
    (key graph_id collection : value) (ks : list value) (w : world) :
  Py.iter collection = inr ks →
  (let w' := run_task (LocalBackEdges tid graph key collection) w in
   w' = deliver (map (λ k, (graph, AddLocalKeys tid k [key])) ks) w ∧
   sent (ray w') = (sent (ray w) ++ map (λ k, (graph, AddLocalKeys tid k [key])) ks)%list ∧
   self w' = self w) ∧
  (let w' := run_task (ForeignBackEdges tid graph key graph_id collection) w in
   w' = deliver (map (λ k, (graph, AddForeignKeys tid k graph_id [key])) ks) w ∧
   sent (ray w') = (sent (ray w)
                    ++ map (λ k, (graph, AddForeignKeys tid k graph_id [key])) ks)%list ∧
   self w' = self w) ∧
  (∀ g other g' other' keys,
     Py.hashable g = true → registry w !! g = Some g' →
     Py.hashable other = true → registry w !! other = Some other' →
     tasks (ray (after (add_local_keys g key keys) w))
       = (tasks (ray w)
          ++ [LocalBackEdges (transaction_id w + 1) g' key (VTuple keys)])%list ∧
     tasks (ray (after (add_foreign_keys g key other keys) w))
       = (tasks (ray w)
          ++ [ForeignBackEdges (transaction_id w + 1) other' key g
                (VTuple keys)])%list).
Proof.
  intros Hit. split; [|split].
  - simpl. by rewrite (back_edges_local_run _ _ _ _ _ _ Hit).
  - simpl. by rewrite (back_edges_foreign_run _ _ _ _ _ _ _ Hit).
  - intros g other g' other' keys Hg Hg' Ho Ho'. split.
    + unfold after at 1. by rewrite (add_local_keys_run _ _ _ _ _ Hg Hg').
    + unfold after at 1. rewrite (add_foreign_keys_run _ _ _ _ _ _ Hg Hg').
      unfold bind at 1 2. rewrite create_if_not_exists_run. rewrite Ho. simpl.
      unfold registry, after. simpl. fold (registry w).
      rewrite bool_decide_eq_true_2 by (by eexists).
      unfold dict_get. simpl. fold (registry w). by rewrite Ho, Ho'.
Qed.

Lemma back_edge_procedures_witness :
  sent (ray (run_task (ForeignBackEdges 7 0%nat (VStr "K3") (VStr "G") (VStr "FK"))
               (after (create_graph (VStr "H") true) init)))
  = [(0%nat, AddForeignKeys 7 (VStr "F") (VStr "G") [VStr "K3"]);
     (0%nat, AddForeignKeys 7 (VStr "K") (VStr "G") [VStr "K3"])].
Proof.
  apply (proj1 (proj2 (back_edge_procedures 7 0%nat (VStr "K3") (VStr "G")
           (VStr "FK") [VStr "F"; VStr "K"]
           (after (create_graph (VStr "H") true) init) eq_refl))).
Defined.

(** ** Well-formed worlds *)

#[export] Instance keeps_wf_preorder : PreOrder keeps_wf.
Proof.
  split; [intros w; unfold keeps_wf; auto |].
  intros w1 w2 w3. unfold keeps_wf. auto.
Qed.

Lemma wf_with_new_graph (g : value) (w : world) : wf w → wf (with_new_graph g w).
Proof.
  intros Hwf g' h. unfold with_new_graph, registry, stores. simpl.
  fold (registry w) (stores w). rewrite length_app. simpl.
  destruct (decide (g = g')) as [->|Hne].
  - rewrite lookup_insert_eq. intros [= <-]. lia.
  - rewrite lookup_insert_ne by done. intros Hg. specialize (Hwf g' h Hg).
    simpl in Hwf. lia.
Qed.

#[export] Instance keeps_wf_stable : Stable keeps_wf.
Proof.
  split; [apply _|..].
  - intros g w _ _ Hwf. by apply wf_with_new_graph.
  - by intros t w Hwf.
  - by intros g w Hwf.
Qed.

Lemma keeps_wf_remote h m : preserves keeps_wf (remote h m).
Proof.
  intros w Hwf g h' Hg. unfold after, remote, stores. simpl.
  rewrite length_alter. by apply (Hwf g).
Qed.

Lemma keeps_wf_incr : preserves keeps_wf incr_transaction_id.
Proof. by intros w Hwf. Qed.

#[export] Hint Resolve keeps_wf_remote keeps_wf_incr : preserves.

Lemma wf_run_call (c : call) (w : world) : wf w → wf (after (run_call c) w).
Proof.
  destruct (run_call_split keeps_wf c keeps_wf_remote) as (rest & -> & Hrest).
  assert (preserves keeps_wf (incr_transaction_id ;; rest)%py) as H.
  { preserves_tac. }
  apply H.
Qed.

Lemma wf_store_of (w : world) (g : value) (h : handle) :
  wf w → registry w !! g = Some h → ∃ G, stores w !! h = Some G.
Proof. intros Hwf Hg. apply lookup_lt_is_Some_2. by apply (Hwf g). Qed.

(** ** The task queue only grows during a call *)

#[export] Instance queue_grows_preorder : PreOrder queue_grows.
Proof.
  split; [intros w; unfold queue_grows; reflexivity|].
  intros w1 w2 w3. unfold queue_grows. by etransitivity.
Qed.

#[export] Instance queue_grows_stable : Stable queue_grows.
Proof.
  split; [apply _|..].
  - intros g w _ _. unfold queue_grows. reflexivity.
  - intros t w. by apply prefix_app_r.
  - intros g w. unfold queue_grows. reflexivity.
Qed.

Lemma queue_grows_remote h m : preserves queue_grows (remote h m).
Proof. intros w. unfold queue_grows. reflexivity. Qed.

#[export] Hint Resolve queue_grows_remote : preserves.

(** ** Reading off the stages of a successful call *)

Lemma incr_inr w u w' :
  incr_transaction_id w = (inr u, w') → w' = after incr_transaction_id w.
Proof. by intros [= _ <-]. Qed.

Lemma raise_if_inr c e w u w' : raise_if c e w = (inr u, w') → c = false ∧ w' = w.
Proof. destruct c; simpl; [done|]. by intros [= _ <-]. Qed.

Lemma dict_get_inr g w h w' :
  dict_get g w = (inr h, w') →
  Py.hashable g = true ∧ registry w !! g = Some h ∧ w' = w.
Proof.
  unfold dict_get, registry. destruct (Py.hashable g); [|done].
  destruct (graph_dict (self w) !! g); [|done]. by intros [= <- <-].
Qed.

Lemma get_transaction_id_inr w t w' :
  get_transaction_id w = (inr t, w') → t = transaction_id w ∧ w' = w.
Proof. by intros [= <- <-]. Qed.

Lemma remote_inr h m w u w' : remote h m w = (inr u, w') → w' = after (remote h m) w.
Proof. by intros [= _ <-]. Qed.

Lemma spawn_inr t w u w' : spawn t w = (inr u, w') → w' = after (spawn t) w.
Proof. by intros [= _ <-]. Qed.

Lemma lift_inr {A} (r : Py.exn + A) w x w' :
  lift r w = (inr x, w') → r = inr x ∧ w' = w.
Proof. unfold lift. by intros [= -> <-]. Qed.

Lemma create_if_not_exists_inr g w u w' :
  _create_if_not_exists g w = (inr u, w') →
  Py.hashable g = true ∧ is_Some (registry w' !! g) ∧
  w' = after (_create_if_not_exists g) w.
Proof.
  intros Hrun. assert (w' = after (_create_if_not_exists g) w) as Hw'.
  { unfold after. by rewrite Hrun. }
  rewrite create_if_not_exists_run in Hrun.
  destruct (Py.hashable g); [|done]. simpl in Hrun.
  destruct (bool_decide _) eqn:Hp.
  - injection Hrun as _ <-. by apply bool_decide_eq_true in Hp.
  - destruct (Py.truthy g); [|done]. simpl in Hrun. injection Hrun as _ <-.
    split; [done|]. split; [|done].
    unfold with_new_graph, registry. simpl. rewrite lookup_insert_eq.
    by eexists.
Qed.

(** What [insert] computes from [local_keys] before launching the local
    back-edge task: a hashable argument is wrapped into a singleton. *)
Lemma normalize_hashable (v : value) (w : world) :
  Py.hashable v = true →
  try_except_TypeError (lift (Py.set_of [v]))
    (items <- lift (Py.iter v) ;; lift (Py.set_of items)) w
  = (inr [v], w).
Proof.
  intros Hh. unfold try_except_TypeError, lift, Py.set_of. simpl.
  by rewrite Hh.
Qed.

(** ** Edges only accumulate under the add-edge calls *)

#[export] Instance le_graph_preorder : PreOrder le_graph.
Proof.
  split.
  - by intros G.
  - intros G1 G2 G3 [Hl12 Hf12] [Hl23 Hf23]. split; auto.
Qed.

Lemma add_local_keys_covers key ks G :
  covers_local (Store.add_local_keys key ks G) key (list_to_set ks).
Proof.
  unfold covers_local, Store.add_local_keys. simpl.
  eexists. rewrite lookup_insert_eq. split; [done|]. set_solver.
Qed.

Lemma add_foreign_keys_covers key g ks G :
  covers_foreign (Store.add_foreign_keys key g ks G) key g (list_to_set ks).
Proof.
  unfold covers_foreign, Store.add_foreign_keys, Store.add_bucket. simpl.
  eexists _, _. rewrite !lookup_insert_eq. split; [done|]. split; [done|].
  set_solver.
Qed.

Lemma add_local_keys_le key ks G : le_graph G (Store.add_local_keys key ks G).
Proof.
  split; [|by intros key' g' ks' H].
  intros key' ks' (S & HS & Hsub). unfold covers_local, Store.add_local_keys.
  simpl. destruct (decide (key = key')) as [->|Hne].
  - rewrite lookup_insert_eq, HS. simpl. eexists. split; [done|]. set_solver.
  - rewrite lookup_insert_ne by done. eauto.
Qed.

Lemma add_foreign_keys_le key g ks G :
  le_graph G (Store.add_foreign_keys key g ks G).
Proof.
  split; [by intros key' ks' H|].
  intros key' g' ks' (fm & S & Hfm & HS & Hsub).
  unfold covers_foreign, Store.add_foreign_keys, Store.add_bucket. simpl.
  destruct (decide (key = key')) as [->|Hne].
  - rewrite lookup_insert_eq, Hfm. simpl.
    destruct (decide (g = g')) as [->|Hne'].
    + eexists _, _. split; [done|]. rewrite lookup_insert_eq, HS. simpl.
      split; [done|]. set_solver.
    + eexists _, _. split; [done|]. by rewrite lookup_insert_ne.
  - rewrite lookup_insert_ne by done. eauto.
Qed.

Lemma handle_msg_le (m : msg) (G : Store.Graph) :
  additive m = true → le_graph G (Store.handle_msg m G).
Proof.
  destruct m; try done; intros _; simpl.
  - apply add_local_keys_le.
  - apply add_foreign_keys_le.
Qed.

(** Adding edges that are already there changes nothing. *)
Lemma add_local_keys_id key ks G :
  covers_local G key (list_to_set ks) → Store.add_local_keys key ks G = G.
Proof.
  intros (S & HS & Hsub). unfold Store.add_local_keys. rewrite HS. simpl.
  rewrite (union_comm_L S), (subseteq_union_1_L _ _ Hsub).
  rewrite insert_id by done. by destruct G.
Qed.

Lemma add_foreign_keys_id key g ks G :
  covers_foreign G key g (list_to_set ks) →
  Store.add_foreign_keys key g ks G = G.
Proof.
  intros (fm & S & Hfm & HS & Hsub).
  unfold Store.add_foreign_keys, Store.add_bucket. rewrite Hfm. simpl.
  rewrite HS. simpl.
  rewrite (union_comm_L S), (subseteq_union_1_L _ _ Hsub).
  rewrite (insert_id fm) by done. rewrite insert_id by done. by destruct G.
Qed.

Lemma insert_covers_local key node local_keys foreign_keys G :
  covers_local (Store.insert key node local_keys foreign_keys G) key
    (Store.key_set local_keys).
Proof.
  unfold covers_local, Store.insert. simpl. eexists.
  rewrite lookup_insert_eq. done.
Qed.

Lemma mono_same_stores (w w' : world) :
  registry w' = registry w → stores w' = stores w → mono w w'.
Proof.
  intros Hr Hs. unfold mono. rewrite Hr, Hs. split; [done|].
  intros h G HG. exists G. split; [done|reflexivity].
Qed.

#[export] Instance mono_preorder : PreOrder mono.
Proof.
  split.
  - intros w. by apply mono_same_stores.
  - intros w1 w2 w3 [Hr12 Hs12] [Hr23 Hs23]. split; [by etransitivity|].
    intros h G HG. destruct (Hs12 h G HG) as (G' & HG' & Hle').
    destruct (Hs23 h G' HG') as (G'' & HG'' & Hle'').
    exists G''. split; [done|]. by etransitivity.
Qed.

#[export] Instance mono_stable : Stable mono.
Proof.
  split; [apply _|..].
  - intros g w Hh Hg. split.
    + by apply insert_subseteq.
    + intros h G HG. exists G. split; [|reflexivity].
      unfold with_new_graph, stores. simpl. by apply lookup_app_l_Some.
  - intros t w. by apply mono_same_stores.
  - intros g w. by apply mono_same_stores.
Qed.

Lemma mono_remote (h : handle) (m : msg) :
  additive m = true → preserves mono (remote h m).
Proof.
  intros Hm w. split; [done|]. intros h' G HG.
  unfold after, remote, stores in *. simpl.
  destruct (decide (h = h')) as [->|Hne].
  - exists (Store.handle_msg m G). rewrite list_lookup_alter_eq, HG.
    split; [done|]. by apply handle_msg_le.
  - exists G. rewrite list_lookup_alter_ne by done. split; [done|reflexivity].
Qed.

Lemma mono_covers_local w w' h key ks :
  mono w w' → store_covers_local w h key ks → store_covers_local w' h key ks.
Proof.
  intros [_ Hs] (G & HG & Hc). destruct (Hs h G HG) as (G' & HG' & [Hl _]).
  exists G'. auto.
Qed.

Lemma mono_covers_foreign w w' h key g ks :
  mono w w' → store_covers_foreign w h key g ks →
  store_covers_foreign w' h key g ks.
Proof.
  intros [_ Hs] (G & HG & Hc). destruct (Hs h G HG) as (G' & HG' & [_ Hf]).
  exists G'. auto.
Qed.

Lemma mono_is_Some_store w w' h :
  mono w w' → is_Some (stores w !! h) → is_Some (stores w' !! h).
Proof. intros [_ Hs] [G HG]. destruct (Hs h G HG) as (G' & HG' & _). eauto. Qed.

Lemma remote_covers_local t h key ks w :
  is_Some (stores w !! h) →
  store_covers_local (after (remote h (AddLocalKeys t key ks)) w) h key
    (list_to_set ks).
Proof.
  intros [G HG]. exists (Store.add_local_keys key ks G).
  unfold after, remote, stores in *. simpl.
  rewrite list_lookup_alter_eq, HG. split; [done|].
  apply add_local_keys_covers.
Qed.

Lemma remote_covers_foreign t h key g ks w :
  is_Some (stores w !! h) →
  store_covers_foreign (after (remote h (AddForeignKeys t key g ks)) w) h key g
    (list_to_set ks).
Proof.
  intros [G HG]. exists (Store.add_foreign_keys key g ks G).
  unfold after, remote, stores in *. simpl.
  rewrite list_lookup_alter_eq, HG. split; [done|].
  apply add_foreign_keys_covers.
Qed.

(** Delivering one call after the other. *)
Lemma deliver_nil (w : world) : deliver [] w = w.
Proof.
  unfold deliver. simpl. rewrite app_nil_r. by destruct w as [? []].
Qed.

Lemma deliver_cons (hm : handle * msg) (ms : list (handle * msg)) (w : world) :
  deliver (hm :: ms) w = deliver ms (after (remote hm.1 hm.2) w).
Proof.
  unfold deliver, after, remote. simpl. rewrite <- app_assoc.
  by destruct hm.
Qed.

Lemma deliver_mono (ms : list (handle * msg)) (w : world) :
  Forall (λ hm, additive hm.2 = true) ms → mono w (deliver ms w).
Proof.
  intros Hms. revert w. induction Hms as [|hm ms Hhm _ IH]; intros w.
  - rewrite deliver_nil. reflexivity.
  - rewrite deliver_cons. etransitivity; [|apply IH].
    by apply mono_remote.
Qed.

Lemma deliver_covers_local ms w t h key ks :
  Forall (λ hm, additive hm.2 = true) ms →
  (h, AddLocalKeys t key ks) ∈ ms →
  is_Some (stores w !! h) →
  store_covers_local (deliver ms w) h key (list_to_set ks).
Proof.
  intros Hms. revert w. induction Hms as [|hm ms Hhm Hms IH]; intros w Hin Hh.
  - by apply elem_of_nil in Hin.
  - rewrite deliver_cons. apply elem_of_cons in Hin as [<-|Hin].
    + simpl. eapply mono_covers_local; [by apply deliver_mono|].
      by apply remote_covers_local.
    + apply IH; [done|]. eapply mono_is_Some_store; [|done].
      by apply mono_remote.
Qed.

Lemma deliver_covers_foreign ms w t h key g ks :
  Forall (λ hm, additive hm.2 = true) ms →
  (h, AddForeignKeys t key g ks) ∈ ms →
  is_Some (stores w !! h) →
  store_covers_foreign (deliver ms w) h key g (list_to_set ks).
Proof.
  intros Hms. revert w. induction Hms as [|hm ms Hhm Hms IH]; intros w Hin Hh.
  - by apply elem_of_nil in Hin.
  - rewrite deliver_cons. apply elem_of_cons in Hin as [<-|Hin].
    + simpl. eapply mono_covers_foreign; [by apply deliver_mono|].
      by apply remote_covers_foreign.
    + apply IH; [done|]. eapply mono_is_Some_store; [|done].
      by apply mono_remote.
Qed.

(** ** Propagation *)

Lemma run_task_local t h key coll w :
  run_task (LocalBackEdges t h key coll) w =
    match Py.iter coll with
    | inr ks => deliver (map (λ k, (h, AddLocalKeys t k [key])) ks) w
    | inl _ => w
    end.
Proof.
  destruct (Py.iter coll) as [e|ks] eqn:Hit.
  - simpl. unfold _add_local_key_back_edges, bind, lift. by rewrite Hit.
  - simpl. by rewrite (back_edges_local_run _ _ _ _ _ _ Hit).
Qed.

Lemma run_task_foreign t h key g coll w :
  run_task (ForeignBackEdges t h key g coll) w =
    match Py.iter coll with
    | inr ks => deliver (map (λ k, (h, AddForeignKeys t k g [key])) ks) w
    | inl _ => w
    end.
Proof.
  destruct (Py.iter coll) as [e|ks] eqn:Hit.
  - simpl. unfold _add_foreign_key_back_edges, bind, lift. by rewrite Hit.
  - simpl. by rewrite (back_edges_foreign_run _ _ _ _ _ _ _ Hit).
Qed.

Lemma run_task_mono (t : task) (w : world) : mono w (run_task t w).
Proof.
  destruct t.
  - rewrite run_task_local. destruct (Py.iter local_keys); [reflexivity|].
    apply deliver_mono. by apply Forall_map, Forall_true.
  - rewrite run_task_foreign. destruct (Py.iter f_keys); [reflexivity|].
    apply deliver_mono. by apply Forall_map, Forall_true.
Qed.

Lemma run_tasks_mono (ts : list task) (w : world) :
  mono w (foldl (λ w' t, run_task t w') w ts).
Proof.
  revert w. induction ts as [|t ts IH]; intros w; simpl; [reflexivity|].
  etransitivity; [apply run_task_mono|apply IH].
Qed.

(** Every queued task gets its turn: it runs in a world that has only
    gained edges since, and what it leaves is kept until the end. *)
Lemma run_tasks_elem (ts : list task) (w : world) (t : task) :
  t ∈ ts →
  ∃ w0, mono w w0 ∧ mono (run_task t w0) (foldl (λ w' t, run_task t w') w ts).
Proof.
  revert w. induction ts as [|t' ts IH]; intros w Hin.
  - by apply elem_of_nil in Hin.
  - apply elem_of_cons in Hin as [->|Hin]; simpl.
    + exists w. split; [reflexivity|apply run_tasks_mono].
    + destruct (IH (run_task t' w) Hin) as (w0 & H0 & H1).
      exists w0. split; [|done]. etransitivity; [apply run_task_mono|done].
Qed.

Lemma propagate_mono (w : world) : mono w (propagate w).
Proof.
  unfold propagate. etransitivity; [|apply run_tasks_mono].
  by apply mono_same_stores.
Qed.

Lemma propagate_elem (w : world) (t : task) :
  t ∈ tasks (ray w) →
  ∃ w0, mono w w0 ∧ mono (run_task t w0) (propagate w).
Proof.
  intros Hin. destruct (run_tasks_elem _ (clear_tasks w) t Hin) as (w0 & H0 & H1).
  exists w0. split; [|done]. etransitivity; [|done]. by apply mono_same_stores.
Qed.

Lemma propagate_local_back_edges w t h key coll ks k :
  LocalBackEdges t h key coll ∈ tasks (ray w) →
  Py.iter coll = inr ks → k ∈ ks →
  is_Some (stores w !! h) →
  store_covers_local (propagate w) h k {[ key ]}.
Proof.
  intros Hin Hit Hk Hh. destruct (propagate_elem w _ Hin) as (w0 & H0 & H1).
  eapply mono_covers_local; [exact H1|].
  rewrite run_task_local, Hit.
  replace ({[ key ]} : gset value) with (list_to_set [key] : gset value)
    by (simpl; apply (right_id_L ∅ (∪))).
  apply deliver_covers_local with t.
  - by apply Forall_map, Forall_true.
  - apply list_elem_of_fmap. by exists k.
  - by eapply mono_is_Some_store.
Qed.

Lemma propagate_foreign_back_edges w t h key g coll ks k :
  ForeignBackEdges t h key g coll ∈ tasks (ray w) →
  Py.iter coll = inr ks → k ∈ ks →
  is_Some (stores w !! h) →
  store_covers_foreign (propagate w) h k g {[ key ]}.
Proof.
  intros Hin Hit Hk Hh. destruct (propagate_elem w _ Hin) as (w0 & H0 & H1).
  eapply mono_covers_foreign; [exact H1|].
  rewrite run_task_foreign, Hit.
  replace ({[ key ]} : gset value) with (list_to_set [key] : gset value)
    by (simpl; apply (right_id_L ∅ (∪))).
  apply deliver_covers_foreign with t.
  - by apply Forall_map, Forall_true.
  - apply list_elem_of_fmap. by exists k.
  - by eapply mono_is_Some_store.
Qed.

(** From handles back to names. *)
Lemma covers_LocalEdgeSet w g h key ks :
  registry w !! g = Some h → store_covers_local w h key ks →
  ks ⊆ LocalEdgeSet w g key.
Proof.
  intros Hg (G & HG & S & HS & Hsub).
  unfold LocalEdgeSet, store_of. rewrite Hg. simpl. rewrite HG. simpl.
  by rewrite HS.
Qed.

Lemma covers_ForeignEdgeSet w g h key other ks :
  registry w !! g = Some h → store_covers_foreign w h key other ks →
  ks ⊆ ForeignEdgeSet w g key other.
Proof.
  intros Hg (G & HG & fm & S & Hfm & HS & Hsub).
  unfold ForeignEdgeSet, ForeignEdgeMap, store_of. rewrite Hg. simpl.
  rewrite HG. simpl. rewrite Hfm. simpl. by rewrite HS.
Qed.

(** ** Local-edge symmetry *)

Ltac invert_bind H x w E :=
  apply bind_inr in H as (x & w & E & H); cbv beta in H.

Lemma elem_of_prefix {A} (l1 l2 : list A) (x : A) :
  l1 `prefix_of` l2 → x ∈ l1 → x ∈ l2.
Proof. intros [k ->] Hx. apply elem_of_app. by left. Qed.

Lemma key_set_hashable (v : value) : Py.hashable v = true → Store.key_set v = {[ v ]}.
Proof. intros Hh. unfold Store.key_set. by rewrite Hh. Qed.

Lemma insert_local_edges graph_id key node local_key foreign_keys w w' :
  wf w → Py.hashable local_key = true →
  insert graph_id key node local_key foreign_keys w = (inr tt, w') →
  ∃ h t,
    registry w' !! graph_id = Some h ∧
    store_covers_local w' h key {[ local_key ]} ∧
    LocalBackEdges t h key (VSet [local_key]) ∈ tasks (ray w').
Proof.
  intros Hwf Hk Hrun. unfold insert in Hrun.
  invert_bind Hrun u1 w1 E1. apply incr_inr in E1 as ->.
  invert_bind Hrun u2 w1 E2. apply raise_if_inr in E2 as [Hd ->].
  invert_bind Hrun u3 w2 E3.
  apply create_if_not_exists_inr in E3 as (HhG & _ & Hw2).
  assert (wf w2) as Hwf2.
  { rewrite Hw2. apply (stable_create_if_not_exists keeps_wf).
    by apply keeps_wf_incr. }
  clear Hw2.
  invert_bind Hrun h w2' E4. apply dict_get_inr in E4 as (_ & Hh & ->).
  invert_bind Hrun t w2' E5. apply get_transaction_id_inr in E5 as (-> & ->).
  invert_bind Hrun u4 w3 E6. apply remote_inr in E6.
  invert_bind Hrun lks w3' E7. rewrite normalize_hashable in E7 by done.
  injection E7 as <- <-.
  invert_bind Hrun t' w3' E8. apply get_transaction_id_inr in E8 as (-> & ->).
  invert_bind Hrun h' w3' E9. apply dict_get_inr in E9 as (_ & Hh' & ->).
  assert (h' = h) as ->.
  { rewrite E6 in Hh'. unfold registry, after in Hh'. simpl in Hh'.
    unfold registry in Hh. congruence. }
  invert_bind Hrun u5 w4 E10. apply spawn_inr in E10.
  invert_bind Hrun ids w4' E11. apply lift_inr in E11 as (_ & ->).
  assert (w' = after (for_each ids (λ other_graph_id,
            _create_if_not_exists other_graph_id ;;
            transaction_id <- get_transaction_id ;;
            other_graph <- dict_get other_graph_id ;;
            f_keys <- lift (match foreign_keys with
                            | VDict items | VOrderedDict items =>
                                Py.getitem items other_graph_id
                            | _ => inl (Py.TypeError "object is not subscriptable")
                            end) ;;
            spawn (ForeignBackEdges transaction_id other_graph key graph_id f_keys)))
            w4) as Hw'.
  { unfold after. by rewrite Hrun. }
  assert (mono w4 w') as Hmono.
  { rewrite Hw'. apply preserves_for_each; [apply _|]. intros x. preserves_tac. }
  assert (queue_grows w4 w') as Hqueue.
  { rewrite Hw'. apply preserves_for_each; [apply _|]. intros x. preserves_tac. }
  assert (store_covers_local w3 h key {[ local_key ]}) as Hc3.
  { destruct (wf_store_of w2 graph_id h Hwf2 Hh) as [G HG].
    exists (Store.insert key node local_key foreign_keys G).
    rewrite E6. unfold after, remote, stores in *. simpl.
    rewrite list_lookup_alter_eq, HG. split; [done|].
    rewrite <- (key_set_hashable local_key Hk). apply insert_covers_local. }
  exists h, (transaction_id w3). split; [|split].
  - destruct Hmono as [Hreg _]. eapply lookup_weaken; [|exact Hreg].
    by rewrite E10.
  - eapply mono_covers_local; [exact Hmono|].
    destruct Hc3 as (G & HG & Hc). exists G. by rewrite E10.
  - eapply elem_of_prefix; [exact Hqueue|].
    rewrite E10. unfold after, spawn. simpl. apply elem_of_app. right.
    by apply list_elem_of_singleton.
Qed.

Lemma add_local_keys_inr graph_id key local_keys w w' :
  add_local_keys graph_id key local_keys w = (inr tt, w') →
  ∃ h, Py.hashable graph_id = true ∧ registry w !! graph_id = Some h ∧
       w' = after (spawn (LocalBackEdges (transaction_id w + 1) h key
                            (VTuple local_keys)))
              (after (remote h (AddLocalKeys (transaction_id w + 1) key local_keys))
                 (after incr_transaction_id w)).
Proof.
  intros Hrun. pose proof Hrun as Hrun'. unfold add_local_keys in Hrun'.
  invert_bind Hrun' u1 w1 E1. apply incr_inr in E1 as ->.
  invert_bind Hrun' h w1 E2. apply dict_get_inr in E2 as (Hh & Hg & ->).
  exists h. split; [done|]. split; [done|].
  rewrite (add_local_keys_run _ _ _ h) in Hrun by done. by injection Hrun.
Qed.

Lemma symmetric_after_propagation w g h key other t coll :
  registry w !! g = Some h →
  store_covers_local w h key {[ other ]} →
  LocalBackEdges t h key coll ∈ tasks (ray w) →
  (∃ ks, Py.iter coll = inr ks ∧ other ∈ ks) →
  other ∈ LocalEdgeSet (propagate w) g key ∧
  key ∈ LocalEdgeSet (propagate w) g other.
Proof.
  intros Hg Hc Hin (ks & Hit & Hother).
  assert (registry (propagate w) !! g = Some h) as Hg'.
  { eapply lookup_weaken; [exact Hg|]. apply propagate_mono. }
  split.
  - apply (covers_LocalEdgeSet _ g h key {[ other ]}); [done| |set_solver].
    eapply mono_covers_local; [apply propagate_mono|done].
  - apply (covers_LocalEdgeSet _ g h other {[ key ]}); [done| |set_solver].
    eapply propagate_local_back_edges; [done..|].
    destruct Hc as (G & HG & _). by eexists.
Qed.

(** C1: after [insert(G, k2, v, local_keys=k1)], or after
    [add_local_keys(G, k2, k1)], and once the queued back-edge tasks have
    run, [k1] is in the local edge set of [k2] and [k2] is in the local edge
    set of [k1], both in graph [G]. *)
Theorem local_edge_symmetry (G k1 k2 : value) (w : world) :
  wf w →
  (∀ node foreign_keys,
     Py.hashable k1 = true →
     outcome (insert G k2 node k1 foreign_keys) w = inr tt →
     let w' := propagate (after (insert G k2 node k1 foreign_keys) w) in
     k1 ∈ LocalEdgeSet w' G k2 ∧ k2 ∈ LocalEdgeSet w' G k1) ∧
  (outcome (add_local_keys G k2 [k1]) w = inr tt →
   let w' := propagate (after (add_local_keys G k2 [k1]) w) in
   k1 ∈ LocalEdgeSet w' G k2 ∧ k2 ∈ LocalEdgeSet w' G k1).
Proof.
  intros Hwf. split.
  - intros node foreign_keys Hk Hout. unfold outcome, after in *.
    destruct (insert G k2 node k1 foreign_keys w) as [r w'] eqn:Hrun.
    simpl in *. subst r.
    destruct (insert_local_edges _ _ _ _ _ _ _ Hwf Hk Hrun)
      as (h & t & Hg & Hc & Hin).
    apply (symmetric_after_propagation _ G h k2 k1 t (VSet [k1])); try done.
    exists [k1]. split; [done|]. by apply list_elem_of_singleton.
  - intros Hout. unfold outcome, after in *.
    destruct (add_local_keys G k2 [k1] w) as [r w'] eqn:Hrun.
    simpl in *. subst r.
    apply add_local_keys_inr in Hrun as (h & Hh & Hg & ->).
    destruct (wf_store_of w G h Hwf Hg) as [G0 HG0].
    apply (symmetric_after_propagation _ G h k2 k1 (transaction_id w + 1)
             (VTuple [k1])).
    + done.
    + eapply mono_covers_local; [apply (@stable_spawn mono _)|].
      replace ({[ k1 ]} : gset value) with (list_to_set [k1] : gset value)
        by (simpl; apply (right_id_L ∅ (∪))).
      apply remote_covers_local. by exists G0.
    + unfold after, spawn. simpl. apply elem_of_app. right.
      by apply list_elem_of_singleton.
    + exists [k1]. split; [done|]. by apply list_elem_of_singleton.
Qed.

Lemma local_edge_symmetry_witness :
  let w := after (create_graph (VStr "Test Graph") true) init in
  let w' := propagate (after (insert (VStr "Test Graph") (VStr "Key2")
                                (VStr "Value2") (VStr "Key1") (VDict [])) w) in
  VStr "Key1" ∈ LocalEdgeSet w' (VStr "Test Graph") (VStr "Key2") ∧
  VStr "Key2" ∈ LocalEdgeSet w' (VStr "Test Graph") (VStr "Key1").
Proof.
  assert (wf (after (create_graph (VStr "Test Graph") true) init)) as Hwf.
  { apply (bool_decide_unpack _). vm_compute. exact I. }
  apply (proj1 (local_edge_symmetry (VStr "Test Graph") (VStr "Key1")
                  (VStr "Key2")
                  (after (create_graph (VStr "Test Graph") true) init) Hwf)
           (VStr "Value2") (VDict [])); reflexivity.
Defined.

(** ** Foreign edges *)

Lemma add_foreign_keys_inr graph_id key other_graph_id foreign_keys w w' :
  add_foreign_keys graph_id key other_graph_id foreign_keys w = (inr tt, w') →
  ∃ h h',
    Py.hashable graph_id = true ∧ registry w !! graph_id = Some h ∧
    Py.hashable other_graph_id = true ∧
    registry w' !! other_graph_id = Some h' ∧
    w' = after (spawn (ForeignBackEdges (transaction_id w + 1) h' key graph_id
                         (VTuple foreign_keys)))
           (after (_create_if_not_exists other_graph_id)
              (after (remote h (AddForeignKeys (transaction_id w + 1) key
                                  other_graph_id foreign_keys))
                 (after incr_transaction_id w))).
Proof.
  intros Hrun. pose proof Hrun as Hrun'. unfold add_foreign_keys in Hrun'.
  invert_bind Hrun' u1 w1 E1. apply incr_inr in E1 as ->.
  invert_bind Hrun' h w1 E2. apply dict_get_inr in E2 as (Hh & Hg & ->).
  clear Hrun'. rewrite (add_foreign_keys_run _ _ _ _ h) in Hrun by done.
  invert_bind Hrun h' w2 E3. invert_bind E3 u2 w2' E4.
  apply create_if_not_exists_inr in E4 as (Hho & _ & ->).
  apply dict_get_inr in E3 as (_ & Hg' & ->).
  apply spawn_inr in Hrun. exists h, h'. repeat split; try done.
  by rewrite Hrun.
Qed.

(** The sibling path of the foreign back edges of [insert]:
    [add_foreign_keys(G, k, H, fk)] leaves, once propagation is over, [fk]
    among the foreign keys of [(G, k)] under [H] and [k] among those of
    [(H, fk)] under [G], and [H] is registered. *)
Lemma add_foreign_keys_symmetry (G k H fk : value) (w : world) :
  wf w →
  outcome (add_foreign_keys G k H [fk]) w = inr tt →
  let w' := propagate (after (add_foreign_keys G k H [fk]) w) in
  is_Some (registry w' !! H) ∧
  fk ∈ ForeignEdgeSet w' G k H ∧ k ∈ ForeignEdgeSet w' H fk G.
Proof.
  intros Hwf Hout. unfold outcome, after in *.
  destruct (add_foreign_keys G k H [fk] w) as [r w'] eqn:Hrun.
  simpl in *. subst r.
  apply add_foreign_keys_inr in Hrun as (h & h' & Hh & Hg & Hho & Hg' & Hw').
  set (w1 := after (remote h (AddForeignKeys (transaction_id w + 1) k H [fk]))
               (after incr_transaction_id w)) in *.
  set (w2 := after (_create_if_not_exists H) w1) in *.
  assert (wf w2) as Hwf2.
  { apply (stable_create_if_not_exists keeps_wf), keeps_wf_remote.
    by apply keeps_wf_incr. }
  assert (mono w1 w') as Hmono.
  { rewrite Hw'. etransitivity; [apply (stable_create_if_not_exists mono)|].
    apply (@stable_spawn mono _). }
  assert (registry w2 !! H = Some h') as Hg2 by (by rewrite Hw' in Hg').
  destruct (wf_store_of w G h Hwf Hg) as [G0 HG0].
  assert (store_covers_foreign w' h k H {[ fk ]}) as Hc.
  { eapply mono_covers_foreign; [exact Hmono|].
    replace ({[ fk ]} : gset value) with (list_to_set [fk] : gset value)
      by (simpl; apply (right_id_L ∅ (∪))).
    apply remote_covers_foreign. by exists G0. }
  assert (registry w' !! G = Some h) as HgG.
  { eapply lookup_weaken; [|apply Hmono]. done. }
  pose proof (propagate_mono w') as Hprop.
  split; [|split].
  - exists h'. eapply lookup_weaken; [exact Hg'|apply Hprop].
  - apply (covers_ForeignEdgeSet _ G h k H {[ fk ]}); [| |set_solver].
    + eapply lookup_weaken; [exact HgG|apply Hprop].
    + by eapply mono_covers_foreign.
  - apply (covers_ForeignEdgeSet _ H h' fk G {[ k ]}); [| |set_solver].
    + eapply lookup_weaken; [exact Hg'|apply Hprop].
    + eapply (propagate_foreign_back_edges w' (transaction_id w + 1) h' k G
                (VTuple [fk]) [fk]).
      * rewrite Hw'. unfold after, spawn. simpl. apply elem_of_app. right.
        by apply list_elem_of_singleton.
      * done.
      * by apply list_elem_of_singleton.
      * rewrite Hw'. apply (wf_store_of w2 H h' Hwf2 Hg2).
Qed.

(** C2, on the [insert] path: with [foreign_keys={"H": "FK"}] the foreign
    back-edge procedure receives the key ["FK"] itself as the collection to
    iterate, and a string iterates over its characters.  The forward edge is
    recorded, graph ["H"] is created, but the mirrored edge is written at
    keys ["F"] and ["K"] of ["H"], and key ["FK"] of ["H"] has no edge to
    ["K3"]. *)
Theorem insert_foreign_back_edges_split_key :
  let w := propagate (after (insert (VStr "G") (VStr "K3") (VStr "V3")
                               default_local_keys
                               (VDict [(VStr "H", VStr "FK")])) init) in
  outcome (insert (VStr "G") (VStr "K3") (VStr "V3") default_local_keys
             (VDict [(VStr "H", VStr "FK")])) init = inr tt ∧
  sent (ray w)
  = [(0%nat, Insert (VStr "K3") (VStr "V3") (VSet [])
               (VDict [(VStr "H", VStr "FK")]) 1);
     (1%nat, AddForeignKeys 1 (VStr "F") (VStr "G") [VStr "K3"]);
     (1%nat, AddForeignKeys 1 (VStr "K") (VStr "G") [VStr "K3"])] ∧
  is_Some (registry w !! VStr "H") ∧
  VStr "FK" ∈ ForeignEdgeSet w (VStr "G") (VStr "K3") (VStr "H") ∧
  (VStr "K3" ∉ ForeignEdgeSet w (VStr "H") (VStr "FK") (VStr "G")) ∧
  VStr "K3" ∈ ForeignEdgeSet w (VStr "H") (VStr "F") (VStr "G") ∧
  VStr "K3" ∈ ForeignEdgeSet w (VStr "H") (VStr "K") (VStr "G").
Proof.
  cbv zeta. split; [reflexivity|]. split; [by vm_compute|].
  split; [vm_compute; eexists; reflexivity|].
  repeat split; apply (bool_decide_unpack _); by vm_compute.
Qed.

(** ** Which calls create a missing graph *)

Lemma valid_name_spec (g : value) :
  valid_name g = true → Py.hashable g = true ∧ Py.truthy g = true.
Proof. unfold valid_name. by intros ?%andb_true_iff. Qed.

Lemma create_if_not_exists_valid (g : value) (w : world) :
  valid_name g = true →
  ∃ w', _create_if_not_exists g w = (inr tt, w') ∧
        is_Some (registry w' !! g) ∧ registry w ⊆ registry w'.
Proof.
  intros [Hh Ht]%valid_name_spec.
  exists (after (_create_if_not_exists g) w).
  assert (_create_if_not_exists g w = (inr tt, after (_create_if_not_exists g) w))
    as Hrun.
  { unfold after. rewrite create_if_not_exists_run, Hh, Ht. simpl.
    by destruct (bool_decide _). }
  split; [done|]. split.
  - by apply create_if_not_exists_inr in Hrun as (_ & ? & _).
  - apply (stable_create_if_not_exists mono).
Qed.

Lemma insert_loop_body_valid graph_id key items g w :
  valid_name g = true → g ∈ items.*1 →
  ∃ w', insert_loop_body graph_id key (VDict items) g w = (inr tt, w') ∧
        is_Some (registry w' !! g) ∧ registry w ⊆ registry w'.
Proof.
  intros Hv Hin. pose proof (valid_name_spec g Hv) as [Hh _].
  destruct (create_if_not_exists_valid g w Hv) as (w1 & Hrun & [h Hg] & Hsub).
  destruct (getitem_elem_of items g Hin) as [x Hx].
  eexists. unfold insert_loop_body.
  rewrite (bind_eq _ _ _ _ _ Hrun). cbv beta.
  rewrite (bind_eq _ _ w1 (transaction_id w1) w1) by reflexivity. cbv beta.
  rewrite (bind_eq _ _ _ _ _ (dict_get_Some g h w1 Hh Hg)). cbv beta.
  rewrite (bind_eq _ _ w1 x w1) by (unfold lift; by rewrite Hx). cbv beta.
  split; [reflexivity|]. split; [by exists h|done].
Qed.

Lemma insert_loop_valid graph_id key items ids w :
  (∀ g, g ∈ ids → valid_name g = true ∧ g ∈ items.*1) →
  ∃ w', for_each ids (insert_loop_body graph_id key (VDict items)) w = (inr tt, w') ∧
        (∀ g, g ∈ ids → is_Some (registry w' !! g)) ∧
        registry w ⊆ registry w'.
Proof.
  revert w. induction ids as [|g ids IH]; intros w Hids.
  - exists w. split; [done|]. split; [|done]. by intros g ?%elem_of_nil.
  - destruct (Hids g) as [Hv Hin]; [by left|].
    destruct (insert_loop_body_valid graph_id key items g w Hv Hin)
      as (w1 & Hrun1 & [h Hg] & Hsub1).
    destruct (IH w1) as (w' & Hrun & Hreg & Hsub).
    { intros g' Hg'. apply Hids. by right. }
    exists w'. simpl. rewrite (bind_eq _ _ _ _ _ Hrun1). cbv beta.
    split; [done|]. split; [|by etransitivity].
    intros g' [->|Hg']%elem_of_cons; [|by apply Hreg].
    exists h. by eapply lookup_weaken.
Qed.

Lemma normalize_ok (local_keys : value) (w : world) :
  normalizable local_keys = true →
  ∃ lks, try_except_TypeError (lift (Py.set_of [local_keys]))
           (items <- lift (Py.iter local_keys) ;; lift (Py.set_of items)) w
         = (inr lks, w).
Proof.
  unfold normalizable. destruct (Py.hashable local_keys) eqn:Hh; simpl.
  - intros _. exists [local_keys]. by apply normalize_hashable.
  - unfold try_except_TypeError, lift, bind, Py.set_of. simpl. rewrite Hh. simpl.
    destruct (Py.iter local_keys) as [e|items]; [done|].
    intros ->. by eexists.
Qed.

Lemma insert_valid graph_id key node local_keys items w :
  valid_name graph_id = true →
  normalizable local_keys = true →
  (∀ g, g ∈ items.*1 → valid_name g = true) →
  ∃ w', insert graph_id key node local_keys (VDict items) w = (inr tt, w') ∧
        is_Some (registry w' !! graph_id) ∧
        ∀ g, g ∈ items.*1 → is_Some (registry w' !! g).
Proof.
  intros Hv Hn Hitems. pose proof (valid_name_spec _ Hv) as [Hh _].
  destruct (create_if_not_exists_valid graph_id (after incr_transaction_id w) Hv)
    as (w2 & Hrun2 & [h Hg] & Hsub2).
  set (w3 := after (remote h (Insert key node local_keys (VDict items)
                                (transaction_id w2))) w2).
  destruct (normalize_ok local_keys w3 Hn) as [lks Hlks].
  set (w4 := after (spawn (LocalBackEdges (transaction_id w3) h key (VSet lks))) w3).
  destruct (insert_loop_valid graph_id key items (items.*1) w4)
    as (w' & Hrun & Hreg & Hsub); [by auto|].
  exists w'. split; [|split; [|done]].
  - unfold insert.
    rewrite (bind_eq _ _ w tt (after incr_transaction_id w)) by reflexivity.
    cbv beta.
    rewrite (bind_eq _ _ _ tt (after incr_transaction_id w)) by reflexivity.
    cbv beta. rewrite (bind_eq _ _ _ _ _ Hrun2). cbv beta.
    rewrite (bind_eq _ _ _ _ _ (dict_get_Some graph_id h w2 Hh Hg)). cbv beta.
    rewrite (bind_eq _ _ w2 (transaction_id w2) w2) by reflexivity. cbv beta.
    rewrite (bind_eq _ _ w2 tt w3) by reflexivity. cbv beta.
    rewrite (bind_eq _ _ _ _ _ Hlks). cbv beta.
    rewrite (bind_eq _ _ w3 (transaction_id w3) w3) by reflexivity. cbv beta.
    rewrite (bind_eq _ _ _ _ _ (dict_get_Some graph_id h w3 Hh Hg)). cbv beta.
    rewrite (bind_eq _ _ w3 tt w4) by reflexivity. cbv beta.
    rewrite (bind_eq _ _ w4 (items.*1) w4) by reflexivity. cbv beta.
    exact Hrun.
  - exists h. eapply lookup_weaken; [|exact Hsub]. done.
Qed.

Lemma unknown_graph_KeyError (graph_id : value) (w : world) :
  Py.hashable graph_id = true → registry w !! graph_id = None →
  ∀ {A} (k : handle → M A),
    (incr_transaction_id ;; graph <- dict_get graph_id ;; k graph)%py w
    = (inl (Py.KeyError graph_id), after incr_transaction_id w).
Proof.
  intros Hh Hg A k. unfold bind, dict_get, registry in *. simpl.
  by rewrite Hh, Hg.
Qed.

(** C3 as stated does not hold: [delete_row] on a graph name that is not in
    the registry raises [KeyError] and creates nothing. *)
Lemma unknown_graph_not_always_created :
  ¬ (∀ (c : call) (g : value) (w : world),
       g ∈ graphs_named c → valid_name g = true → registry w !! g = None →
       is_Some (registry (after (run_call c) w) !! g) ∧
       outcome (run_call c) w ≠ inl (Py.KeyError g)).
Proof.
  intros H.
  destruct (H (DeleteRow (VStr "Unknown") (VStr "Key")) (VStr "Unknown") init)
    as [_ Hout].
  - by left.
  - reflexivity.
  - reflexivity.
  - by apply Hout.
Qed.

(** C3, amended: given a dictionary as [foreign_keys] and a [local_keys]
    that is a hashable value or a collection of hashable values, [insert]
    creates the graph it addresses and every graph named in [foreign_keys]
    when they are missing, and returns normally; [add_foreign_keys]
    addressed to a registered graph creates the other graph when it is
    missing, and returns normally; the names being hashable and neither
    empty nor absent.  [delete_row], [add_local_keys] and
    [add_foreign_keys] addressed to a hashable graph name that is not in the
    registry create nothing: they raise [KeyError], having advanced the
    transaction counter and nothing else. *)
Theorem unknown_graph_handling (w : world) :
  (∀ graph_id key node local_keys items,
     valid_name graph_id = true →
     normalizable local_keys = true →
     (∀ g, g ∈ items.*1 → valid_name g = true) →
     let w' := after (insert graph_id key node local_keys (VDict items)) w in
     outcome (insert graph_id key node local_keys (VDict items)) w = inr tt ∧
     is_Some (registry w' !! graph_id) ∧
     ∀ g, g ∈ items.*1 → is_Some (registry w' !! g)) ∧
  (∀ graph_id key other_graph_id foreign_keys,
     Py.hashable graph_id = true → is_Some (registry w !! graph_id) →
     valid_name other_graph_id = true →
     let w' := after (add_foreign_keys graph_id key other_graph_id foreign_keys) w in
     outcome (add_foreign_keys graph_id key other_graph_id foreign_keys) w
       = inr tt ∧
     is_Some (registry w' !! other_graph_id)) ∧
  (∀ graph_id key other_graph_id keys,
     Py.hashable graph_id = true → registry w !! graph_id = None →
     (delete_row graph_id key w
        = (inl (Py.KeyError graph_id), after incr_transaction_id w)) ∧
     (add_local_keys graph_id key keys w
        = (inl (Py.KeyError graph_id), after incr_transaction_id w)) ∧
     (add_foreign_keys graph_id key other_graph_id keys w
        = (inl (Py.KeyError graph_id), after incr_transaction_id w)) ∧
     registry (after incr_transaction_id w) = registry w).
Proof.
  split; [|split].
  - intros graph_id key node local_keys items Hv Hn Hitems.
    destruct (insert_valid graph_id key node local_keys items w Hv Hn Hitems)
      as (w' & Hrun & HG & Hreg).
    unfold outcome, after. by rewrite Hrun.
  - intros graph_id key other_graph_id foreign_keys Hh [h Hg] Hv.
    pose proof (valid_name_spec _ Hv) as [Hho _].
    unfold outcome, after. rewrite (add_foreign_keys_run _ _ _ _ h) by done.
    set (w1 := after (remote h _) _).
    destruct (create_if_not_exists_valid other_graph_id w1 Hv)
      as (w2 & Hrun & [h' Hg'] & Hsub).
    unfold bind. rewrite Hrun.
    rewrite (dict_get_Some other_graph_id h' w2 Hho Hg'). simpl.
    split; [done|]. by exists h'.
  - intros graph_id key other_graph_id keys Hh Hg.
    split; [|split; [|split]]; [..|done].
    + apply (unknown_graph_KeyError graph_id w Hh Hg).
    + apply (unknown_graph_KeyError graph_id w Hh Hg).
    + apply (unknown_graph_KeyError graph_id w Hh Hg).
Qed.

Lemma unknown_graph_handling_witness :
  (outcome (insert (VStr "G") (VStr "K3") (VStr "V3") (VSet [])
              (VDict [(VStr "H", VStr "FK")])) init = inr tt ∧
   is_Some (registry (after (insert (VStr "G") (VStr "K3") (VStr "V3") (VSet [])
                               (VDict [(VStr "H", VStr "FK")])) init)
            !! VStr "G")) ∧
  is_Some (registry (after (add_foreign_keys (VStr "G") (VStr "K1") (VStr "H")
                              [VStr "FK"])
                       (after (create_graph (VStr "G") true) init))
           !! VStr "H") ∧
  delete_row (VStr "Unknown") (VStr "Key") init
  = (inl (Py.KeyError (VStr "Unknown")), after incr_transaction_id init).
Proof.
  split; [|split].
  - pose proof (proj1 (unknown_graph_handling init) (VStr "G") (VStr "K3")
                  (VStr "V3") (VSet []) [(VStr "H", VStr "FK")]) as H.
    destruct H as (Hout & HG & _).
    + reflexivity.
    + reflexivity.
    + intros g Hg. apply list_elem_of_singleton in Hg. by subst.
    + by split.
  - apply (proj1 (proj2 (unknown_graph_handling
             (after (create_graph (VStr "G") true) init)))
             (VStr "G") (VStr "K1") (VStr "H") [VStr "FK"]).
    + reflexivity.
    + vm_compute. by eexists.
    + reflexivity.
  - apply (proj2 (proj2 (unknown_graph_handling init))
             (VStr "Unknown") (VStr "Key") VNone []); reflexivity.
Defined.

(** ** Idempotence of the add-edge calls *)

Lemma run_task_calls (t : task) (w : world) :
  run_task t w = deliver (task_calls t) w.
Proof.
  destruct t; simpl task_calls.
  - rewrite run_task_local. destruct (Py.iter local_keys); [|done].
    by rewrite deliver_nil.
  - rewrite run_task_foreign. destruct (Py.iter f_keys); [|done].
    by rewrite deliver_nil.
Qed.

Lemma run_task_self (t : task) (w : world) : self (run_task t w) = self w.
Proof. by rewrite run_task_calls. Qed.

Lemma run_task_tasks (t : task) (w : world) :
  tasks (ray (run_task t w)) = tasks (ray w).
Proof. by rewrite run_task_calls. Qed.

Lemma run_tasks_self_tasks (ts : list task) (w : world) :
  self (foldl (λ w' t, run_task t w') w ts) = self w ∧
  tasks (ray (foldl (λ w' t, run_task t w') w ts)) = tasks (ray w).
Proof.
  revert w. induction ts as [|t ts IH]; intros w; simpl; [done|].
  destruct (IH (run_task t w)) as [-> ->].
  by rewrite run_task_self, run_task_tasks.
Qed.

Lemma propagate_registry (w : world) : registry (propagate w) = registry w.
Proof.
  unfold registry, propagate.
  by rewrite (proj1 (run_tasks_self_tasks _ _)).
Qed.

Lemma propagate_tasks (w : world) : tasks (ray (propagate w)) = [].
Proof. unfold propagate. by rewrite (proj2 (run_tasks_self_tasks _ _)). Qed.

Lemma propagate_no_tasks (w : world) :
  tasks (ray w) = [] → stores (propagate w) = stores w.
Proof. unfold propagate. by intros ->. Qed.

(** What the tasks do to the stores depends on the stores only. *)
Lemma run_tasks_stores (ts : list task) (w1 w2 : world) :
  stores w1 = stores w2 →
  stores (foldl (λ w' t, run_task t w') w1 ts)
  = stores (foldl (λ w' t, run_task t w') w2 ts).
Proof.
  revert w1 w2. induction ts as [|t ts IH]; intros w1 w2 Hs; simpl; [done|].
  apply IH. rewrite !run_task_calls. unfold deliver, stores in *. simpl.
  by rewrite Hs.
Qed.

Lemma propagate_same_stores (w w' : world) :
  tasks (ray w') = tasks (ray w) → stores w' = stores w →
  stores (propagate w') = stores (propagate w).
Proof. intros Ht Hs. unfold propagate. rewrite Ht. by apply run_tasks_stores. Qed.

Lemma alter_redundant (l : list Store.Graph) (hm : handle * msg) :
  redundant l hm → alter (Store.handle_msg hm.2) hm.1 l = l.
Proof.
  intros Hred. apply list_eq. intros i.
  destruct (decide (hm.1 = i)) as [<-|Hne].
  - rewrite list_lookup_alter_eq. destruct (l !! hm.1) as [G|] eqn:HG; [|done].
    simpl. by rewrite Hred.
  - by rewrite list_lookup_alter_ne.
Qed.

Lemma deliver_redundant (ms : list (handle * msg)) (w : world) :
  Forall (redundant (stores w)) ms → stores (deliver ms w) = stores w.
Proof.
  unfold deliver, stores. simpl. generalize (actors (ray w)). intros l Hms.
  induction Hms as [|hm ms Hhm _ IH]; simpl; [done|].
  by rewrite alter_redundant.
Qed.

(** One more task at the end of the queue, whose calls are redundant for
    the stores the other tasks leave, does not change the outcome of
    propagation. *)
Lemma propagate_extra_task (w w' : world) (t : task) :
  tasks (ray w') = (tasks (ray w) ++ [t])%list → stores w' = stores w →
  Forall (redundant (stores (propagate w))) (task_calls t) →
  stores (propagate w') = stores (propagate w).
Proof.
  intros Ht Hs Hred. unfold propagate at 1. rewrite Ht, foldl_app. simpl.
  rewrite run_task_calls.
  assert (stores (foldl (λ w0 t0, run_task t0 w0) (clear_tasks w') (tasks (ray w)))
          = stores (propagate w)) as Hsame.
  { unfold propagate. by apply run_tasks_stores. }
  rewrite deliver_redundant; [done|]. by rewrite Hsame.
Qed.

Lemma redundant_add_local_keys l h t key ks :
  (∀ G, l !! h = Some G → covers_local G key (list_to_set ks)) →
  redundant l (h, AddLocalKeys t key ks).
Proof. intros Hc G HG. simpl. apply add_local_keys_id. by apply Hc. Qed.

Lemma redundant_add_foreign_keys l h t key g ks :
  (∀ G, l !! h = Some G → covers_foreign G key g (list_to_set ks)) →
  redundant l (h, AddForeignKeys t key g ks).
Proof. intros Hc G HG. simpl. apply add_foreign_keys_id. by apply Hc. Qed.

Lemma store_covers_local_elim w h key ks G :
  store_covers_local w h key ks → stores w !! h = Some G → covers_local G key ks.
Proof. intros (G' & HG' & Hc) HG. congruence. Qed.

Lemma store_covers_foreign_elim w h key g ks G :
  store_covers_foreign w h key g ks → stores w !! h = Some G →
  covers_foreign G key g ks.
Proof. intros (G' & HG' & Hc) HG. congruence. Qed.

Lemma singleton_list_to_set (x : value) : (list_to_set [x] : gset value) = {[ x ]}.
Proof. simpl. apply (right_id_L ∅ (∪)). Qed.

Lemma redundant_local_back_edges (w : world) t h key ks :
  (∀ k, k ∈ ks → store_covers_local w h k {[ key ]}) →
  Forall (redundant (stores w))
    (task_calls (LocalBackEdges t h key (VTuple ks))).
Proof.
  intros Hback. simpl. apply Forall_map, list.Forall_forall. intros k Hk.
  cbv beta. apply redundant_add_local_keys. intros G HG.
  rewrite singleton_list_to_set. eapply store_covers_local_elim; [|done].
  by apply Hback.
Qed.

Lemma redundant_foreign_back_edges (w : world) t h key g ks :
  (∀ k, k ∈ ks → store_covers_foreign w h k g {[ key ]}) →
  Forall (redundant (stores w))
    (task_calls (ForeignBackEdges t h key g (VTuple ks))).
Proof.
  intros Hback. simpl. apply Forall_map, list.Forall_forall. intros k Hk.
  cbv beta. apply redundant_add_foreign_keys. intros G HG.
  rewrite singleton_list_to_set. eapply store_covers_foreign_elim; [|done].
  by apply Hback.
Qed.

Lemma add_local_keys_unknown graph_id key local_keys w :
  Py.hashable graph_id = false ∨ registry w !! graph_id = None →
  after (add_local_keys graph_id key local_keys) w = after incr_transaction_id w.
Proof.
  intros Hcase. unfold after, add_local_keys, bind, dict_get, registry in *.
  simpl. destruct (Py.hashable graph_id); [|done].
  destruct Hcase as [Hcase | ->]; done.
Qed.

Lemma add_foreign_keys_unknown graph_id key other_graph_id foreign_keys w :
  Py.hashable graph_id = false ∨ registry w !! graph_id = None →
  after (add_foreign_keys graph_id key other_graph_id foreign_keys) w
  = after incr_transaction_id w.
Proof.
  intros Hcase. unfold after, add_foreign_keys, bind, dict_get, registry in *.
  simpl. destruct (Py.hashable graph_id); [|done].
  destruct Hcase as [Hcase | ->]; done.
Qed.

Lemma add_local_keys_registry graph_id key local_keys w :
  registry (after (add_local_keys graph_id key local_keys) w) = registry w.
Proof.
  destruct (Py.hashable graph_id) eqn:Hh;
    [destruct (registry w !! graph_id) as [h|] eqn:Hg|].
  - unfold after. by rewrite (add_local_keys_run _ _ _ h).
  - by rewrite add_local_keys_unknown by auto.
  - by rewrite add_local_keys_unknown by auto.
Qed.

(** A further [add_local_keys] call in a world whose store already holds
    the forward edges, and will hold the mirrored ones once its queue has
    run, does not change what propagation arrives at. *)
Lemma add_local_keys_again graph_id key local_keys h w :
  Py.hashable graph_id = true → registry w !! graph_id = Some h →
  store_covers_local w h key (list_to_set local_keys) →
  (∀ k, k ∈ local_keys → store_covers_local (propagate w) h k {[ key ]}) →
  stores (propagate (after (add_local_keys graph_id key local_keys) w))
  = stores (propagate w).
Proof.
  intros Hh Hg Hkey Hback. unfold after at 1.
  rewrite (add_local_keys_run _ _ _ h) by done. simpl.
  apply (propagate_extra_task w _
           (LocalBackEdges (transaction_id w + 1) h key (VTuple local_keys))).
  - done.
  - apply (alter_redundant (stores w)
             (h, AddLocalKeys (transaction_id w + 1) key local_keys)).
    apply redundant_add_local_keys. intros G HG.
    by eapply store_covers_local_elim.
  - by apply redundant_local_back_edges.
Qed.

Lemma add_local_keys_first graph_id key local_keys h w :
  wf w → Py.hashable graph_id = true → registry w !! graph_id = Some h →
  let first := after (add_local_keys graph_id key local_keys) w in
  registry first !! graph_id = Some h ∧
  store_covers_local first h key (list_to_set local_keys) ∧
  (∀ k, k ∈ local_keys → store_covers_local (propagate first) h k {[ key ]}).
Proof.
  intros Hwf Hh Hg. cbv zeta. rewrite add_local_keys_registry.
  unfold after at 1 2. rewrite (add_local_keys_run _ _ _ h) by done. simpl.
  set (w0 := after (remote h _) _). set (w1 := after (spawn _) w0).
  destruct (wf_store_of w graph_id h Hwf Hg) as [G HG].
  assert (store_covers_local w1 h key (list_to_set local_keys)) as Hc.
  { eapply mono_covers_local; [apply (@stable_spawn mono _)|].
    apply remote_covers_local. by exists G. }
  split; [done|]. split; [done|].
  intros k Hk.
  apply (propagate_local_back_edges w1 (transaction_id w + 1) h key
           (VTuple local_keys) local_keys); try done.
  - unfold w1, after, spawn. simpl. apply elem_of_app. right.
    by apply list_elem_of_singleton.
  - destruct Hc as (G' & HG' & _). by exists G'.
Qed.

Lemma add_local_keys_idempotent graph_id key local_keys w :
  wf w →
  let first := after (add_local_keys graph_id key local_keys) w in
  let once := propagate first in
  stores (propagate (after (add_local_keys graph_id key local_keys) once))
    = stores once ∧
  stores (propagate (after (add_local_keys graph_id key local_keys) first))
    = stores once.
Proof.
  intros Hwf first once.
  assert (stores (propagate once) = stores once) as Honce.
  { apply propagate_no_tasks, propagate_tasks. }
  destruct (Py.hashable graph_id) eqn:Hh;
    [destruct (registry w !! graph_id) as [h|] eqn:Hg|].
  - destruct (add_local_keys_first graph_id key local_keys h w Hwf Hh Hg)
      as (Hr & Hkey & Hback).
    fold first in Hr, Hkey, Hback. fold once in Hback. split.
    + etransitivity; [|exact Honce].
      apply (add_local_keys_again graph_id key local_keys h once); try done.
      * unfold once. by rewrite propagate_registry.
      * eapply mono_covers_local; [apply propagate_mono|done].
      * intros k Hk. eapply mono_covers_local; [apply propagate_mono|].
        by apply Hback.
    + by apply (add_local_keys_again graph_id key local_keys h first).
  - assert (registry first !! graph_id = None) as Hg'.
    { unfold first. by rewrite add_local_keys_registry. }
    split.
    + rewrite add_local_keys_unknown
        by (right; unfold once; by rewrite propagate_registry).
      etransitivity; [|exact Honce]. by apply propagate_same_stores.
    + rewrite add_local_keys_unknown by auto. by apply propagate_same_stores.
  - split.
    + rewrite add_local_keys_unknown by auto.
      etransitivity; [|exact Honce]. by apply propagate_same_stores.
    + rewrite add_local_keys_unknown by auto. by apply propagate_same_stores.
Qed.

(** The world [add_foreign_keys] leaves when the graph it addresses is
    registered, by what becomes of the other graph. *)
Lemma add_foreign_keys_after graph_id key other_graph_id foreign_keys h w :
  Py.hashable graph_id = true → registry w !! graph_id = Some h →
  let w1 := after (remote h (AddForeignKeys (transaction_id w + 1) key
                               other_graph_id foreign_keys))
              (after incr_transaction_id w) in
  after (add_foreign_keys graph_id key other_graph_id foreign_keys) w =
    if negb (Py.hashable other_graph_id) then w1
    else match registry w !! other_graph_id with
         | Some h' =>
             after (spawn (ForeignBackEdges (transaction_id w + 1) h' key
                             graph_id (VTuple foreign_keys))) w1
         | None =>
             if negb (Py.truthy other_graph_id)
             then after (print_warning other_graph_id) w1
             else after (spawn (ForeignBackEdges (transaction_id w + 1)
                                  (length (stores w)) key graph_id
                                  (VTuple foreign_keys)))
                    (with_new_graph other_graph_id
                       (after (print_warning other_graph_id) w1))
         end.
Proof.
  intros Hh Hg w1. unfold after at 1.
  rewrite (add_foreign_keys_run _ _ _ _ h) by done. fold w1.
  unfold bind. rewrite create_if_not_exists_run.
  change (registry w1) with (registry w).
  destruct (Py.hashable other_graph_id) eqn:Hho; simpl; [|done].
  destruct (registry w !! other_graph_id) as [h'|] eqn:Hg'.
  - rewrite bool_decide_eq_true_2 by (by eexists).
    by rewrite (dict_get_Some other_graph_id h' w1 Hho Hg').
  - rewrite bool_decide_eq_false_2 by (by intros [? ?]).
    destruct (Py.truthy other_graph_id); simpl; [|done].
    rewrite (dict_get_Some other_graph_id (length (stores w))).
    + done.
    + done.
    + unfold registry, with_new_graph, stores, w1, after, remote. simpl.
      by rewrite lookup_insert_eq, length_alter.
Qed.

Lemma other_graph_settled_propagate w key graph_id other_graph_id foreign_keys :
  other_graph_settled w key graph_id other_graph_id foreign_keys →
  other_graph_settled (propagate w) key graph_id other_graph_id foreign_keys.
Proof.
  unfold other_graph_settled. rewrite propagate_registry.
  intros [Hho|[Hnone|(h' & Hho & Hg' & Hback)]]; [by left|by right; left|].
  right; right. exists h'. split; [done|]. split; [done|].
  intros k Hk. eapply mono_covers_foreign; [apply propagate_mono|].
  by apply Hback.
Qed.

Lemma add_foreign_keys_again graph_id key other_graph_id foreign_keys h w :
  Py.hashable graph_id = true → registry w !! graph_id = Some h →
  store_covers_foreign w h key other_graph_id (list_to_set foreign_keys) →
  other_graph_settled w key graph_id other_graph_id foreign_keys →
  let w' := after (add_foreign_keys graph_id key other_graph_id foreign_keys) w in
  stores (propagate w') = stores (propagate w) ∧ registry w' = registry w.
Proof.
  intros Hh Hg Hkey Hother. cbv zeta.
  rewrite (add_foreign_keys_after _ _ _ _ h) by done. cbv zeta.
  set (w1 := after (remote h _) _).
  assert (stores w1 = stores w) as Hstores.
  { apply (alter_redundant (stores w)
             (h, AddForeignKeys (transaction_id w + 1) key other_graph_id
                   foreign_keys)).
    apply redundant_add_foreign_keys. intros G HG.
    by eapply store_covers_foreign_elim. }
  destruct Hother as [Hho|[[Hg' Ht]|(h' & Hho & Hg' & Hback)]].
  - rewrite Hho. simpl. split; [|done]. by apply propagate_same_stores.
  - destruct (Py.hashable other_graph_id); simpl.
    + rewrite Hg', Ht. simpl. split; [|done]. by apply propagate_same_stores.
    + split; [|done]. by apply propagate_same_stores.
  - rewrite Hho, Hg'. simpl. split; [|done].
    apply (propagate_extra_task w _
             (ForeignBackEdges (transaction_id w + 1) h' key graph_id
                (VTuple foreign_keys))); [done|done|].
    by apply redundant_foreign_back_edges.
Qed.

Lemma add_foreign_keys_first graph_id key other_graph_id foreign_keys h w :
  wf w → Py.hashable graph_id = true → registry w !! graph_id = Some h →
  let first := after (add_foreign_keys graph_id key other_graph_id foreign_keys) w in
  registry first !! graph_id = Some h ∧
  store_covers_foreign first h key other_graph_id (list_to_set foreign_keys) ∧
  other_graph_settled first key graph_id other_graph_id foreign_keys.
Proof.
  intros Hwf Hh Hg first.
  set (w1 := after (remote h (AddForeignKeys (transaction_id w + 1) key
                                other_graph_id foreign_keys))
               (after incr_transaction_id w)).
  assert (wf first) as Hwf'.
  { apply (wf_run_call (AddForeignKeysTo graph_id key other_graph_id
                          foreign_keys) w Hwf). }
  destruct (wf_store_of w graph_id h Hwf Hg) as [G HG].
  assert (store_covers_foreign w1 h key other_graph_id (list_to_set foreign_keys))
    as Hc1.
  { apply remote_covers_foreign. by exists G. }
  assert (mono w1 first) as Hmono.
  { unfold first. rewrite (add_foreign_keys_after _ _ _ _ h) by done. cbv zeta.
    fold w1. destruct (Py.hashable other_graph_id) eqn:Hho; simpl;
      [|reflexivity].
    destruct (registry w !! other_graph_id) as [h'|] eqn:Hg'.
    - apply (@stable_spawn mono _).
    - destruct (Py.truthy other_graph_id); simpl.
      + etransitivity; [apply (@stable_print_warning mono _ other_graph_id)|].
        etransitivity; [|apply (@stable_spawn mono _)].
        apply (@stable_new_graph mono _); [exact Hho|exact Hg'].
      + apply (@stable_print_warning mono _). }
  split; [|split].
  - eapply lookup_weaken; [|apply Hmono]. done.
  - by eapply mono_covers_foreign.
  - unfold other_graph_settled.
    destruct (Py.hashable other_graph_id) eqn:Hho; [|by left]. right.
    assert (∀ h', registry first !! other_graph_id = Some h' →
              ForeignBackEdges (transaction_id w + 1) h' key graph_id
                (VTuple foreign_keys) ∈ tasks (ray first) →
              ∃ h', true = true ∧
                registry first !! other_graph_id = Some h' ∧
                ∀ k, k ∈ foreign_keys →
                  store_covers_foreign (propagate first) h' k graph_id {[ key ]})
      as Hdone.
    { intros h' Hg' Hin. exists h'. split; [done|]. split; [done|].
      intros k Hk.
      apply (propagate_foreign_back_edges first (transaction_id w + 1) h' key
               graph_id (VTuple foreign_keys) foreign_keys); try done.
      apply (wf_store_of first other_graph_id h' Hwf' Hg'). }
    revert Hdone. unfold first.
    rewrite (add_foreign_keys_after _ _ _ _ h) by done. cbv zeta. fold w1.
    rewrite Hho. simpl.
    destruct (registry w !! other_graph_id) as [h'|] eqn:Hg'.
    + intros Hdone. right. apply (Hdone h'); [done|].
      unfold after, spawn. simpl. apply elem_of_app. right.
      by apply list_elem_of_singleton.
    + destruct (Py.truthy other_graph_id) eqn:Ht; simpl.
      * intros Hdone. right. apply (Hdone (length (stores w))).
        -- unfold registry, after, spawn, with_new_graph, stores. simpl.
           by rewrite lookup_insert_eq, length_alter.
        -- unfold after, spawn. simpl. apply elem_of_app. right.
           by apply list_elem_of_singleton.
      * intros _. by left.
Qed.

Lemma add_foreign_keys_idempotent graph_id key other_graph_id foreign_keys w :
  wf w →
  let call := add_foreign_keys graph_id key other_graph_id foreign_keys in
  let first := after call w in
  let once := propagate first in
  (stores (propagate (after call once)) = stores once ∧
   registry (propagate (after call once)) = registry once) ∧
  (stores (propagate (after call first)) = stores once ∧
   registry (propagate (after call first)) = registry once).
Proof.
  intros Hwf call first once. rewrite !propagate_registry.
  assert (stores (propagate once) = stores once) as Honce.
  { apply propagate_no_tasks, propagate_tasks. }
  assert (registry once = registry first) as Hreg
    by apply propagate_registry.
  destruct (Py.hashable graph_id) eqn:Hh;
    [destruct (registry w !! graph_id) as [h|] eqn:Hg|].
  - destruct (add_foreign_keys_first graph_id key other_graph_id foreign_keys
                h w Hwf Hh Hg) as (Hr & Hkey & Hother).
    fold call first in Hr, Hkey, Hother. split.
    + rewrite <- Honce at 1.
      apply (add_foreign_keys_again graph_id key other_graph_id foreign_keys
               h once); try done.
      * by rewrite Hreg.
      * eapply mono_covers_foreign; [apply propagate_mono|done].
      * by apply other_graph_settled_propagate.
    + rewrite Hreg.
      by apply (add_foreign_keys_again graph_id key other_graph_id
                  foreign_keys h first).
  - assert (registry first !! graph_id = None) as Hg'.
    { unfold first, call. by rewrite add_foreign_keys_unknown by auto. }
    unfold call. split.
    + rewrite add_foreign_keys_unknown by (right; by rewrite Hreg).
      split; [|done]. etransitivity; [|exact Honce].
      by apply propagate_same_stores.
    + rewrite add_foreign_keys_unknown by auto.
      split; [|done]. by apply propagate_same_stores.
  - unfold call. split.
    + rewrite add_foreign_keys_unknown by auto.
      split; [|done]. etransitivity; [|exact Honce].
      by apply propagate_same_stores.
    + rewrite add_foreign_keys_unknown by auto.
      split; [|done]. by apply propagate_same_stores.
Qed.

Lemma same_edges_intro (w w' : world) :
  stores w' = stores w → registry w' = registry w → same_edges w w'.
Proof.
  intros Hs Hr. split; [done|]. intros g k.
  unfold LocalEdgeSet, ForeignEdgeMap, store_of. by rewrite Hs, Hr.
Qed.

(** C9: making the same [add_local_keys] call, or the same
    [add_foreign_keys] call, a second time leaves the edges as one call
    leaves them, whether the second call comes after the back-edge tasks of
    the first have run or before. *)
Theorem add_keys_idempotent (graph_id key other_graph_id : value)
    (keys : list value) (w : world) :
  wf w →
  (let call := add_local_keys graph_id key keys in
   let once := propagate (after call w) in
   same_edges once (propagate (after call once)) ∧
   same_edges once (propagate (after call (after call w)))) ∧
  (let call := add_foreign_keys graph_id key other_graph_id keys in
   let once := propagate (after call w) in
   same_edges once (propagate (after call once)) ∧
   same_edges once (propagate (after call (after call w)))).
Proof.
  intros Hwf. split; cbv zeta.
  - pose proof (add_local_keys_idempotent graph_id key keys w Hwf) as H.
    cbv zeta in H. destruct H as [Ha Hb].
    split; (apply same_edges_intro; [done|]).
    + by rewrite propagate_registry, add_local_keys_registry.
    + by rewrite !propagate_registry, !add_local_keys_registry.
  - pose proof (add_foreign_keys_idempotent graph_id key other_graph_id keys
                  w Hwf) as H.
    cbv zeta in H. destruct H as [[Ha Ha'] [Hb Hb']].
    split; by apply same_edges_intro.
Qed.

Lemma add_keys_idempotent_witness :
  let w := after (insert (VStr "G") (VStr "Key1") (VStr "Value1") (VSet [])
                    (VDict [])) init in
  let call := add_foreign_keys (VStr "G") (VStr "Key1") (VStr "H") [VStr "FK"] in
  let once := propagate (after call w) in
  same_edges once (propagate (after call once)) ∧
  same_edges once (propagate (after call (after call w))).
Proof.
  assert (wf (after (insert (VStr "G") (VStr "Key1") (VStr "Value1")
                       (VSet []) (VDict [])) init)) as Hwf.
  { apply (bool_decide_unpack _). vm_compute. exact I. }
  apply (proj2 (add_keys_idempotent (VStr "G") (VStr "Key1") (VStr "H")
                  [VStr "FK"]
                  (after (insert (VStr "G") (VStr "Key1") (VStr "Value1")
                            (VSet []) (VDict [])) init) Hwf)).
Defined.

(** ** The reads of the manager *)

Lemma remote_read_stores (h : handle) (m : msg) (w : world) :
  additive m = false → (∀ G, Store.handle_msg m G = G) →
  stores (after (remote h m) w) = stores w.
Proof.
  intros _ Hid. apply (alter_redundant (stores w) (h, m)). intros G _. apply Hid.
Qed.

(** What [select_local_keys(graph_id, key)] returns for a key is the local
    edge set of the data model. *)
Lemma select_local_keys_One (graph_id key : value) (w : world) (S : gset value) :
  outcome (select_local_keys graph_id key) w = inr (Store.One S) →
  LocalEdgeSet w graph_id key = S.
Proof.
  unfold outcome. destruct (select_local_keys graph_id key w) as [r w'] eqn:Hrun.
  simpl. intros ->. unfold select_local_keys in Hrun.
  invert_bind Hrun h w1 E1. apply dict_get_inr in E1 as (_ & Hg & ->).
  invert_bind Hrun t w1 E2. apply get_transaction_id_inr in E2 as (-> & ->).
  invert_bind Hrun u w1 E3. apply remote_inr in E3.
  invert_bind Hrun G w2 E4. unfold actor_state in E4.
  destruct (actors (ray w1) !! h) as [G'|] eqn:HG; [|done].
  injection E4 as -> ->. apply lift_inr in Hrun as [Hsel _].
  assert (stores w !! h = Some G) as HG'.
  { rewrite <- (remote_read_stores h (SelectLocalKeys (transaction_id w) key) w)
      by done. by rewrite <- E3. }
  unfold LocalEdgeSet, store_of. rewrite Hg. simpl. rewrite HG'. simpl.
  unfold Store.select in Hsel.
  destruct key; destruct (Store.local_edges G !! _); by simplify_eq.
Qed.

(** What [select_foreign_keys(graph_id, key)] returns for a key is the
    foreign edge map of the data model. *)
Lemma select_foreign_keys_One (graph_id key : value) (w : world)
    (fm : gmap value (gset value)) :
  outcome (select_foreign_keys graph_id key) w = inr (Store.One fm) →
  ForeignEdgeMap w graph_id key = fm.
Proof.
  unfold outcome. destruct (select_foreign_keys graph_id key w) as [r w'] eqn:Hrun.
  simpl. intros ->. unfold select_foreign_keys in Hrun.
  invert_bind Hrun h w1 E1. apply dict_get_inr in E1 as (_ & Hg & ->).
  invert_bind Hrun t w1 E2. apply get_transaction_id_inr in E2 as (-> & ->).
  invert_bind Hrun u w1 E3. apply remote_inr in E3.
  invert_bind Hrun G w2 E4. unfold actor_state in E4.
  destruct (actors (ray w1) !! h) as [G'|] eqn:HG; [|done].
  injection E4 as -> ->. apply lift_inr in Hrun as [Hsel _].
  assert (stores w !! h = Some G) as HG'.
  { rewrite <- (remote_read_stores h (SelectForeignKeys (transaction_id w) key) w)
      by done. by rewrite <- E3. }
  unfold ForeignEdgeMap, store_of. rewrite Hg. simpl. rewrite HG'. simpl.
  unfold Store.select in Hsel.
  destruct key; destruct (Store.foreign_edges G !! _); by simplify_eq.
Qed.

(** ** Reachable worlds *)

Lemma wf_propagate (w : world) : wf w → wf (propagate w).
Proof.
  intros Hwf g h. rewrite propagate_registry. intros Hg.
  apply lookup_lt_is_Some. eapply mono_is_Some_store; [apply propagate_mono|].
  apply lookup_lt_is_Some. by apply (Hwf g).
Qed.

(** Whatever calls the client makes on a fresh manager, and whenever the
    queued tasks run in between, the world stays well formed; so the
    properties stated for well-formed worlds hold at every moment of a run. *)
Lemma wf_reachable (es : list event) : wf (run_events es init).
Proof.
  assert (wf init) as Hinit.
  { intros g h. unfold registry, init. simpl. by rewrite lookup_empty. }
  revert Hinit. generalize init. induction es as [|e es IH]; intros w Hwf.
  - done.
  - change (run_events (e :: es) w) with (run_events es (run_event e w)).
    apply IH. destruct e; simpl.
    + by apply wf_run_call.
    + by apply wf_propagate.
Qed.

(** ** The order in which the queued tasks run does not matter *)

Lemma update_commute {A} (d : A) (f1 f2 : A → A) (k1 k2 : value)
    (m : gmap value A) :
  (k1 = k2 → ∀ x, f1 (f2 x) = f2 (f1 x)) →
  <[ k1 := f1 (default d (<[ k2 := f2 (default d (m !! k2)) ]> m !! k1)) ]>
    (<[ k2 := f2 (default d (m !! k2)) ]> m)
  = <[ k2 := f2 (default d (<[ k1 := f1 (default d (m !! k1)) ]> m !! k2)) ]>
      (<[ k1 := f1 (default d (m !! k1)) ]> m).
Proof.
  intros Hcomm. destruct (decide (k1 = k2)) as [->|Hne].
  - rewrite !lookup_insert_eq. simpl. rewrite !insert_insert_eq.
    by rewrite Hcomm.
  - rewrite !lookup_insert_ne by done. by apply insert_insert_ne.
Qed.

Lemma union_swap (S X1 X2 : gset value) : S ∪ X2 ∪ X1 = S ∪ X1 ∪ X2.
Proof. by rewrite <- !(assoc_L (∪)), (comm_L (∪) X2 X1). Qed.

Lemma add_bucket_commute (g1 g2 : value) (X1 X2 : gset value)
    (fm : gmap value (gset value)) :
  Store.add_bucket g1 X1 (Store.add_bucket g2 X2 fm)
  = Store.add_bucket g2 X2 (Store.add_bucket g1 X1 fm).
Proof.
  unfold Store.add_bucket.
  apply (update_commute ∅ (λ S, S ∪ X1) (λ S, S ∪ X2)).
  intros _ S. apply union_swap.
Qed.

Lemma handle_msg_commute (m1 m2 : msg) (G : Store.Graph) :
  additive m1 = true → additive m2 = true →
  Store.handle_msg m1 (Store.handle_msg m2 G)
  = Store.handle_msg m2 (Store.handle_msg m1 G).
Proof.
  destruct m1 as [| |t1 k1 ks1|t1 k1 g1 ks1| | | |]; try done.
  - destruct m2 as [| |t2 k2 ks2|t2 k2 g2 ks2| | | |]; try done. intros _ _.
    simpl. unfold Store.add_local_keys. simpl. f_equal.
    apply (update_commute ∅ (λ S, S ∪ list_to_set ks1)
             (λ S, S ∪ list_to_set ks2)).
    intros _ S. apply union_swap.
  - destruct m2 as [| |t2 k2 ks2|t2 k2 g2 ks2| | | |]; try done. intros _ _.
    simpl. unfold Store.add_foreign_keys. simpl. f_equal.
    apply (update_commute ∅ (Store.add_bucket g1 (list_to_set ks1))
             (Store.add_bucket g2 (list_to_set ks2))).
    intros _ fm. apply add_bucket_commute.
Qed.

Lemma alter_commute (hm1 hm2 : handle * msg) (l : list Store.Graph) :
  additive hm1.2 = true → additive hm2.2 = true →
  alter (Store.handle_msg hm1.2) hm1.1 (alter (Store.handle_msg hm2.2) hm2.1 l)
  = alter (Store.handle_msg hm2.2) hm2.1 (alter (Store.handle_msg hm1.2) hm1.1 l).
Proof.
  intros H1 H2. apply list_eq. intros i.
  destruct (decide (hm1.1 = i)) as [E1|N1], (decide (hm2.1 = i)) as [E2|N2].
  - rewrite E1, E2, !list_lookup_alter_eq.
    destruct (l !! i) as [G|]; [|done]. simpl. f_equal.
    exact (handle_msg_commute _ _ _ H1 H2).
  - rewrite E1.
    by repeat first [ rewrite list_lookup_alter_eq
                    | rewrite list_lookup_alter_ne by done ].
  - rewrite E2.
    by repeat first [ rewrite list_lookup_alter_eq
                    | rewrite list_lookup_alter_ne by done ].
  - by rewrite !list_lookup_alter_ne.
Qed.

Lemma deliver_app (ms1 ms2 : list (handle * msg)) (w : world) :
  deliver (ms1 ++ ms2) w = deliver ms2 (deliver ms1 w).
Proof.
  unfold deliver. simpl. by rewrite foldl_app, app_assoc.
Qed.

Lemma deliver_permutation_stores (ms ms' : list (handle * msg)) (w : world) :
  ms ≡ₚ ms' → Forall (λ hm, additive hm.2 = true) ms →
  stores (deliver ms w) = stores (deliver ms' w).
Proof.
  intros Hperm. unfold deliver, stores. simpl. generalize (actors (ray w)).
  induction Hperm as [|hm ms ms' _ IH|hm1 hm2 ms|ms1 ms2 ms3 H12 IH12 H23 IH23];
    intros l Hadd.
  - done.
  - simpl. apply IH. by apply Forall_cons_1 in Hadd as [_ ?].
  - simpl. apply Forall_cons_1 in Hadd as [H2 Hadd].
    apply Forall_cons_1 in Hadd as [H1 _]. by rewrite alter_commute.
  - rewrite IH12 by done. apply IH23. by rewrite <- H12.
Qed.

Lemma task_calls_additive (t : task) :
  Forall (λ hm, additive hm.2 = true) (task_calls t).
Proof.
  destruct t; simpl.
  - destruct (Py.iter local_keys); [done|]. by apply Forall_map, Forall_true.
  - destruct (Py.iter f_keys); [done|]. by apply Forall_map, Forall_true.
Qed.

Lemma pending_calls_additive (w : world) :
  Forall (λ hm, additive hm.2 = true) (pending_calls w).
Proof.
  unfold pending_calls. apply Forall_concat, Forall_map, list.Forall_forall.
  intros t _. apply task_calls_additive.
Qed.

Lemma run_tasks_deliver (ts : list task) (w : world) :
  foldl (λ w' t, run_task t w') w ts = deliver (concat (map task_calls ts)) w.
Proof.
  revert w. induction ts as [|t ts IH]; intros w; simpl.
  - by rewrite deliver_nil.
  - by rewrite IH, run_task_calls, deliver_app.
Qed.

Lemma propagate_deliver (w : world) :
  propagate w = deliver (pending_calls w) (clear_tasks w).
Proof. apply run_tasks_deliver. Qed.

(** Whatever the order in which the calls of the queued tasks reach the
    stores, at the granularity of single calls, the stores end up as
    [propagate] leaves them. *)
Lemma propagate_any_order (w : world) (ms : list (handle * msg)) :
  ms ≡ₚ pending_calls w →
  stores (deliver ms (clear_tasks w)) = stores (propagate w) ∧
  registry (deliver ms (clear_tasks w)) = registry (propagate w).
Proof.
  intros Hperm. rewrite propagate_deliver. split; [|done].
  symmetry. apply deliver_permutation_stores; [done|].
  apply pending_calls_additive.
Qed.

(** * Further properties of the manager *)

(** ** The registry over a run *)

Lemma registry_run_call (c : call) (w : world) :
  registry w ⊆ registry (after (run_call c) w).
Proof.
  destruct (run_call_split stamped c stamped_remote) as (rest & -> & Hrest).
  destruct (Hrest (after incr_transaction_id w)) as (_ & Hsub & _). exact Hsub.
Qed.

Lemma registry_run_events (es : list event) (w : world) :
  registry w ⊆ registry (run_events es w).
Proof.
  revert w. induction es as [|e es IH]; intros w; [done|].
  change (run_events (e :: es) w) with (run_events es (run_event e w)).
  etransitivity; [|apply IH]. destruct e; simpl.
  - apply registry_run_call.
  - by rewrite propagate_registry.
Qed.

(** X1: a graph name, once registered, stays registered under the same
    handle whatever calls follow and whenever the queued tasks run: no
    method removes a name from the registry or binds it to another store. *)
Theorem registry_never_rebinds (es : list event) (w : world) (g : value)
    (h : handle) :
  registry w !! g = Some h → registry (run_events es w) !! g = Some h.
Proof. intros Hg. eapply lookup_weaken; [exact Hg|]. apply registry_run_events. Qed.

Lemma registry_never_rebinds_witness :
  registry (run_events
              [Call (InsertRow (VStr "G") (VStr "K") (VStr "V") (VSet [])
                       (VDict [(VStr "H", VStr "F")]));
               Call (DeleteRow (VStr "G") (VStr "K"));
               RunTasks;
               Call (CreateGraph (VStr "G"))]
              (after (create_graph (VStr "G") true) init))
  !! VStr "G" = Some 0%nat.
Proof.
  apply (registry_never_rebinds _ (after (create_graph (VStr "G") true) init)
           (VStr "G") 0%nat).
  reflexivity.
Defined.

Lemma deliver_length (ms : list (handle * msg)) (w : world) :
  length (stores (deliver ms w)) = length (stores w).
Proof.
  unfold deliver, stores. simpl. generalize (actors (ray w)).
  induction ms as [|hm ms IH]; intros l; simpl; [done|].
  by rewrite IH, length_alter.
Qed.

Lemma propagate_length (w : world) :
  length (stores (propagate w)) = length (stores w).
Proof. by rewrite propagate_deliver, deliver_length. Qed.

#[export] Instance keeps_bijective_preorder : PreOrder keeps_bijective.
Proof.
  split; [intros w; unfold keeps_bijective; auto|].
  intros w1 w2 w3. unfold keeps_bijective. auto.
Qed.

Lemma registry_bijective_new_graph (g : value) (w : world) :
  registry w !! g = None →
  registry_bijective w → registry_bijective (with_new_graph g w).
Proof.
  intros Hg (Hwf & Hinj & Hsurj & Hsize).
  split; [by apply wf_with_new_graph|].
  unfold with_new_graph, registry, stores. simpl.
  fold (registry w) (stores w). split; [|split].
  - intros g1 g2 h.
    destruct (decide (g = g1)) as [<-|N1], (decide (g = g2)) as [<-|N2];
      rewrite ?lookup_insert_eq, ?lookup_insert_ne by done; try done.
    + intros [= <-] H2. specialize (Hwf g2 _ H2). simpl in Hwf. lia.
    + intros H1 [= <-]. specialize (Hwf g1 _ H1). simpl in Hwf. lia.
    + apply Hinj.
  - intros h. rewrite length_app. simpl. intros Hlt.
    destruct (decide (h = length (stores w))) as [->|Hne].
    + exists g. by rewrite lookup_insert_eq.
    + destruct (Hsurj h) as [g' Hg']; [lia|]. exists g'.
      rewrite lookup_insert_ne; [done|]. intros <-. congruence.
  - rewrite map_size_insert_None by done. rewrite length_app. simpl. lia.
Qed.

Lemma registry_bijective_same (w w' : world) :
  registry w' = registry w → length (stores w') = length (stores w) →
  registry_bijective w → registry_bijective w'.
Proof.
  intros Hr Hl (Hwf & Hinj & Hsurj & Hsize). unfold registry_bijective, wf.
  rewrite Hr, Hl. done.
Qed.

#[export] Instance keeps_bijective_stable : Stable keeps_bijective.
Proof.
  split; [apply _|..].
  - intros g w _ Hg Hw. by apply registry_bijective_new_graph.
  - intros t w Hw. by apply (registry_bijective_same w).
  - intros g w Hw. by apply (registry_bijective_same w).
Qed.

Lemma keeps_bijective_remote h m : preserves keeps_bijective (remote h m).
Proof.
  intros w Hw. apply (registry_bijective_same w); [done| |done].
  unfold after, remote, stores. simpl. apply length_alter.
Qed.

Lemma registry_bijective_run_call (c : call) (w : world) :
  registry_bijective w → registry_bijective (after (run_call c) w).
Proof.
  destruct (run_call_split keeps_bijective c keeps_bijective_remote)
    as (rest & -> & Hrest).
  intros Hw. apply (Hrest (after incr_transaction_id w)).
  by apply (registry_bijective_same w).
Qed.

Lemma registry_bijective_propagate (w : world) :
  registry_bijective w → registry_bijective (propagate w).
Proof.
  apply registry_bijective_same; [apply propagate_registry|apply propagate_length].
Qed.

(** X2: at every moment of a run that starts from a fresh manager the
    registry names the stores one to one: every registered handle refers to
    an existing store, distinct names have distinct stores, every store
    created is registered, and there are as many names as stores. *)
Theorem reachable_registry_bijective (es : list event) :
  registry_bijective (run_events es init).
Proof.
  assert (registry_bijective init) as Hinit.
  { split; [|split; [|split]].
    - intros g h. unfold registry, init. simpl. by rewrite lookup_empty.
    - intros g1 g2 h. unfold registry, init. simpl. by rewrite lookup_empty.
    - intros h. unfold stores, init. simpl. lia.
    - done. }
  revert Hinit. generalize init. induction es as [|e es IH]; intros w Hw.
  - done.
  - change (run_events (e :: es) w) with (run_events es (run_event e w)).
    apply IH. destruct e; simpl.
    + by apply registry_bijective_run_call.
    + by apply registry_bijective_propagate.
Qed.

(** ** The reads of the manager leave it alone *)

Lemma read_only_remote (h : handle) (m : msg) (w : world) :
  read_only w (after (remote h m) w).
Proof.
  repeat split. unfold after, remote, stores. simpl. apply length_alter.
Qed.

(** A read of the store registered under [graph_id]: look the handle up,
    send the call, wait for the reply and compute the result from the state
    of the store. *)
Lemma store_read_run {A} (graph_id : value) (call_of : Z → msg)
    (result : Store.Graph → Py.exn + A) (w : world) :
  (graph <- dict_get graph_id ;;
   transaction_id <- get_transaction_id ;;
   remote graph (call_of transaction_id) ;;
   G <- actor_state graph ;;
   lift (result G))%py w
  = if Py.hashable graph_id
    then match registry w !! graph_id with
         | Some h =>
             let w' := after (remote h (call_of (transaction_id w))) w in
             (match stores w' !! h with
              | Some G => result G
              | None => inl Py.RayActorError
              end, w')
         | None => (inl (Py.KeyError graph_id), w)
         end
    else (inl (Py.TypeError "unhashable type"), w).
Proof.
  unfold bind, dict_get, registry. destruct (Py.hashable graph_id); [|done].
  destruct (graph_dict (self w) !! graph_id) as [h|]; [|done]. simpl.
  unfold actor_state, stores, after. simpl.
  by destruct (alter _ h (actors (ray w)) !! h).
Qed.

Lemma store_read_read_only {A} (graph_id : value) (call_of : Z → msg)
    (result : Store.Graph → Py.exn + A) (w : world) :
  read_only w
    (after (graph <- dict_get graph_id ;;
            transaction_id <- get_transaction_id ;;
            remote graph (call_of transaction_id) ;;
            G <- actor_state graph ;;
            lift (result G))%py w).
Proof.
  unfold after at 1. rewrite store_read_run.
  destruct (Py.hashable graph_id); [|by repeat split].
  destruct (registry w !! graph_id) as [h|]; [|by repeat split].
  apply read_only_remote.
Qed.

Lemma node_exists_read_only (graph_id key : value) (w : world) :
  read_only w (after (node_exists graph_id key) w).
Proof.
  unfold after, node_exists, bind, dict_contains, dict_get, actor_state.
  destruct (Py.hashable graph_id); [|by repeat split]. simpl.
  destruct (graph_dict (self w) !! graph_id) as [h|] eqn:Hg.
  - rewrite bool_decide_eq_true_2 by (by eexists). simpl. rewrite Hg. simpl.
    destruct (alter _ h (actors (ray w)) !! h); simpl;
      apply (read_only_remote h (RowExists key) w).
  - rewrite bool_decide_eq_false_2 by (by intros [? ?]). by repeat split.
Qed.

(** X4: the reads [select_row], [select_local_keys], [select_foreign_keys],
    [get_graph] and [node_exists] never advance the transaction counter,
    never change the registry, never queue a task, print nothing and create
    no actor, whatever their outcome; and the first four, addressed to a
    graph name that is not registered, raise [KeyError] and leave the world
    exactly as it was (unlike [insert], they do not create the graph). *)
Theorem reads_leave_manager_alone (graph_id key : value) (w : world) :
  (read_only w (after (select_row graph_id key) w) ∧
   read_only w (after (select_local_keys graph_id key) w) ∧
   read_only w (after (select_foreign_keys graph_id key) w) ∧
   read_only w (after (get_graph graph_id) w) ∧
   read_only w (after (node_exists graph_id key) w)) ∧
  (Py.hashable graph_id = true → registry w !! graph_id = None →
   select_row graph_id key w = (inl (Py.KeyError graph_id), w) ∧
   select_local_keys graph_id key w = (inl (Py.KeyError graph_id), w) ∧
   select_foreign_keys graph_id key w = (inl (Py.KeyError graph_id), w) ∧
   get_graph graph_id w = (inl (Py.KeyError graph_id), w)).
Proof.
  split.
  - split; [apply store_read_read_only|]. split; [apply store_read_read_only|].
    split; [apply store_read_read_only|]. split; [|apply node_exists_read_only].
    unfold after, get_graph, dict_get.
    destruct (Py.hashable graph_id); [|by repeat split].
    destruct (graph_dict (self w) !! graph_id); by repeat split.
  - intros Hh Hg. unfold select_row, select_local_keys, select_foreign_keys.
    rewrite !store_read_run, Hh, Hg. repeat split.
    unfold get_graph, dict_get, registry in *. by rewrite Hh, Hg.
Qed.

Lemma reads_leave_manager_alone_witness :
  select_local_keys (VStr "Unknown") (VStr "Key")
    (after (create_graph (VStr "G") true) init)
  = (inl (Py.KeyError (VStr "Unknown")), after (create_graph (VStr "G") true) init).
Proof.
  apply (proj2 (reads_leave_manager_alone (VStr "Unknown") (VStr "Key")
                  (after (create_graph (VStr "G") true) init)));
    reflexivity.
Defined.

(** ** What a successful [insert] sends and launches *)

Lemma normalize_run (local_keys : value) (w : world) :
  try_except_TypeError (lift (Py.set_of [local_keys]))
    (items <- lift (Py.iter local_keys) ;; lift (Py.set_of items)) w
  = (normalize local_keys, w).
Proof.
  unfold normalize, try_except_TypeError, lift, bind, Py.set_of. simpl.
  destruct (Py.hashable local_keys); simpl; [done|].
  by destruct (Py.iter local_keys).
Qed.

Lemma create_if_not_exists_frame (g : value) (w : world) :
  sent (ray (after (_create_if_not_exists g) w)) = sent (ray w) ∧
  tasks (ray (after (_create_if_not_exists g) w)) = tasks (ray w) ∧
  transaction_id (after (_create_if_not_exists g) w) = transaction_id w ∧
  registry w ⊆ registry (after (_create_if_not_exists g) w).
Proof.
  split; [|split; [|split]].
  - unfold after. rewrite create_if_not_exists_run. by repeat case_match.
  - unfold after. rewrite create_if_not_exists_run. by repeat case_match.
  - apply (stable_create_if_not_exists same_tid).
  - apply (stable_create_if_not_exists mono).
Qed.

Lemma insert_loop_body_inr graph_id key items g w w' :
  insert_loop_body graph_id key (VDict items) g w = (inr tt, w') →
  ∃ h v,
    registry w' !! g = Some h ∧ Py.getitem items g = inr v ∧
    transaction_id w' = transaction_id w ∧ sent (ray w') = sent (ray w) ∧
    registry w ⊆ registry w' ∧
    tasks (ray w')
    = (tasks (ray w)
       ++ [ForeignBackEdges (transaction_id w) h key graph_id v])%list.
Proof.
  intros Hrun. unfold insert_loop_body in Hrun.
  invert_bind Hrun u1 w1 E1.
  apply create_if_not_exists_inr in E1 as (_ & _ & ->).
  destruct (create_if_not_exists_frame g w) as (Hsent & Htasks & Htid & Hsub).
  invert_bind Hrun t w1 E2. apply get_transaction_id_inr in E2 as (-> & ->).
  invert_bind Hrun h w1 E3. apply dict_get_inr in E3 as (_ & Hg & ->).
  invert_bind Hrun v w1 E4. apply lift_inr in E4 as (Hv & ->).
  apply spawn_inr in Hrun as ->. exists h, v.
  unfold after at 1 3 5 6 7, spawn. simpl.
  split; [done|]. split; [done|]. split; [done|]. split; [done|].
  split; [done|]. by rewrite Htasks, Htid.
Qed.

Lemma insert_loop_inr graph_id key items ids w w' :
  for_each ids (insert_loop_body graph_id key (VDict items)) w = (inr tt, w') →
  ∃ ts,
    transaction_id w' = transaction_id w ∧ sent (ray w') = sent (ray w) ∧
    registry w ⊆ registry w' ∧
    tasks (ray w') = (tasks (ray w) ++ ts)%list ∧
    Forall2 (λ g t, ∃ h v,
               registry w' !! g = Some h ∧ Py.getitem items g = inr v ∧
               t = ForeignBackEdges (transaction_id w) h key graph_id v)
      ids ts.
Proof.
  revert w. induction ids as [|g ids IH]; intros w Hrun.
  - injection Hrun as <-. exists []. rewrite app_nil_r.
    repeat split; [done|constructor].
  - simpl in Hrun. invert_bind Hrun u w1 E.
    destruct u. apply insert_loop_body_inr in E
      as (h & v & Hg & Hv & Htid1 & Hsent1 & Hsub1 & Htasks1).
    destruct (IH w1 Hrun) as (ts & Htid & Hsent & Hsub & Htasks & Hall).
    exists (ForeignBackEdges (transaction_id w) h key graph_id v :: ts).
    split; [congruence|]. split; [congruence|]. split; [by etransitivity|].
    split; [by rewrite Htasks, Htasks1, <- app_assoc|].
    constructor.
    + exists h, v. split; [|done]. by eapply lookup_weaken.
    + by rewrite <- Htid1.
Qed.

(** X5: what a successful [insert] has done.  [foreign_keys] was a
    dictionary and [local_keys] could be turned into a set; the counter has
    advanced by one; exactly one method call has been sent, the store's
    [insert] with the arguments as given and the new transaction id, to the
    store registered under [graph_id]; and the task queue has gained one
    local back-edge task for that store, carrying the set made from
    [local_keys], followed by one foreign back-edge task for each name of
    [foreign_keys], in the order of the dictionary, addressed to the store
    registered under that name and carrying the value stored under it, all
    with the new transaction id.  No edge is mirrored by [insert] itself. *)
Theorem insert_launches (graph_id key node local_keys foreign_keys : value)
    (w w' : world) :
  insert graph_id key node local_keys foreign_keys w = (inr tt, w') →
  ∃ items h lks ts,
    foreign_keys = VDict items ∧
    normalize local_keys = inr lks ∧
    registry w' !! graph_id = Some h ∧
    transaction_id w' = transaction_id w + 1 ∧
    sent (ray w')
    = (sent (ray w)
       ++ [(h, Insert key node local_keys foreign_keys (transaction_id w + 1))])%list ∧
    tasks (ray w')
    = (tasks (ray w)
       ++ LocalBackEdges (transaction_id w + 1) h key (VSet lks) :: ts)%list ∧
    Forall2 (λ g t, ∃ h' v,
               registry w' !! g = Some h' ∧ Py.getitem items g = inr v ∧
               t = ForeignBackEdges (transaction_id w + 1) h' key graph_id v)
      items.*1 ts.
Proof.
  intros Hrun. unfold insert in Hrun.
  invert_bind Hrun u1 w1 E1. apply incr_inr in E1 as ->.
  invert_bind Hrun u2 w1 E2. apply raise_if_inr in E2 as [Hd ->].
  destruct foreign_keys as [| | | | | |items|items]; try done. clear Hd.
  invert_bind Hrun u3 w2 E3.
  apply create_if_not_exists_inr in E3 as (_ & _ & ->).
  destruct (create_if_not_exists_frame graph_id (after incr_transaction_id w))
    as (Hsent2 & Htasks2 & Htid2 & Hsub2).
  set (w2 := after (_create_if_not_exists graph_id) (after incr_transaction_id w))
    in *.
  change (transaction_id (after incr_transaction_id w))
    with (transaction_id w + 1) in Htid2.
  change (sent (ray (after incr_transaction_id w))) with (sent (ray w)) in Hsent2.
  change (tasks (ray (after incr_transaction_id w))) with (tasks (ray w)) in Htasks2.
  invert_bind Hrun h w2' E4. apply dict_get_inr in E4 as (_ & Hh & ->).
  invert_bind Hrun t w2' E5. apply get_transaction_id_inr in E5 as (-> & ->).
  invert_bind Hrun u4 w3 E6. apply remote_inr in E6.
  invert_bind Hrun lks w3' E7. rewrite normalize_run in E7.
  injection E7 as Hlks <-.
  invert_bind Hrun t' w3' E8. apply get_transaction_id_inr in E8 as (-> & ->).
  invert_bind Hrun h' w3' E9. apply dict_get_inr in E9 as (_ & Hh' & ->).
  assert (h' = h) as ->.
  { rewrite E6 in Hh'. unfold registry, after in Hh'. simpl in Hh'.
    unfold registry in Hh. congruence. }
  invert_bind Hrun u5 w4 E10. apply spawn_inr in E10.
  invert_bind Hrun ids w4' E11. apply lift_inr in E11 as ([= <-] & ->).
  apply (insert_loop_inr graph_id key items (items.*1) w4 w') in Hrun
    as (ts & Htid & Hsent & Hsub & Htasks & Hall).
  assert (transaction_id w4 = transaction_id w + 1) as Htid4.
  { by rewrite E10, E6. }
  exists items, h, lks, ts.
  split; [done|]. split; [done|]. split; [|split; [congruence|split; [|split]]].
  - eapply lookup_weaken; [|exact Hsub]. by rewrite E10, E6.
  - rewrite Hsent, E10, E6. unfold after, spawn, remote. simpl.
    by rewrite Hsent2, Htid2.
  - assert (tasks (ray w3) = tasks (ray w)) as Htasks3.
    { rewrite E6. exact Htasks2. }
    assert (transaction_id w3 = transaction_id w + 1) as Htid3.
    { rewrite E6. exact Htid2. }
    rewrite Htasks, E10. unfold after, spawn. simpl.
    by rewrite Htasks3, Htid3, <- app_assoc.
  - by rewrite <- Htid4.
Qed.

Lemma insert_launches_witness :
  ∃ items h lks ts,
    VDict [(VStr "H", VStr "FK")] = VDict items ∧
    normalize (VTuple [VStr "a"; VStr "b"]) = inr lks ∧
    registry (after (insert (VStr "G") (VStr "K") (VStr "V")
                       (VTuple [VStr "a"; VStr "b"])
                       (VDict [(VStr "H", VStr "FK")])) init)
      !! VStr "G" = Some h ∧
    transaction_id (after (insert (VStr "G") (VStr "K") (VStr "V")
                             (VTuple [VStr "a"; VStr "b"])
                             (VDict [(VStr "H", VStr "FK")])) init)
    = transaction_id init + 1 ∧
    sent (ray (after (insert (VStr "G") (VStr "K") (VStr "V")
                        (VTuple [VStr "a"; VStr "b"])
                        (VDict [(VStr "H", VStr "FK")])) init))
    = (sent (ray init)
       ++ [(h, Insert (VStr "K") (VStr "V") (VTuple [VStr "a"; VStr "b"])
                 (VDict [(VStr "H", VStr "FK")]) (transaction_id init + 1))])%list ∧
    tasks (ray (after (insert (VStr "G") (VStr "K") (VStr "V")
                         (VTuple [VStr "a"; VStr "b"])
                         (VDict [(VStr "H", VStr "FK")])) init))
    = (tasks (ray init)
       ++ LocalBackEdges (transaction_id init + 1) h (VStr "K") (VSet lks) :: ts)%list ∧
    Forall2 (λ g t, ∃ h' v,
               registry (after (insert (VStr "G") (VStr "K") (VStr "V")
                                  (VTuple [VStr "a"; VStr "b"])
                                  (VDict [(VStr "H", VStr "FK")])) init)
                 !! g = Some h' ∧
               Py.getitem items g = inr v ∧
               t = ForeignBackEdges (transaction_id init + 1) h' (VStr "K")
                     (VStr "G") v)
      items.*1 ts.
Proof.
  apply (insert_launches (VStr "G") (VStr "K") (VStr "V")
           (VTuple [VStr "a"; VStr "b"]) (VDict [(VStr "H", VStr "FK")]) init).
  reflexivity.
Defined.

(** ** Calls that fail half way *)

(** X6: when [local_keys] can neither be hashed nor turned into a set of
    hashable elements, [insert] raises the [TypeError] of that conversion
    only after the row has been sent to the store: the graph has been
    created if it was missing, the store's [insert] has been sent with the
    new transaction id, and no back-edge task has been queued. *)
Theorem insert_fails_after_row_write
    (graph_id key node local_keys : value) (items : list (value * value))
    (e : Py.exn) (w : world) :
  valid_name graph_id = true →
  normalize local_keys = inl e →
  let w2 := after (_create_if_not_exists graph_id) (after incr_transaction_id w) in
  ∃ h,
    registry w2 !! graph_id = Some h ∧
    tasks (ray w2) = tasks (ray w) ∧
    insert graph_id key node local_keys (VDict items) w
    = (inl e,
       after (remote h (Insert key node local_keys (VDict items)
                          (transaction_id w + 1))) w2).
Proof.
  intros Hv Hn w2. pose proof (valid_name_spec _ Hv) as [Hh _].
  destruct (create_if_not_exists_valid graph_id (after incr_transaction_id w) Hv)
    as (w2' & Hrun2 & [h Hg] & _).
  assert (w2' = w2) as ->.
  { unfold w2, after at 1. by rewrite Hrun2. }
  destruct (create_if_not_exists_frame graph_id (after incr_transaction_id w))
    as (_ & Htasks2 & Htid2 & _).
  fold w2 in Htasks2, Htid2.
  change (transaction_id (after incr_transaction_id w))
    with (transaction_id w + 1) in Htid2.
  exists h. split; [done|]. split; [done|]. unfold insert.
  rewrite (bind_eq _ _ w tt (after incr_transaction_id w)) by reflexivity.
  cbv beta.
  rewrite (bind_eq _ _ _ tt (after incr_transaction_id w)) by reflexivity.
  cbv beta. rewrite (bind_eq _ _ _ _ _ Hrun2). cbv beta.
  rewrite (bind_eq _ _ _ _ _ (dict_get_Some graph_id h w2 Hh Hg)). cbv beta.
  rewrite (bind_eq _ _ w2 (transaction_id w2) w2) by reflexivity. cbv beta.
  rewrite (bind_eq _ _ w2 tt
             (after (remote h (Insert key node local_keys (VDict items)
                                 (transaction_id w2))) w2)) by reflexivity.
  cbv beta. unfold bind at 1. rewrite normalize_run, Hn. by rewrite Htid2.
Qed.

Lemma insert_fails_after_row_write_witness :
  ∃ h,
    registry (after (_create_if_not_exists (VStr "G"))
                (after incr_transaction_id init)) !! VStr "G" = Some h ∧
    tasks (ray (after (_create_if_not_exists (VStr "G"))
                  (after incr_transaction_id init))) = tasks (ray init) ∧
    insert (VStr "G") (VStr "K") (VStr "V") (VList [VList []]) (VDict []) init
    = (inl (Py.TypeError "unhashable type"),
       after (remote h (Insert (VStr "K") (VStr "V") (VList [VList []]) (VDict [])
                          (transaction_id init + 1)))
         (after (_create_if_not_exists (VStr "G"))
            (after incr_transaction_id init))).
Proof.
  apply (insert_fails_after_row_write (VStr "G") (VStr "K") (VStr "V")
           (VList [VList []]) [] (Py.TypeError "unhashable type") init);
    reflexivity.
Defined.

(** X7: the graphs that [insert] and [add_foreign_keys] create on the way
    are subject to the name check of [create_graph].  Addressed to an
    unregistered name that is empty or absent, [insert] prints the warning
    and raises [InvalidName], having created nothing and sent nothing; and
    [add_foreign_keys] naming such an other graph raises [InvalidName] after
    the store of [graph_id] has received the forward edges, with no task
    queued to mirror them. *)
Theorem auto_creation_rejects_empty_names (w : world) :
  (∀ graph_id key node local_keys items,
     Py.hashable graph_id = true → Py.truthy graph_id = false →
     registry w !! graph_id = None →
     insert graph_id key node local_keys (VDict items) w
     = (inl InvalidName,
        after (print_warning graph_id) (after incr_transaction_id w))) ∧
  (∀ graph_id key other_graph_id foreign_keys h,
     Py.hashable graph_id = true → registry w !! graph_id = Some h →
     Py.hashable other_graph_id = true → Py.truthy other_graph_id = false →
     registry w !! other_graph_id = None →
     add_foreign_keys graph_id key other_graph_id foreign_keys w
     = (inl InvalidName,
        after (print_warning other_graph_id)
          (after (remote h (AddForeignKeys (transaction_id w + 1) key
                              other_graph_id foreign_keys))
             (after incr_transaction_id w)))).
Proof.
  split.
  - intros graph_id key node local_keys items Hh Ht Hg. unfold insert.
    rewrite (bind_eq _ _ w tt (after incr_transaction_id w)) by reflexivity.
    cbv beta.
    rewrite (bind_eq _ _ _ tt (after incr_transaction_id w)) by reflexivity.
    cbv beta. unfold bind at 1. rewrite create_if_not_exists_run, Hh, Ht.
    change (registry (after incr_transaction_id w)) with (registry w).
    rewrite bool_decide_eq_false_2 by (rewrite Hg; by intros [? ?]). done.
  - intros graph_id key other_graph_id foreign_keys h Hh Hg Hho Hto Hgo.
    rewrite (add_foreign_keys_run _ _ _ _ h) by done.
    unfold bind at 1 2. rewrite create_if_not_exists_run, Hho, Hto.
    set (w1 := after (remote h _) _).
    change (registry w1) with (registry w).
    rewrite bool_decide_eq_false_2 by (rewrite Hgo; by intros [? ?]). done.
Qed.

Lemma auto_creation_rejects_empty_names_witness :
  insert (VStr "") (VStr "K") (VStr "V") (VSet []) (VDict []) init
  = (inl InvalidName,
     after (print_warning (VStr "")) (after incr_transaction_id init)) ∧
  add_foreign_keys (VStr "G") (VStr "K") VNone [VStr "F"]
    (after (create_graph (VStr "G") true) init)
  = (inl InvalidName,
     after (print_warning VNone)
       (after (remote 0%nat
                 (AddForeignKeys
                    (transaction_id (after (create_graph (VStr "G") true) init) + 1)
                    (VStr "K") VNone [VStr "F"]))
          (after incr_transaction_id (after (create_graph (VStr "G") true) init)))).
Proof.
  split.
  - apply (proj1 (auto_creation_rejects_empty_names init) (VStr "") (VStr "K")
             (VStr "V") (VSet []) []); reflexivity.
  - apply (proj2 (auto_creation_rejects_empty_names
                    (after (create_graph (VStr "G") true) init))
             (VStr "G") (VStr "K") VNone [VStr "F"] 0%nat); reflexivity.
Defined.

(** ** A call touches the stores of the graphs it names, and no other *)

#[export] Instance confined_preorder (names : list value) :
  PreOrder (confined names).
Proof.
  split.
  - intros w. split; [done|]. split; [done|]. intros t Ht. by left.
  - intros w1 w2 w3 (Hr12 & Hs12 & Ht12) (Hr23 & Hs23 & Ht23).
    split; [by etransitivity|]. split.
    + intros h G Hno HG. apply Hs23; [done|]. apply Hs12; [|done].
      intros g Hg Hgh. apply (Hno g Hg). by eapply lookup_weaken.
    + intros t Ht. destruct (Ht23 t Ht) as [Ht2|Hn]; [|by right].
      destruct (Ht12 t Ht2) as [Ht1|(g & Hg & Hgh)]; [by left|].
      right. exists g. split; [done|]. by eapply lookup_weaken.
Qed.

Lemma confined_same (names : list value) (w w' : world) :
  registry w' = registry w → stores w' = stores w →
  tasks (ray w') = tasks (ray w) → confined names w w'.
Proof.
  intros Hr Hs Ht. unfold confined. rewrite Hr, Hs, Ht.
  split; [done|]. split; [done|]. intros t ?. by left.
Qed.

Lemma confined_weaken (names names' : list value) (w w' : world) :
  (∀ g, g ∈ names → g ∈ names') → confined names w w' → confined names' w w'.
Proof.
  intros Hsub (Hr & Hs & Ht). split; [done|]. split.
  - intros h G Hno. apply Hs. intros g Hg. apply Hno, Hsub, Hg.
  - intros t Hin. destruct (Ht t Hin) as [?|(g & Hg & Hgh)]; [by left|].
    right. exists g. split; [by apply Hsub|done].
Qed.

Lemma confined_create_graph (names : list value) (g : value) :
  preserves (confined names) (create_graph g false).
Proof.
  intros w. unfold after. rewrite create_graph_no_transaction.
  destruct (Py.truthy g); simpl; [|reflexivity].
  destruct (Py.hashable g) eqn:Hh; simpl; [|reflexivity].
  destruct (bool_decide _) eqn:Hp; simpl; [reflexivity|].
  apply bool_decide_eq_false in Hp. apply eq_None_not_Some in Hp.
  split; [|split].
  - unfold with_new_graph, registry. simpl. by apply insert_subseteq.
  - intros h G _ HG. unfold with_new_graph, stores. simpl.
    by apply lookup_app_l_Some.
  - intros t Ht. by left.
Qed.

Lemma confined_create_if_not_exists (names : list value) (g : value) :
  preserves (confined names) (_create_if_not_exists g).
Proof.
  unfold _create_if_not_exists.
  apply preserves_bind; [apply _ | apply preserves_dict_contains, _ |].
  intros [|]; [apply preserves_ret, _|].
  apply preserves_bind; [apply _ | | intros _; apply confined_create_graph].
  intros w. by apply confined_same.
Qed.

Lemma confined_remote (names : list value) (g : value) (h : handle) (m : msg)
    (w : world) :
  g ∈ names → registry w !! g = Some h → confined names w (after (remote h m) w).
Proof.
  intros Hg Hgh. split; [done|]. split; [|intros t Ht; by left].
  intros h' G Hno HG. unfold after, remote, stores in *. simpl.
  rewrite list_lookup_alter_ne; [done|]. intros <-. by apply (Hno g).
Qed.

Lemma confined_spawn (names : list value) (g : value) (t : task) (w : world) :
  g ∈ names → registry w !! g = Some (task_graph t) →
  confined names w (after (spawn t) w).
Proof.
  intros Hg Hgh. split; [done|]. split; [done|].
  intros t' [Ht'|Ht']%elem_of_app; [by left|].
  apply list_elem_of_singleton in Ht' as ->. right. by exists g.
Qed.

(** Sequencing, with the outcome of the first computation at hand for the
    second. *)
Lemma bind_at (R : relation world) `{!PreOrder R} {A B} (m : M A)
    (k : A → M B) (w : world) :
  R w (after m w) →
  (∀ x w1, m w = (inr x, w1) → R w1 (after (k x) w1)) →
  R w (after (bind m k) w).
Proof.
  intros Hm Hk. unfold after, bind in *.
  destruct (m w) as [[e|x] w1] eqn:E; simpl in *; [done|].
  etransitivity; [exact Hm|]. by apply Hk.
Qed.

Lemma for_each_at (R : relation world) `{!PreOrder R} {A} (l : list A)
    (body : A → M unit) :
  (∀ x, x ∈ l → preserves R (body x)) → preserves R (for_each l body).
Proof.
  induction l as [|x l IH]; intros Hbody; simpl.
  - by apply preserves_ret.
  - apply preserves_bind; [done| |intros _; apply IH].
    + apply Hbody. by left.
    + intros y Hy. apply Hbody. by right.
Qed.

Ltac confined_step x w E :=
  apply (bind_at (confined _)); [ | intros x w E].

Lemma confined_incr (names : list value) (w : world) :
  confined names w (after incr_transaction_id w).
Proof. by apply confined_same. Qed.

Lemma confined_insert_loop_body (names : list value)
    (graph_id key foreign_keys g : value) :
  g ∈ names →
  preserves (confined names) (insert_loop_body graph_id key foreign_keys g).
Proof.
  intros Hg w. unfold insert_loop_body.
  confined_step u1 w1 E1; [apply confined_create_if_not_exists|].
  confined_step t w2 E2; [apply preserves_get_transaction_id, _|].
  confined_step h w3 E3; [apply preserves_dict_get, _|].
  apply dict_get_inr in E3 as (_ & Hh & ->).
  confined_step v w3 E4; [apply preserves_lift, _|].
  apply lift_inr in E4 as (_ & ->).
  by apply confined_spawn with g.
Qed.

Lemma confined_run_call (c : call) (w : world) :
  confined (graphs_named c) w (after (run_call c) w).
Proof.
  destruct c; simpl run_call.
  - unfold after at 1. rewrite create_graph_new_transaction.
    etransitivity; [apply (confined_incr _ w)|]. apply confined_create_graph.
  - unfold insert.
    confined_step u1 w1 E1; [apply confined_incr|].
    confined_step u2 w2 E2; [apply preserves_raise_if, _|].
    apply raise_if_inr in E2 as [Hd _].
    destruct foreign_keys as [| | | | | |items|items]; try done.
    confined_step u3 w3 E3; [apply confined_create_if_not_exists|].
    confined_step h w4 E4; [apply preserves_dict_get, _|].
    apply dict_get_inr in E4 as (_ & Hh & ->).
    confined_step t w4 E5; [apply preserves_get_transaction_id, _|].
    apply get_transaction_id_inr in E5 as (_ & ->).
    confined_step u4 w4 E6; [apply confined_remote with graph_id; [by left|done]|].
    confined_step lks w5 E7.
    { apply preserves_try_except_TypeError; [apply _|apply preserves_lift, _|].
      apply preserves_bind; [apply _|apply preserves_lift, _|].
      intros ?. apply preserves_lift, _. }
    confined_step t' w6 E8; [apply preserves_get_transaction_id, _|].
    confined_step h' w7 E9; [apply preserves_dict_get, _|].
    apply dict_get_inr in E9 as (_ & Hh' & ->).
    confined_step u5 w7 E10; [apply confined_spawn with graph_id; [by left|done]|].
    confined_step ids w8 E11; [apply preserves_lift, _|].
    apply lift_inr in E11 as ([= <-] & _).
    apply (for_each_at (confined _) (items.*1)
             (insert_loop_body graph_id key (VDict items))).
    intros g Hg. apply confined_insert_loop_body. by right.
  - unfold delete_row.
    confined_step u1 w1 E1; [apply confined_incr|].
    confined_step h w2 E2; [apply preserves_dict_get, _|].
    apply dict_get_inr in E2 as (_ & Hh & ->).
    confined_step t w2 E3; [apply preserves_get_transaction_id, _|].
    apply get_transaction_id_inr in E3 as (_ & ->).
    apply confined_remote with graph_id; [by left|done].
  - unfold add_local_keys.
    confined_step u1 w1 E1; [apply confined_incr|].
    confined_step h w2 E2; [apply preserves_dict_get, _|].
    apply dict_get_inr in E2 as (_ & Hh & ->).
    confined_step t w2 E3; [apply preserves_get_transaction_id, _|].
    apply get_transaction_id_inr in E3 as (_ & ->).
    confined_step u2 w3 E4; [apply confined_remote with graph_id; [by left|done]|].
    confined_step t' w4 E5; [apply preserves_get_transaction_id, _|].
    confined_step h' w5 E6; [apply preserves_dict_get, _|].
    apply dict_get_inr in E6 as (_ & Hh' & ->).
    apply confined_spawn with graph_id; [by left|done].
  - unfold add_foreign_keys.
    confined_step u1 w1 E1; [apply confined_incr|].
    confined_step h w2 E2; [apply preserves_dict_get, _|].
    apply dict_get_inr in E2 as (_ & Hh & ->).
    confined_step t w2 E3; [apply preserves_get_transaction_id, _|].
    apply get_transaction_id_inr in E3 as (_ & ->).
    confined_step u2 w3 E4; [apply confined_remote with graph_id; [by left|done]|].
    confined_step u3 w4 E5; [apply confined_create_if_not_exists|].
    confined_step t' w5 E6; [apply preserves_get_transaction_id, _|].
    confined_step h' w6 E7; [apply preserves_dict_get, _|].
    apply dict_get_inr in E7 as (_ & Hh' & ->).
    apply confined_spawn with other_graph_id; [|done].
    right. by left.
Qed.

Lemma task_calls_graph (t : task) (hm : handle * msg) :
  hm ∈ task_calls t → hm.1 = task_graph t.
Proof.
  destruct t; simpl.
  - destruct (Py.iter local_keys) as [e|ks]; [by intros ?%elem_of_nil|].
    intros (k & -> & _)%list_elem_of_fmap. done.
  - destruct (Py.iter f_keys) as [e|ks]; [by intros ?%elem_of_nil|].
    intros (k & -> & _)%list_elem_of_fmap. done.
Qed.

Lemma deliver_lookup_ne (ms : list (handle * msg)) (w : world) (h : handle) :
  Forall (λ hm, hm.1 ≠ h) ms → stores (deliver ms w) !! h = stores w !! h.
Proof.
  unfold deliver, stores. simpl. generalize (actors (ray w)).
  induction ms as [|hm ms IH]; intros l Hne; simpl; [done|].
  inversion Hne as [|? ? Hhm Hms]; subst.
  rewrite IH by done. by apply list_lookup_alter_ne.
Qed.

Lemma confined_propagate (names : list value) (w : world) :
  addressed names w → confined names w (propagate w).
Proof.
  intros Hw. split; [by rewrite propagate_registry|]. split.
  - intros h G Hno HG. rewrite propagate_registry in Hno.
    rewrite propagate_deliver, deliver_lookup_ne; [done|].
    unfold pending_calls. apply Forall_concat, Forall_map, list.Forall_forall.
    intros t Ht. apply list.Forall_forall. intros hm Hhm <-.
    apply task_calls_graph in Hhm.
    destruct (Hw t Ht) as (g & Hg & Hgh). apply (Hno g Hg). by rewrite Hhm.
  - intros t. rewrite propagate_tasks. by intros ?%elem_of_nil.
Qed.

Lemma confined_addressed (names : list value) (w w' : world) :
  addressed names w → confined names w w' → addressed names w'.
Proof.
  intros Hw (Hr & _ & Ht) t Hin.
  destruct (Ht t Hin) as [Hold|Hnew]; [|done].
  destruct (Hw t Hold) as (g & Hg & Hgh). exists g. split; [done|].
  by eapply lookup_weaken.
Qed.

Lemma confined_run_events (names : list value) (es : list event) (w : world) :
  (∀ g, g ∈ names_of es → g ∈ names) →
  addressed names w →
  confined names w (run_events es w) ∧ addressed names (run_events es w).
Proof.
  revert w. induction es as [|e es IH]; intros w Hsub Hw.
  - split; [reflexivity|done].
  - change (run_events (e :: es) w) with (run_events es (run_event e w)).
    assert (confined names w (run_event e w)) as He.
    { destruct e as [c|]; simpl run_event.
      - apply (confined_weaken (graphs_named c)); [|apply confined_run_call].
        intros g Hg. apply Hsub. unfold names_of. simpl.
        apply elem_of_app. by left.
      - by apply confined_propagate. }
    destruct (IH (run_event e w)) as [Hc Ha].
    { intros g Hg. apply Hsub. unfold names_of. simpl.
      apply elem_of_app. by right. }
    { by apply (confined_addressed names w). }
    split; [by etransitivity|done].
Qed.

Lemma registry_bijective_run_events (es : list event) (w : world) :
  registry_bijective w → registry_bijective (run_events es w).
Proof.
  revert w. induction es as [|e es IH]; intros w Hw; [done|].
  change (run_events (e :: es) w) with (run_events es (run_event e w)).
  apply IH. destruct e; simpl.
  - by apply registry_bijective_run_call.
  - by apply registry_bijective_propagate.
Qed.

Lemma registry_bijective_init : registry_bijective init.
Proof.
  split; [|split; [|split]].
  - intros g h. unfold registry, init. simpl. by rewrite lookup_empty.
  - intros g1 g2 h. unfold registry, init. simpl. by rewrite lookup_empty.
  - intros h. unfold stores, init. simpl. lia.
  - done.
Qed.

(** X8: a run of calls and task rounds leaves the store of every graph it
    does not name exactly as it was.  Starting from a world whose registry
    names the stores one to one and whose task queue is empty, the store of
    a registered graph that none of the calls names, neither as the graph
    addressed nor as another graph or a key of [foreign_keys], holds after
    the run what it held before: the calls reach the stores through the
    registry only, and the tasks get the handles the registry gave for the
    names of their call. *)
Theorem runs_touch_named_graphs_only (es : list event) (w : world)
    (g : value) (h : handle) :
  registry_bijective w → tasks (ray w) = [] →
  registry w !! g = Some h → g ∉ names_of es →
  is_Some (stores w !! h) ∧ stores (run_events es w) !! h = stores w !! h.
Proof.
  intros Hbij Hq Hg Hnot.
  destruct (wf_store_of w g h (proj1 Hbij) Hg) as [G HG].
  split; [by exists G|]. rewrite HG.
  destruct (confined_run_events (names_of es) es w) as [(_ & Hs & _) _]; [done| |].
  { intros t. rewrite Hq. by intros ?%elem_of_nil. }
  apply Hs; [|done]. intros g' Hg' Hgh.
  destruct (registry_bijective_run_events es w Hbij) as (_ & Hinj & _).
  assert (registry (run_events es w) !! g = Some h) as Hg2.
  { eapply lookup_weaken; [exact Hg|]. apply registry_run_events. }
  apply Hnot. by rewrite <- (Hinj g' g h Hgh Hg2).
Qed.

Lemma runs_touch_named_graphs_only_witness :
  is_Some (stores (run_events [Call (CreateGraph (VStr "G"));
                               Call (CreateGraph (VStr "H"))] init) !! 1%nat) ∧
  stores (run_events
            [Call (InsertRow (VStr "G") (VStr "K") (VStr "V") (VStr "L")
                     (VDict [(VStr "F", VStr "FK")]));
             RunTasks;
             Call (AddLocalKeysTo (VStr "G") (VStr "K") [VStr "M"]);
             Call (DeleteRow (VStr "F") (VStr "K"));
             RunTasks]
            (run_events [Call (CreateGraph (VStr "G"));
                         Call (CreateGraph (VStr "H"))] init)) !! 1%nat
  = stores (run_events [Call (CreateGraph (VStr "G"));
                        Call (CreateGraph (VStr "H"))] init) !! 1%nat.
Proof.
  apply (runs_touch_named_graphs_only _ _ (VStr "H") 1%nat).
  - apply registry_bijective_run_events, registry_bijective_init.
  - reflexivity.
  - reflexivity.
  - apply (bool_decide_unpack _). vm_compute. exact I.
Defined.

(** ** Graphs created on the way are announced *)

#[export] Instance announced_preorder : PreOrder announced.
Proof.
  split.
  - intros w. split; [done|]. exists []. rewrite app_nil_r. split; [done|].
    intros g. split.
    + intros [Hn [h Hs]]. congruence.
    + intros [Hin _]. by apply elem_of_nil in Hin.
  - intros w1 w2 w3 (Hr12 & out12 & Ho12 & H12) (Hr23 & out23 & Ho23 & H23).
    split; [by etransitivity|]. exists (out12 ++ out23)%list.
    split; [by rewrite Ho23, Ho12, app_assoc|].
    intros g. rewrite elem_of_app. split.
    + intros [Hn1 Hs3]. destruct (registry w2 !! g) as [h|] eqn:Hg2.
      * destruct (proj1 (H12 g)) as [Hin Ht]; [split; [done|by eexists]|]. auto.
      * destruct (proj1 (H23 g)) as [Hin Ht]; [done|]. auto.
    + intros [[Hin|Hin] Ht].
      * destruct (proj2 (H12 g)) as [Hn [h Hs]]; [done|]. split; [done|].
        exists h. by eapply lookup_weaken.
      * destruct (proj2 (H23 g)) as [Hn Hs]; [done|]. split; [|done].
        destruct (registry w1 !! g) as [h|] eqn:Hg1; [|done].
        eapply lookup_weaken in Hg1; [|exact Hr12]. congruence.
Qed.

Lemma announced_same (w w' : world) :
  registry w' = registry w → stdout (ray w') = stdout (ray w) → announced w w'.
Proof.
  intros Hr Ho. unfold announced. rewrite Hr, Ho. split; [done|].
  exists []. rewrite app_nil_r. split; [done|]. intros g. split.
  - intros [Hn [h Hs]]. congruence.
  - intros [Hin _]. by apply elem_of_nil in Hin.
Qed.

Lemma announced_create_if_not_exists (g : value) :
  preserves announced (_create_if_not_exists g).
Proof.
  intros w. unfold after. rewrite create_if_not_exists_run.
  destruct (Py.hashable g) eqn:Hh; simpl; [|reflexivity].
  destruct (bool_decide _) eqn:Hp; simpl; [reflexivity|].
  apply bool_decide_eq_false in Hp. apply eq_None_not_Some in Hp.
  destruct (Py.truthy g) eqn:Ht; simpl.
  - split.
    + unfold with_new_graph, registry. simpl. by apply insert_subseteq.
    + exists [g]. split; [done|]. intros g'. rewrite list_elem_of_singleton.
      unfold with_new_graph, registry. simpl. fold (registry w). split.
      * intros [Hn Hs]. destruct (decide (g = g')) as [->|Hne]; [done|].
        rewrite lookup_insert_ne in Hs by done. rewrite Hn in Hs.
        by destruct Hs.
      * intros [-> _]. split; [done|]. rewrite lookup_insert_eq. by eexists.
  - split; [done|]. exists [g]. split; [done|]. intros g'.
    rewrite list_elem_of_singleton. split.
    + intros [Hn [h Hs]]. unfold registry in *. simpl in Hs. congruence.
    + intros [-> Ht']. congruence.
Qed.

Lemma announced_incr : preserves announced incr_transaction_id.
Proof. intros w. by apply announced_same. Qed.

Lemma announced_remote (h : handle) (m : msg) : preserves announced (remote h m).
Proof. intros w. by apply announced_same. Qed.

Lemma announced_spawn (t : task) : preserves announced (spawn t).
Proof. intros w. by apply announced_same. Qed.

#[export] Hint Resolve announced_create_if_not_exists announced_incr
  announced_remote announced_spawn : preserves.

(** X9: the warning line accounts for every graph created on the way.
    During a call other than [create_graph], a name is new in the registry
    exactly when its warning was printed during the call and the name is
    neither empty nor absent; the registered names stay registered; and
    [create_graph] itself, like a round of the queued tasks, prints
    nothing. *)
Theorem auto_created_graphs_announced (c : call) (w : world) :
  (∀ g, stdout (ray (after (create_graph g true) w)) = stdout (ray w)) ∧
  stdout (ray (propagate w)) = stdout (ray w) ∧
  ((∀ g, c ≠ CreateGraph g) → announced w (after (run_call c) w)).
Proof.
  split; [|split].
  - intros g. unfold after. rewrite create_graph_new_transaction.
    rewrite create_graph_no_transaction. by repeat case_match.
  - by rewrite propagate_deliver.
  - intros Hc. destruct c as [g| | | |]; [by destruct (Hc g)|..]; simpl run_call.
    + assert (preserves announced
                (insert graph_id key node local_keys foreign_keys)) as H.
      { unfold insert. preserves_tac. }
      apply H.
    + assert (preserves announced (delete_row graph_id key)) as H.
      { unfold delete_row. preserves_tac. }
      apply H.
    + assert (preserves announced (add_local_keys graph_id key local_keys)) as H.
      { unfold add_local_keys. preserves_tac. }
      apply H.
    + assert (preserves announced
                (add_foreign_keys graph_id key other_graph_id foreign_keys)) as H.
      { unfold add_foreign_keys. preserves_tac. }
      apply H.
Qed.

Lemma auto_created_graphs_announced_witness :
  announced init
    (after (run_call (InsertRow (VStr "G") (VStr "K") (VStr "V") (VSet [])
                        (VDict [(VStr "H", VStr "F"); (VStr "", VStr "F")])))
       init).
Proof.
  apply (proj2 (proj2 (auto_created_graphs_announced
           (InsertRow (VStr "G") (VStr "K") (VStr "V") (VSet [])
              (VDict [(VStr "H", VStr "F"); (VStr "", VStr "F")])) init))).
  intros g. discriminate.
Defined.

(** ** Transaction ids in flight *)

#[export] Instance stamps_with_preorder (t : Z) : PreOrder (stamps_with t).
Proof.
  split.
  - intros w Ht. split; [done|]. exists [], [], 0%nat. simpl.
    by rewrite !app_nil_r.
  - intros w1 w2 w3 H12 H23 Ht1.
    destruct (H12 Ht1) as (Ht2 & ms1 & ts1 & n1 & Hs1 & Hk1 & Hc1 & Hm1 & Hq1).
    destruct (H23 Ht2) as (Ht3 & ms2 & ts2 & n2 & Hs2 & Hk2 & Hc2 & Hm2 & Hq2).
    split; [done|]. exists (ms1 ++ ms2)%list, (ts1 ++ ts2)%list, (n1 + n2)%nat.
    rewrite Hs2, Hs1, Hk2, Hk1, Hc2, Hc1, replicate_add, <- !app_assoc.
    split; [done|]. split; [done|]. split; [done|].
    split; by apply Forall_app.
Qed.

Lemma stamps_with_same (t : Z) (w w' : world) :
  transaction_id w' = transaction_id w → ray w' = ray w → stamps_with t w w'.
Proof.
  intros Hid Hray Ht. split; [congruence|]. exists [], [], 0%nat.
  unfold creation_stamps, stores. rewrite Hray. simpl.
  by rewrite !app_nil_r.
Qed.

Lemma stamps_with_print_warning (t : Z) (g : value) (w : world) :
  stamps_with t w (after (print_warning g) w).
Proof.
  intros Ht. split; [done|]. exists [], [], 0%nat. simpl.
  by rewrite !app_nil_r.
Qed.

Lemma stamps_with_new_graph (t : Z) (g : value) (w : world) :
  stamps_with t w (with_new_graph g w).
Proof.
  intros Ht. split; [done|]. exists [], [], 1%nat.
  unfold creation_stamps, with_new_graph, stores. simpl.
  rewrite !app_nil_r, map_app. simpl. fold (transaction_id w).
  by rewrite Ht.
Qed.

Lemma stamps_with_create_graph (t : Z) (g : value) :
  preserves (stamps_with t) (create_graph g false).
Proof.
  intros w. unfold after. rewrite create_graph_no_transaction.
  repeat case_match; simpl; try reflexivity. apply stamps_with_new_graph.
Qed.

Lemma stamps_with_create_if_not_exists (t : Z) (g : value) :
  preserves (stamps_with t) (_create_if_not_exists g).
Proof.
  unfold _create_if_not_exists.
  apply preserves_bind; [apply _ | apply preserves_dict_contains, _ |].
  intros [|]; [apply preserves_ret, _|].
  apply preserves_bind; [apply _ | | intros _; apply stamps_with_create_graph].
  intros w. apply stamps_with_print_warning.
Qed.

Lemma map_alter_same {A B} (f : A → B) (g : A → A) (i : nat) (l : list A) :
  (∀ x, f (g x) = f x) → map f (alter g i l) = map f l.
Proof.
  intros Hfg. revert i. induction l as [|x l IH]; intros [|i]; simpl; [done..| |].
  - by rewrite Hfg.
  - f_equal. apply IH.
Qed.

Lemma creation_stamps_remote (h : handle) (m : msg) (w : world) :
  creation_stamps (after (remote h m) w) = creation_stamps w.
Proof.
  unfold creation_stamps, after, remote, stores. simpl.
  apply map_alter_same. intros G. apply creation_transaction_id_handle_msg.
Qed.

Lemma stamps_with_remote (t : Z) (h : handle) (m : msg) (w : world) :
  msg_transaction_id m = Some (transaction_id w) →
  stamps_with t w (after (remote h m) w).
Proof.
  intros Hm Ht. split; [done|]. exists [(h, m)], [], 0%nat.
  rewrite creation_stamps_remote. simpl. rewrite !app_nil_r.
  split; [done|]. split; [done|]. split; [done|]. split; [|done].
  constructor; [|done]. simpl. by rewrite Hm, Ht.
Qed.

Lemma stamps_with_spawn (t : Z) (k : task) (w : world) :
  task_transaction_id k = transaction_id w →
  stamps_with t w (after (spawn k) w).
Proof.
  intros Hk Ht. split; [done|]. exists [], [k], 0%nat. simpl.
  rewrite !app_nil_r.
  split; [done|]. split; [done|]. split; [done|]. split; [done|].
  constructor; [|done]. by rewrite Hk, Ht.
Qed.

Ltac stamps_step x w E :=
  apply (bind_at (stamps_with _)); [ | intros x w E].

Lemma stamps_with_insert_loop_body (t : Z) (graph_id key foreign_keys g : value) :
  preserves (stamps_with t) (insert_loop_body graph_id key foreign_keys g).
Proof.
  intros w. unfold insert_loop_body.
  stamps_step u1 w1 E1; [apply stamps_with_create_if_not_exists|].
  stamps_step t' w2 E2; [apply preserves_get_transaction_id, _|].
  apply get_transaction_id_inr in E2 as (-> & ->).
  stamps_step h w3 E3; [apply preserves_dict_get, _|].
  apply dict_get_inr in E3 as (_ & _ & ->).
  stamps_step v w3 E4; [apply preserves_lift, _|].
  apply lift_inr in E4 as (_ & ->).
  by apply stamps_with_spawn.
Qed.

Lemma after_incr_bind {A} (k : unit → M A) (w : world) :
  after (bind incr_transaction_id k) w = after (k tt) (after incr_transaction_id w).
Proof. reflexivity. Qed.

Lemma stamps_with_run_call (c : call) (w : world) :
  ∃ rest : M unit,
    run_call c = (incr_transaction_id ;; rest)%py ∧
    stamps_with (transaction_id w + 1) (after incr_transaction_id w)
      (after rest (after incr_transaction_id w)).
Proof.
  generalize (after incr_transaction_id w). generalize (transaction_id w + 1).
  intros t w0. destruct c; simpl run_call.
  - exists (create_graph graph_id false). split; [reflexivity|].
    apply stamps_with_create_graph.
  - eexists. split; [reflexivity|].
    stamps_step u2 w2 E2; [apply preserves_raise_if, _|].
    stamps_step u3 w3 E3; [apply stamps_with_create_if_not_exists|].
    stamps_step h w4 E4; [apply preserves_dict_get, _|].
    apply dict_get_inr in E4 as (_ & _ & ->).
    stamps_step t' w4 E5; [apply preserves_get_transaction_id, _|].
    apply get_transaction_id_inr in E5 as (-> & ->).
    stamps_step u4 w4 E6; [by apply stamps_with_remote|].
    stamps_step lks w5 E7.
    { apply preserves_try_except_TypeError; [apply _|apply preserves_lift, _|].
      apply preserves_bind; [apply _|apply preserves_lift, _|].
      intros ?. apply preserves_lift, _. }
    stamps_step t' w6 E8; [apply preserves_get_transaction_id, _|].
    apply get_transaction_id_inr in E8 as (-> & ->).
    stamps_step h' w7 E9; [apply preserves_dict_get, _|].
    apply dict_get_inr in E9 as (_ & _ & ->).
    stamps_step u5 w7 E10; [by apply stamps_with_spawn|].
    stamps_step ids w8 E11; [apply preserves_lift, _|].
    apply (preserves_for_each (stamps_with t) ids
             (insert_loop_body graph_id key foreign_keys)).
    intros g. apply stamps_with_insert_loop_body.
  - eexists. split; [reflexivity|].
    stamps_step h w2 E2; [apply preserves_dict_get, _|].
    apply dict_get_inr in E2 as (_ & _ & ->).
    stamps_step t' w2 E3; [apply preserves_get_transaction_id, _|].
    apply get_transaction_id_inr in E3 as (-> & ->).
    by apply stamps_with_remote.
  - eexists. split; [reflexivity|].
    stamps_step h w2 E2; [apply preserves_dict_get, _|].
    apply dict_get_inr in E2 as (_ & _ & ->).
    stamps_step t' w2 E3; [apply preserves_get_transaction_id, _|].
    apply get_transaction_id_inr in E3 as (-> & ->).
    stamps_step u2 w3 E4; [by apply stamps_with_remote|].
    stamps_step t' w4 E5; [apply preserves_get_transaction_id, _|].
    apply get_transaction_id_inr in E5 as (-> & ->).
    stamps_step h' w5 E6; [apply preserves_dict_get, _|].
    apply dict_get_inr in E6 as (_ & _ & ->).
    by apply stamps_with_spawn.
  - eexists. split; [reflexivity|].
    stamps_step h w2 E2; [apply preserves_dict_get, _|].
    apply dict_get_inr in E2 as (_ & _ & ->).
    stamps_step t' w2 E3; [apply preserves_get_transaction_id, _|].
    apply get_transaction_id_inr in E3 as (-> & ->).
    stamps_step u2 w3 E4; [by apply stamps_with_remote|].
    stamps_step u3 w4 E5; [apply stamps_with_create_if_not_exists|].
    stamps_step t' w5 E6; [apply preserves_get_transaction_id, _|].
    apply get_transaction_id_inr in E6 as (-> & ->).
    stamps_step h' w6 E7; [apply preserves_dict_get, _|].
    apply dict_get_inr in E7 as (_ & _ & ->).
    by apply stamps_with_spawn.
Qed.

(** X10: whatever a mutating call sends, queues or creates carries the
    transaction id of that call.  Whether the call returns or raises, the
    log of sent calls and the task queue have only grown, no earlier store
    has lost its creation stamp, and every call sent, every task queued and
    every store created during the call is stamped with the old counter
    plus one, the value the counter has when the call ends. *)
Theorem calls_stamp_with_their_transaction_id (c : call) (w : world) :
  transaction_id (after (run_call c) w) = transaction_id w + 1 ∧
  ∃ ms ts n,
    sent (ray (after (run_call c) w)) = (sent (ray w) ++ ms)%list ∧
    tasks (ray (after (run_call c) w)) = (tasks (ray w) ++ ts)%list ∧
    creation_stamps (after (run_call c) w)
    = (creation_stamps w ++ replicate n (transaction_id w + 1))%list ∧
    Forall (λ hm, msg_transaction_id hm.2 = Some (transaction_id w + 1)) ms ∧
    Forall (λ k, task_transaction_id k = transaction_id w + 1) ts.
Proof.
  destruct (stamps_with_run_call c w) as (rest & -> & Hrest).
  rewrite after_incr_bind. by apply Hrest.
Qed.

Lemma creation_stamps_deliver (ms : list (handle * msg)) (w : world) :
  creation_stamps (deliver ms w) = creation_stamps w.
Proof.
  revert w. induction ms as [|hm ms IH]; intros w.
  - by rewrite deliver_nil.
  - by rewrite deliver_cons, IH, creation_stamps_remote.
Qed.

Lemma task_calls_transaction_id (k : task) :
  Forall (λ hm, msg_transaction_id hm.2 = Some (task_transaction_id k))
    (task_calls k).
Proof.
  destruct k; simpl.
  - destruct (Py.iter local_keys); [done|]. by apply Forall_map, Forall_true.
  - destruct (Py.iter f_keys); [done|]. by apply Forall_map, Forall_true.
Qed.

Lemma no_future_id_run_call (c : call) (w : world) :
  no_future_id w → no_future_id (after (run_call c) w).
Proof.
  intros (Hs & Hk & Hc).
  destruct (stamps_with_run_call c w) as (rest & -> & Hrest).
  destruct (Hrest eq_refl) as (Ht & ms & ts & n & Hse & Hta & Hst & Hms & Hts).
  rewrite after_incr_bind. unfold no_future_id. rewrite Hse, Hta, Hst, Ht.
  change (sent (ray (after incr_transaction_id w))) with (sent (ray w)).
  change (tasks (ray (after incr_transaction_id w))) with (tasks (ray w)).
  change (creation_stamps (after incr_transaction_id w)) with (creation_stamps w).
  split; [|split].
  - apply Forall_app. split.
    + eapply list.Forall_impl; [exact Hs|]. intros hm H t Hm.
      specialize (H t Hm). lia.
    + eapply list.Forall_impl; [exact Hms|]. intros hm H t Hm. simpl in H.
      assert (t = transaction_id w + 1) by congruence. lia.
  - apply Forall_app. split.
    + eapply list.Forall_impl; [exact Hk|]. intros k H. simpl in H. lia.
    + eapply list.Forall_impl; [exact Hts|]. intros k H. simpl in H. lia.
  - apply Forall_app. split.
    + eapply list.Forall_impl; [exact Hc|]. intros t H. simpl in H. lia.
    + apply Forall_replicate. lia.
Qed.

Lemma no_future_id_propagate (w : world) :
  no_future_id w → no_future_id (propagate w).
Proof.
  intros (Hs & Hk & Hc). unfold no_future_id.
  rewrite transaction_id_propagate, propagate_tasks.
  rewrite propagate_deliver, creation_stamps_deliver.
  split; [|split; [done|exact Hc]].
  unfold deliver. simpl. apply Forall_app. split; [exact Hs|].
  unfold pending_calls. apply Forall_concat, Forall_map.
  eapply list.Forall_impl; [exact Hk|]. intros k Hle. simpl in Hle.
  eapply list.Forall_impl; [apply task_calls_transaction_id|].
  intros hm H t Ht. simpl in H. assert (t = task_transaction_id k) by congruence.
  lia.
Qed.

(** X11: no transaction id comes from the future.  At every moment of a
    run that starts from a fresh manager, every call in the log of the
    calls sent to the stores, every task waiting in the queue and every
    store carries a transaction id that is at most the current value of the
    counter, also when the queued tasks run long after the call that
    launched them. *)
Theorem no_transaction_id_from_the_future (es : list event) :
  no_future_id (run_events es init).
Proof.
  assert (no_future_id init) as Hinit.
  { by repeat split. }
  revert Hinit. generalize init. induction es as [|e es IH]; intros w Hw.
  - done.
  - change (run_events (e :: es) w) with (run_events es (run_event e w)).
    apply IH. destruct e; simpl.
    + by apply no_future_id_run_call.
    + by apply no_future_id_propagate.
Qed.

(** ** What the detached tasks do, in whatever order they run *)

(** X3: the detached back-edge procedures only ever add edges.  Run any
    tasks in any order: the fields of the manager and the printed output
    are untouched, no further task is queued, no store is created, and
    every call sent is an [add_local_keys] or an [add_foreign_keys] that
    goes to the store one of the tasks was given and carries the
    transaction id that task was launched with; never an insert, a delete
    or a read. *)
Theorem tasks_only_add_edges (ts : list task) (w : world) :
  let w' := foldl (λ w0 t, run_task t w0) w ts in
  self w' = self w ∧
  stdout (ray w') = stdout (ray w) ∧
  tasks (ray w') = tasks (ray w) ∧
  length (stores w') = length (stores w) ∧
  ∃ ms,
    sent (ray w') = (sent (ray w) ++ ms)%list ∧
    Forall (λ hm, additive hm.2 = true ∧
                  ∃ t, t ∈ ts ∧ hm.1 = task_graph t ∧
                       msg_transaction_id hm.2 = Some (task_transaction_id t))
      ms.
Proof.
  cbv zeta. rewrite run_tasks_deliver.
  split; [done|]. split; [done|]. split; [done|].
  split; [apply deliver_length|].
  exists (concat (map task_calls ts)). split; [done|].
  apply Forall_concat, Forall_map, list.Forall_forall. intros t Ht.
  apply list.Forall_forall. intros hm Hhm. split.
  - by apply (proj1 (list.Forall_forall _ _) (task_calls_additive t)).
  - exists t. split; [done|]. split; [by apply task_calls_graph|].
    by apply (proj1 (list.Forall_forall _ _) (task_calls_transaction_id t)).
Qed.
